(** * ECEF <-> LLA coordinate changer: a shallow embedding over the reals

    The notebook [ecef_lla_coord_changer.ipynb] is a straight-line numeric
    script: GRS80 constants, the closed-formula ECEF -> LLA conversion, an
    altitude offset, and the conversion back to ECEF.  Each notebook
    variable becomes a definition of the same name, with the values it is
    computed from as arguments; the conversions named by the specification
    chain them in the order of the cells.

    Numbers are exact reals.  Two operations of the script have no real
    value on part of their domain, the quotient by zero and the power
    [(1/2)] of a negative number (numpy answers [inf] or [nan] there and
    carries on); they return [None] here, and the script is threaded
    through the option monad.  Angles are astropy quantities in degrees:
    [np.degrees] produces them, and [np.sin] and [np.cos] convert them
    back to radians before evaluating.

    Where rounding or the infinities and nan of numpy decide what the
    script returns (the strict bounds of the derived constants, the range
    of the two angles, the polar axis), the cells are embedded a second
    time, in module [Binary64], with every operation rounded to the
    nearest binary64 number. *)

From Stdlib Require Import Reals Lra Lia ZArith QArith Qreals Qround Qabs.
From Stdlib Require Import Zfloor.
From Stdlib Require Import List.
Import ListNotations.

Open Scope R_scope.

(** ** Partial arithmetic *)

Definition bind {A B : Type} (c : option A) (k : A -> option B) : option B :=
  match c with
  | Some x => k x
  | None => None
  end.

Definition ret {A : Type} (x : A) : option A := Some x.

Notation "x <- c ;; k" := (bind c (fun x => k))
  (at level 61, c at next level, right associativity).

(** [x / y] of the script. *)
Definition quot (x y : R) : option R :=
  if Req_dec_T y 0 then None else Some (x / y).

(** [x ** (1/2)] of the script. *)
Definition root (x : R) : option R :=
  if Rle_dec 0 x then Some (sqrt x) else None.

(** ** Angles *)

(** [np.degrees]. *)
Definition degrees (r : R) : R := r * (180 / PI).

(** The conversion astropy applies to a quantity in degrees that reaches a
    trigonometric function. *)
Definition radians (d : R) : R := d * (PI / 180).

Definition sin_deg (d : R) : R := sin (radians d).
Definition cos_deg (d : R) : R := cos (radians d).

(** ** Data *)

Module Ellipsoid.
Record model : Type := Build { a : R; b : R; e : R; e_prime : R }.
End Ellipsoid.

Module Ecef.
Record point : Type := Build { X : R; Y : R; Z : R }.
End Ecef.

Module Lla.
Record point : Type := Build { phi : R; lam : R; h : R }.
End Lla.

(** ** GRS80 constants and the derived constants *)

Module Grs80.
Definition a : R := 6378137.0.
Definition f : R := 0.003352810681183637418.
End Grs80.

Module Derived.
(** [b = a * (1 - f)] *)
Definition b (a f : R) : R := a * (1 - f).

(** [e = ((a**2 - b**2)**(1/2))/a] *)
Definition e (a b : R) : option R :=
  s <- root (a ^ 2 - b ^ 2) ;; quot s a.

(** [e_prime = e/((1 - e**2)**(1/2))] *)
Definition e_prime (e : R) : option R :=
  s <- root (1 - e ^ 2) ;; quot e s.
End Derived.

Definition deriveEllipsoidModel (a f : R) : option Ellipsoid.model :=
  let b := Derived.b a f in
  e <- Derived.e a b ;;
  e_prime <- Derived.e_prime e ;;
  ret (Ellipsoid.Build a b e e_prime).

(** ** ECEF to LLA by the closed formula set *)

Module EcefToLla.
(** [lam = np.degrees(np.arctan(Y_original/X_original))] *)
Definition lam (X_original Y_original : R) : option R :=
  r <- quot Y_original X_original ;; ret (degrees (atan r)).

(** [p = (X_original**2 + Y_original**2)**(1/2)] *)
Definition p (X_original Y_original : R) : option R :=
  root (X_original ^ 2 + Y_original ^ 2).

(** [theta = np.degrees(np.arctan((Z_original * a)/(p * b)))] *)
Definition theta (a b Z_original p : R) : option R :=
  t <- quot (Z_original * a) (p * b) ;; ret (degrees (atan t)).

(** [phi = np.degrees(np.arctan((Z_original + e_prime**2 * b *
    (np.sin(theta)**3))/(p - e**2 * a * (np.cos(theta)**3))))] *)
Definition phi (a b e e_prime Z_original p theta : R) : option R :=
  u <- quot (Z_original + e_prime ^ 2 * b * (sin_deg theta ^ 3))
            (p - e ^ 2 * a * (cos_deg theta ^ 3)) ;;
  ret (degrees (atan u)).

(** [N = a / ((1 - e**2 * (np.sin(phi)**2))**(1/2))] *)
Definition N (a e phi : R) : option R :=
  s <- root (1 - e ^ 2 * (sin_deg phi ^ 2)) ;; quot a s.

(** [h = (p / np.cos(phi)) - N] *)
Definition h (p phi N : R) : option R :=
  q <- quot p (cos_deg phi) ;; ret (q - N).
End EcefToLla.

(** The latitude-formula denominator [p - e**2 * a * (np.cos(theta)**3)]. *)
Definition phi_denominator (m : Ellipsoid.model) (p theta : R) : R :=
  p - Ellipsoid.e m ^ 2 * Ellipsoid.a m * (cos_deg theta ^ 3).

Definition ecefToLla (m : Ellipsoid.model) (pt : Ecef.point)
  : option (Lla.point * R) :=
  let a := Ellipsoid.a m in
  let b := Ellipsoid.b m in
  let e := Ellipsoid.e m in
  let e_prime := Ellipsoid.e_prime m in
  lam <- EcefToLla.lam (Ecef.X pt) (Ecef.Y pt) ;;
  p <- EcefToLla.p (Ecef.X pt) (Ecef.Y pt) ;;
  theta <- EcefToLla.theta a b (Ecef.Z pt) p ;;
  phi <- EcefToLla.phi a b e e_prime (Ecef.Z pt) p theta ;;
  N <- EcefToLla.N a e phi ;;
  h <- EcefToLla.h p phi N ;;
  ret (Lla.Build phi lam h, N).

(** ** Imposing an altitude offset *)

(** [h_offset = h + alt_offset] *)
Definition h_offset (h alt_offset : R) : R := h + alt_offset.

Definition applyAltitudeOffset (pt : Lla.point) (alt_offset : R) : Lla.point :=
  Lla.Build (Lla.phi pt) (Lla.lam pt) (h_offset (Lla.h pt) alt_offset).

(** ** LLA to ECEF *)

Module LlaToEcef.
(** [X_new = (N + h_offset) * np.cos(phi) * np.cos(lam)] *)
Definition X_new (N h_offset phi lam : R) : R :=
  (N + h_offset) * cos_deg phi * cos_deg lam.

(** [Y_new = (N + h_offset) * np.cos(phi) * np.sin(lam)] *)
Definition Y_new (N h_offset phi lam : R) : R :=
  (N + h_offset) * cos_deg phi * sin_deg lam.

(** [Z_new = (((b**2 / a**2)*N) + h_offset) * np.sin(phi)] *)
Definition Z_new (a b N h_offset phi : R) : option R :=
  q <- quot (b ^ 2) (a ^ 2) ;; ret ((q * N + h_offset) * sin_deg phi).
End LlaToEcef.

Definition llaToEcef (pt : Lla.point) (m : Ellipsoid.model) (N : R)
  : option Ecef.point :=
  let X_new := LlaToEcef.X_new N (Lla.h pt) (Lla.phi pt) (Lla.lam pt) in
  let Y_new := LlaToEcef.Y_new N (Lla.h pt) (Lla.phi pt) (Lla.lam pt) in
  Z_new <- LlaToEcef.Z_new (Ellipsoid.a m) (Ellipsoid.b m) N
             (Lla.h pt) (Lla.phi pt) ;;
  ret (Ecef.Build X_new Y_new Z_new).

(** ** Differences between original and offset coordinates *)

(** [X_dif = X_new - X_original], and the same for Y and Z. *)
Definition diff (new original : Ecef.point) : Ecef.point :=
  Ecef.Build (Ecef.X new - Ecef.X original)
             (Ecef.Y new - Ecef.Y original)
             (Ecef.Z new - Ecef.Z original).

(** The whole notebook: convert, offset the altitude, convert back. *)
Definition offsetEcef (m : Ellipsoid.model) (pt : Ecef.point) (alt_offset : R)
  : option Ecef.point :=
  r <- ecefToLla m pt ;;
  llaToEcef (applyAltitudeOffset (fst r) alt_offset) m (snd r).

(** ** Notions of the specification *)

(** The outward unit normal of the reference ellipsoid at geodetic latitude
    [phi] and longitude [lam] (both in degrees). *)
Definition normal (pt : Lla.point) : Ecef.point :=
  Ecef.Build (cos_deg (Lla.phi pt) * cos_deg (Lla.lam pt))
             (cos_deg (Lla.phi pt) * sin_deg (Lla.lam pt))
             (sin_deg (Lla.phi pt)).


Definition scale (k : R) (v : Ecef.point) : Ecef.point :=
  Ecef.Build (k * Ecef.X v) (k * Ecef.Y v) (k * Ecef.Z v).

(** The round trip of the specification: convert to LLA and straight back,
    with the radius of curvature of the forward conversion. *)
Definition roundTrip (m : Ellipsoid.model) (pt : Ecef.point)
  : option Ecef.point :=
  r <- ecefToLla m pt ;; llaToEcef (fst r) m (snd r).

(** The point mirrored in the equatorial plane. *)
Definition mirror (pt : Ecef.point) : Ecef.point :=
  Ecef.Build (Ecef.X pt) (Ecef.Y pt) (- Ecef.Z pt).

(** The radius of curvature in the prime vertical at latitude [phi], the
    formula of the [N] cell. *)
Definition curvature_radius (m : Ellipsoid.model) (phi : R) : R :=
  Ellipsoid.a m / sqrt (1 - Ellipsoid.e m ^ 2 * (sin_deg phi ^ 2)).

(** Two coordinates agree within a tolerance. *)
Definition within (tol x y : R) : Prop := Rabs (x - y) <= tol.

(** The point lies on the reference ellipsoid of the model. *)
Definition on_ellipsoid (m : Ellipsoid.model) (pt : Ecef.point) : Prop :=
  (Ecef.X pt ^ 2 + Ecef.Y pt ^ 2) / Ellipsoid.a m ^ 2
  + Ecef.Z pt ^ 2 / Ellipsoid.b m ^ 2 = 1.

(** ** Inputs of the scenarios *)

(** Green Bank Telescope, current coordinates: the point the notebook runs on. *)
Definition X_original : R := 882589.289.
Definition Y_original : R := -4924872.368.
Definition Z_original : R := 3943729.418.
Definition gbt : Ecef.point := Ecef.Build X_original Y_original Z_original.

(** [alt_offset = 0.05 * u.m] *)
Definition alt_offset : R := 0.05.

(** ** Certified enclosures of the values of a straight-line script

    The numeric scenarios are settled by enclosing the reals the script
    computes between two fixed-point numbers.  The script is a list of
    cells, each an expression over the cells before it; it is run once on
    the reals and once on intervals whose bounds are integers counted in
    units of [1 / unit], every operation rounding its lower bound down and
    its upper bound up. *)

Module Enclosure.
Inductive expr : Type :=
| Int (z : Z)
| Dec (q : Q)
| Var (n : nat)
| Add (x y : expr)
| Sub (x y : expr)
| Mul (x y : expr)
| Div (x y : expr)
| Pow (x : expr) (n : nat)
| Sqrt (x : expr).

Fixpoint denote (env : list R) (x : expr) : R :=
  match x with
  | Int z => IZR z
  | Dec q => Q2R q
  | Var n => nth n env 0
  | Add x y => denote env x + denote env y
  | Sub x y => denote env x - denote env y
  | Mul x y => denote env x * denote env y
  | Div x y => denote env x / denote env y
  | Pow x n => denote env x ^ n
  | Sqrt x => sqrt (denote env x)
  end.

(** The values of the cells, in order, after the ones of [env]. *)
Fixpoint run (env : list R) (cells : list expr) : list R :=
  match cells with
  | [] => env
  | x :: rest => run (env ++ [denote env x]) rest
  end.

Record itv : Type := Itv { lo : Z; hi : Z }.

(** Quotient rounded down and quotient rounded up. *)
Definition fdiv (n d : Z) : Z := (n / d)%Z.
Definition cdiv (n d : Z) : Z := (- (- n / d))%Z.

Definition of_Z (u z : Z) : itv := Itv (z * u) (z * u).

Definition of_Q (u : Z) (q : Q) : itv :=
  Itv (fdiv (Qnum q * u) (Zpos (Qden q)))
      (cdiv (Qnum q * u) (Zpos (Qden q))).

Definition add (i j : itv) : itv := Itv (lo i + lo j) (hi i + hi j).

Definition sub (i j : itv) : itv := Itv (lo i - hi j) (hi i - lo j).

Definition min4 (a b c d : Z) : Z := Z.min (Z.min a b) (Z.min c d).
Definition max4 (a b c d : Z) : Z := Z.max (Z.max a b) (Z.max c d).

Definition mul (u : Z) (i j : itv) : itv :=
  let a := (lo i * lo j)%Z in
  let b := (lo i * hi j)%Z in
  let c := (hi i * lo j)%Z in
  let d := (hi i * hi j)%Z in
  Itv (fdiv (min4 a b c d) u) (cdiv (max4 a b c d) u).

Definition inv (u : Z) (i : itv) : option itv :=
  if ((0 <? lo i) || (hi i <? 0))%Z
  then Some (Itv (fdiv (u * u) (hi i)) (cdiv (u * u) (lo i)))
  else None.

Definition sqrt_itv (u : Z) (i : itv) : option itv :=
  if (0 <=? lo i)%Z
  then Some (Itv (Z.sqrt (lo i * u)) (Z.sqrt (hi i * u) + 1))
  else None.

Fixpoint power (u : Z) (i : itv) (n : nat) : itv :=
  match n with
  | O => of_Z u 1
  | S n => mul u i (power u i n)
  end.

Definition lift2 (f : itv -> itv -> itv) (i j : option itv) : option itv :=
  match i, j with
  | Some i, Some j => Some (f i j)
  | _, _ => None
  end.

Fixpoint eval (u : Z) (env : list itv) (x : expr) : option itv :=
  match x with
  | Int z => Some (of_Z u z)
  | Dec q => Some (of_Q u q)
  | Var n => nth_error env n
  | Add x y => lift2 add (eval u env x) (eval u env y)
  | Sub x y => lift2 sub (eval u env x) (eval u env y)
  | Mul x y => lift2 (mul u) (eval u env x) (eval u env y)
  | Div x y =>
      match eval u env x, eval u env y with
      | Some i, Some j =>
          match inv u j with
          | Some k => Some (mul u i k)
          | None => None
          end
      | _, _ => None
      end
  | Pow x n =>
      match eval u env x with
      | Some i => Some (power u i n)
      | None => None
      end
  | Sqrt x =>
      match eval u env x with
      | Some i => sqrt_itv u i
      | None => None
      end
  end.

Fixpoint eval_cells (u : Z) (env : list itv) (cells : list expr)
  : option (list itv) :=
  match cells with
  | [] => Some env
  | x :: rest =>
      match eval u env x with
      | Some i => eval_cells u (env ++ [i]) rest
      | None => None
      end
  end.

(** The real lies in the interval. *)
Definition contains (u : Z) (i : itv) (r : R) : Prop :=
  IZR (lo i) <= r * IZR u <= IZR (hi i).

(** A decimal enclosure asked of an expression over the cells. *)
Record bound : Type := Bound { subject : expr; lower : Q; upper : Q }.

Definition inside (u : Z) (i : itv) (l h : Q) : bool :=
  ((Qnum l * u <=? lo i * Zpos (Qden l))
   && (hi i * Zpos (Qden h) <=? Qnum h * u))%Z.

Definition check (u : Z) (env : list itv) (b : bound) : bool :=
  match eval u env (subject b) with
  | Some i => inside u i (lower b) (upper b)
  | None => false
  end.

(** The check the numeric proofs run: the script evaluates on intervals,
    and every bound holds of the interval of its subject. *)
Definition encloses_at (u : Z) (cells : list expr) (bounds : list bound)
  : bool :=
  (0 <? u)%Z
  && match eval_cells u [] cells with
     | Some env => forallb (check u env) bounds
     | None => false
     end.

(** Thirty decimal places. *)
Definition unit : Z := (10 ^ 30)%Z.

Definition encloses : list expr -> list bound -> bool := encloses_at unit.

(** What [encloses] establishes. *)
Definition holds (cells : list expr) (b : bound) : Prop :=
  Q2R (lower b) <= denote (run [] cells) (subject b) <= Q2R (upper b).
End Enclosure.

(** ** The notebook as a script of cells

    The cells of the notebook in their order, on decimal inputs.  The sine
    and the cosine of an angle that is the arctangent of [x] are in their
    algebraic form, [x / sqrt (1 + x * x)] and [1 / sqrt (1 + x * x)]. *)

Module Sym.
Import Enclosure.

Record inputs : Type := Inputs {
  in_a : Q; in_f : Q; in_X : Q; in_Y : Q; in_Z : Q; in_offset : Q
}.

(** The cells, by the name of the notebook variable they hold. *)
Definition a : expr := Var 0.
Definition f : expr := Var 1.
Definition X_original : expr := Var 2.
Definition Y_original : expr := Var 3.
Definition Z_original : expr := Var 4.
Definition alt_offset : expr := Var 5.
Definition b : expr := Var 6.
Definition e : expr := Var 7.
Definition e_prime : expr := Var 8.
Definition tan_lam : expr := Var 9.
Definition p : expr := Var 10.
Definition tan_theta : expr := Var 11.
Definition root_theta : expr := Var 12.
Definition sin_theta : expr := Var 13.
Definition cos_theta : expr := Var 14.
Definition denominator : expr := Var 15.
Definition tan_phi : expr := Var 16.
Definition root_phi : expr := Var 17.
Definition sin_phi : expr := Var 18.
Definition cos_phi : expr := Var 19.
Definition N : expr := Var 20.
Definition h : expr := Var 21.
Definition h_offset : expr := Var 22.
Definition root_lam : expr := Var 23.
Definition cos_lam : expr := Var 24.
Definition sin_lam : expr := Var 25.
Definition X_new : expr := Var 26.
Definition Y_new : expr := Var 27.
Definition Z_new : expr := Var 28.
Definition X_back : expr := Var 29.
Definition Y_back : expr := Var 30.
Definition Z_back : expr := Var 31.

Definition cells (i : inputs) : list expr :=
  [ Dec (in_a i); Dec (in_f i);
    Dec (in_X i); Dec (in_Y i); Dec (in_Z i); Dec (in_offset i);
    (* b *) Mul a (Sub (Int 1) f);
    (* e *) Div (Sqrt (Sub (Pow a 2) (Pow b 2))) a;
    (* e_prime *) Div e (Sqrt (Sub (Int 1) (Pow e 2)));
    (* lam *) Div Y_original X_original;
    (* p *) Sqrt (Add (Pow X_original 2) (Pow Y_original 2));
    (* theta *) Div (Mul Z_original a) (Mul p b);
    Sqrt (Add (Int 1) (Mul tan_theta tan_theta));
    Div tan_theta root_theta;
    Div (Int 1) root_theta;
    (* phi *) Sub p (Mul (Mul (Pow e 2) a) (Pow cos_theta 3));
    Div (Add Z_original (Mul (Mul (Pow e_prime 2) b) (Pow sin_theta 3)))
        denominator;
    Sqrt (Add (Int 1) (Mul tan_phi tan_phi));
    Div tan_phi root_phi;
    Div (Int 1) root_phi;
    (* N *) Div a (Sqrt (Sub (Int 1) (Mul (Pow e 2) (Pow sin_phi 2))));
    (* h *) Sub (Div p cos_phi) N;
    (* h_offset *) Add h alt_offset;
    Sqrt (Add (Int 1) (Mul tan_lam tan_lam));
    Div (Int 1) root_lam;
    Div tan_lam root_lam;
    (* X_new *) Mul (Mul (Add N h_offset) cos_phi) cos_lam;
    (* Y_new *) Mul (Mul (Add N h_offset) cos_phi) sin_lam;
    (* Z_new *) Mul (Add (Mul (Div (Pow b 2) (Pow a 2)) N) h_offset) sin_phi;
    (* the same three without the offset *)
    Mul (Mul (Add N h) cos_phi) cos_lam;
    Mul (Mul (Add N h) cos_phi) sin_lam;
    Mul (Add (Mul (Div (Pow b 2) (Pow a 2)) N) h) sin_phi ].

(** The real a cell holds. *)
Definition value (i : inputs) (x : expr) : R := denote (run [] (cells i)) x.
End Sym.

(** ** Partial sums of the sine, cosine and arctangent series

    The partial sums of the Standard Library ([sin_approx], [cos_approx]
    and the Machin-like sum for [PI / 4]) as expressions, the factorials
    computed in binary. *)

Module Series.
Import Enclosure.

Fixpoint Zfact (n : nat) : Z :=
  match n with
  | O => 1
  | S k => Z.of_nat (S k) * Zfact k
  end.

Fixpoint sum (f : nat -> expr) (n : nat) : expr :=
  match n with
  | O => f O
  | S k => Add (sum f k) (f (S k))
  end.

Definition sin_term (a : expr) (i : nat) : expr :=
  Mul (Pow (Int (-1)) i)
      (Div (Pow a (2 * i + 1)) (Int (Zfact (2 * i + 1)))).

Definition cos_term (a : expr) (i : nat) : expr :=
  Mul (Pow (Int (-1)) i) (Div (Pow a (2 * i)) (Int (Zfact (2 * i)))).

Definition sin_approx (a : expr) (n : nat) : expr := sum (sin_term a) n.
Definition cos_approx (a : expr) (n : nat) : expr := sum (cos_term a) n.

Definition atan_seq (x : expr) (i : nat) : expr :=
  Div (Pow x (2 * i + 1)) (Int (Z.of_nat (2 * i + 1))).

Definition pi_term (i : nat) : expr :=
  Mul (Pow (Int (-1)) i)
      (Add (Mul (Int 2) (atan_seq (Div (Int 1) (Int 3)) i))
           (atan_seq (Div (Int 1) (Int 7)) i)).

(** Partial sum of [PI / 4 = 2 atan (1/3) + atan (1/7)], times four. *)
Definition pi_approx (n : nat) : expr := Mul (Int 4) (sum pi_term n).

(** Decimal bounds of [PI] used by the angle enclosures. *)
Definition pi_lo : Q := 3.1415926535.
Definition pi_hi : Q := 3.1415926536.

Definition pi_bounds : list bound :=
  [ Bound (pi_approx 9) pi_lo 4; Bound (pi_approx 10) 3 pi_hi ].

(** Bounds of the angle of [d] degrees, in radians. *)
Definition radians_lo (d : Q) : expr :=
  Div (Mul (Dec d) (Dec pi_lo)) (Int 180).
Definition radians_hi (d : Q) : expr :=
  Div (Mul (Dec d) (Dec pi_hi)) (Int 180).

(** Bounds of the sine and of the cosine of [d] degrees, [0 <= d <= 89]. *)
Definition sin_deg_lo (d : Q) : expr := sin_approx (radians_lo d) 5.
Definition sin_deg_hi (d : Q) : expr := sin_approx (radians_hi d) 6.
Definition cos_deg_lo (d : Q) : expr := cos_approx (radians_hi d) 5.
Definition cos_deg_hi (d : Q) : expr := cos_approx (radians_lo d) 6.

(** The tangent test: [d <= degrees (atan x)] as soon as
    [sin d <= x * cos d], for [x >= 0], and the other way round. *)
Definition above_test (d : Q) (x : expr) : expr :=
  Sub (Mul x (cos_deg_lo d)) (sin_deg_hi d).

Definition below_test (d : Q) (x : expr) : expr :=
  Sub (sin_deg_lo d) (Mul x (cos_deg_hi d)).

Definition in_first_quadrant (d : Q) : bool :=
  Qle_bool 0 d && Qle_bool d 89.

(** The three bounds that give [lo <= degrees (atan x) <= hi]. *)
Definition nonneg_bound (x : expr) : bound := Bound x 0 1000000.
Definition above_bound (lo : Q) (x : expr) : bound :=
  Bound (above_test lo x) 0 1000000.
Definition below_bound (hi : Q) (x : expr) : bound :=
  Bound (below_test hi x) 0 1000000.
End Series.

(** ** The Machin series of [PI]

    [PI / 4 = 4 atan (1/5) - atan (1/239)], for nineteen decimal places. *)

Module PiSeries.
Import Enclosure Series.

Definition atan_term (x : expr) (i : nat) : expr :=
  Mul (Pow (Int (-1)) i) (atan_seq x i).

Definition atan_sum (x : expr) (n : nat) : expr := sum (atan_term x) n.

Definition fifth : expr := Div (Int 1) (Int 5).
Definition part239 : expr := Div (Int 1) (Int 239).

Definition below : expr :=
  Mul (Int 4) (Sub (Mul (Int 4) (atan_sum fifth 13)) (atan_sum part239 4)).
Definition above : expr :=
  Mul (Int 4) (Sub (Mul (Int 4) (atan_sum fifth 12)) (atan_sum part239 3)).

Definition lo : Q := 3.1415926535897932384.
Definition hi : Q := 3.1415926535897932386.

Definition bounds : list bound := [ Bound below lo 4; Bound above 3 hi ].
End PiSeries.

(** ** The runs of the scenarios *)

(** The notebook's run, with the flattening as it prints it. *)
Definition gbt_run : Sym.inputs :=
  Sym.Inputs 6378137.0 0.0033528106811836376
             882589.289 (-4924872.368) 3943729.418 0.05.


(** A point with [X < 0 < Y], in eastern Australia. *)
Definition parkes_run : Sym.inputs :=
  Sym.Inputs 6378137.0 0.0033528106811836376
             (-4554231.5) 2816759.1 (-3454036.3) 0.05.

(** The model and the point of a run, as the script computes them. *)
Definition run_model (i : Sym.inputs) : Ellipsoid.model :=
  Ellipsoid.Build (Sym.value i Sym.a) (Sym.value i Sym.b)
                  (Sym.value i Sym.e) (Sym.value i Sym.e_prime).

Definition run_point (i : Sym.inputs) : Ecef.point :=
  Ecef.Build (Sym.value i Sym.X_original) (Sym.value i Sym.Y_original)
             (Sym.value i Sym.Z_original).

(** What a run has to pass for its arithmetic to be defined: a nonzero
    [X], a positive semi-major axis, a flattening strictly between 0 and 1
    and a positive latitude denominator. *)
Definition run_guards : list Enclosure.bound :=
  [ Enclosure.Bound Sym.a 1 1000000000;
    Enclosure.Bound Sym.f 0.000000001 0.999999999;
    Enclosure.Bound Sym.denominator 1 1000000000 ].

(** The guards and the bounds of a scenario, checked in one evaluation. *)
Definition run_encloses (i : Sym.inputs) (bounds : list Enclosure.bound)
  : bool :=
  negb (Qnum (Sym.in_X i) =? 0)%Z
  && Enclosure.encloses (Sym.cells i) (run_guards ++ bounds).

(** The opposite of the tangent of the longitude, positive at Green Bank. *)
Definition neg_tan_lam : Enclosure.expr :=
  Enclosure.Sub (Enclosure.Int 0) Sym.tan_lam.

(** The bounds of the Green Bank scenarios. *)
Definition gbt_bounds : list Enclosure.bound :=
  [ Series.nonneg_bound Sym.tan_phi;
    Series.above_bound 38.43305 Sym.tan_phi;
    Series.below_bound 38.43320 Sym.tan_phi;
    Series.nonneg_bound neg_tan_lam;
    Series.above_bound 79.83976 neg_tan_lam;
    Series.below_bound 79.83992 neg_tan_lam;
    Enclosure.Bound Sym.h 823.668052 823.668053;
    Enclosure.Bound Sym.X_new 882589.295909 882589.295910;
    Enclosure.Bound Sym.Y_new (-4924872.406553) (-4924872.406552);
    Enclosure.Bound Sym.Z_new 3943729.449080 3943729.449081;
    Enclosure.Bound Sym.X_back 882589.2889999 882589.2890001;
    Enclosure.Bound Sym.Y_back (-4924872.3680001) (-4924872.3679999);
    Enclosure.Bound Sym.Z_back 3943729.4179999 3943729.4180001 ].



(** ** The cells in binary64 arithmetic

    The same cells with numpy's numbers: every operation returns the
    binary64 number nearest the exact result (ties to even), an infinity
    when that exceeds the largest finite number, and follows the IEEE 754
    rules on infinities and nan instead of raising. The elementary
    functions ([np.arctan], [np.sin], [np.cos], the powers) are taken as
    correctly rounded, [np.longdouble] as binary64, and the sign of a zero
    is not kept: a zero divisor counts as [+0.0]. *)

Module Binary64.

(** [2^e]. *)
Definition bpow (e : Z) : R := powerRZ 2 e.

(** The binary exponent of a number: [bpow (mag x) <= |x| < bpow (mag x + 1)]. *)
Definition mag (x : R) : Z := Zfloor (ln (Rabs x) / ln 2).

(** The exponent of the last place: 53 digits, subnormal below [2^-1022]. *)
Definition fexp (k : Z) : Z := Z.max (k - 52) (-1074).

Definition ulp (x : R) : R := bpow (fexp (mag x)).

(** The nearest integer, ties to even. *)
Definition rne (r : R) : Z :=
  let n := Zfloor r in
  if Rlt_dec (r - IZR n) (1 / 2) then n
  else if Rlt_dec (1 / 2) (r - IZR n) then (n + 1)%Z
  else if Z.even n then n else (n + 1)%Z.

(** Rounding to nearest, the exponent unbounded above. *)
Definition rnd (x : R) : R := IZR (rne (x / ulp x)) * ulp x.

(** The numbers of the format, the exponent unbounded above. *)
Definition F64 (y : R) : Prop :=
  exists m e : Z,
    y = IZR m * bpow e /\ (Z.abs m < 2 ^ 53)%Z /\ (-1074 <= e)%Z.

(** The largest finite number. *)
Definition omega : R := IZR (2 ^ 53 - 1) * bpow 971.

Inductive value : Type :=
| Num (x : R)
| Inf (neg : bool)
| NaN.

Definition negative (x : R) : bool := if Rlt_dec x 0 then true else false.

Definition round (x : R) : value :=
  if Rle_dec (Rabs (rnd x)) omega then Num (rnd x) else Inf (negative x).

(** A decimal literal of the script. *)
Definition lit (x : R) : value := round x.

Definition opp (v : value) : value :=
  match v with
  | Num x => Num (- x)
  | Inf s => Inf (negb s)
  | NaN => NaN
  end.

Definition add (v w : value) : value :=
  match v, w with
  | Num x, Num y => round (x + y)
  | Num _, Inf s => Inf s
  | Inf s, Num _ => Inf s
  | Inf s, Inf t => if Bool.eqb s t then Inf s else NaN
  | _, _ => NaN
  end.

Definition sub (v w : value) : value := add v (opp w).

Definition mul (v w : value) : value :=
  match v, w with
  | Num x, Num y => round (x * y)
  | Num x, Inf s => if Req_dec_T x 0 then NaN else Inf (xorb (negative x) s)
  | Inf s, Num y => if Req_dec_T y 0 then NaN else Inf (xorb s (negative y))
  | Inf s, Inf t => Inf (xorb s t)
  | _, _ => NaN
  end.

Definition div (v w : value) : value :=
  match v, w with
  | Num x, Num y =>
      if Req_dec_T y 0
      then if Req_dec_T x 0 then NaN else Inf (negative x)
      else round (x / y)
  | Num _, Inf _ => Num 0
  | Inf s, Num y => Inf (xorb s (negative y))
  | _, _ => NaN
  end.

(** [x ** n] for a literal [n]. *)
Definition power (v : value) (n : nat) : value :=
  match v with
  | Num x => round (x ^ n)
  | Inf s => Inf (s && Nat.odd n)
  | NaN => NaN
  end.

(** [x ** (1/2)]. *)
Definition root (v : value) : value :=
  match v with
  | Num x => if Rlt_dec x 0 then NaN else round (sqrt x)
  | Inf false => Inf false
  | _ => NaN
  end.

(** [np.arctan]. *)
Definition arctan (v : value) : value :=
  match v with
  | Num x => round (atan x)
  | Inf false => round (PI / 2)
  | Inf true => round (- (PI / 2))
  | NaN => NaN
  end.

(** [np.sin] and [np.cos], on radians. *)
Definition sin (v : value) : value :=
  match v with
  | Num x => round (Rtrigo_def.sin x)
  | _ => NaN
  end.

Definition cos (v : value) : value :=
  match v with
  | Num x => round (Rtrigo_def.cos x)
  | _ => NaN
  end.

(** [np.pi], and the two factors between radians and degrees:
    [180.0 / np.pi] of [np.degrees] and [np.pi / 180.0] of astropy. *)
Definition pi : R := rnd PI.
Definition rad2deg : R := rnd (180 / pi).
Definition deg2rad : R := rnd (pi / 180).

(** [np.degrees]. *)
Definition degrees (v : value) : value := mul v (Num rad2deg).

(** The conversion astropy applies to a quantity in degrees that reaches
    a trigonometric function. *)
Definition radians (v : value) : value := mul v (Num deg2rad).

Definition sin_deg (v : value) : value := sin (radians v).
Definition cos_deg (v : value) : value := cos (radians v).

Module Ellipsoid.
Record model : Type := Build { a : value; b : value; e : value; e_prime : value }.
End Ellipsoid.

Module Ecef.
Record point : Type := Build { X : value; Y : value; Z : value }.
End Ecef.

Module Lla.
Record point : Type := Build { phi : value; lam : value; h : value }.
End Lla.

Module Derived.
(** [b = a * (1 - f)] *)
Definition b (a f : value) : value := mul a (sub (Num 1) f).

(** [e = np.longdouble(((a**2 - b**2)**(1/2))/a)] *)
Definition e (a b : value) : value :=
  div (root (sub (power a 2) (power b 2))) a.

(** [e_prime = np.longdouble(e/((1 - e**2)**(1/2)))] *)
Definition e_prime (e : value) : value :=
  div e (root (sub (Num 1) (power e 2))).
End Derived.

Definition deriveEllipsoidModel (a f : value) : Ellipsoid.model :=
  let b := Derived.b a f in
  let e := Derived.e a b in
  Ellipsoid.Build a b e (Derived.e_prime e).

Module EcefToLla.
(** [lam = np.degrees(np.arctan(Y_original/X_original))] *)
Definition lam (X Y : value) : value := degrees (arctan (div Y X)).

(** [p = (X_original**2 + Y_original**2)**(1/2)] *)
Definition p (X Y : value) : value := root (add (power X 2) (power Y 2)).

(** [theta = np.degrees(np.arctan((Z_original * a)/(p * b)))] *)
Definition theta (Z a p b : value) : value :=
  degrees (arctan (div (mul Z a) (mul p b))).

(** [phi = np.degrees(np.arctan((Z_original + e_prime**2 * b *
    (np.sin(theta)**3))/(p - e**2 * a * (np.cos(theta)**3))))] *)
Definition phi (Z e_prime b theta p e a : value) : value :=
  degrees
    (arctan
       (div (add Z (mul (mul (power e_prime 2) b) (power (sin_deg theta) 3)))
            (sub p (mul (mul (power e 2) a) (power (cos_deg theta) 3))))).

(** [N = a / ((1 - e**2 * (np.sin(phi)**2))**(1/2))] *)
Definition N (a e phi : value) : value :=
  div a (root (sub (Num 1) (mul (power e 2) (power (sin_deg phi) 2)))).

(** [h = (p / np.cos(phi)) - N] *)
Definition h (p phi N : value) : value := sub (div p (cos_deg phi)) N.
End EcefToLla.

Definition ecefToLla (m : Ellipsoid.model) (pt : Ecef.point)
  : Lla.point * value :=
  let lam := EcefToLla.lam (Ecef.X pt) (Ecef.Y pt) in
  let p := EcefToLla.p (Ecef.X pt) (Ecef.Y pt) in
  let theta := EcefToLla.theta (Ecef.Z pt) (Ellipsoid.a m) p (Ellipsoid.b m) in
  let phi := EcefToLla.phi (Ecef.Z pt) (Ellipsoid.e_prime m) (Ellipsoid.b m)
                           theta p (Ellipsoid.e m) (Ellipsoid.a m) in
  let N := EcefToLla.N (Ellipsoid.a m) (Ellipsoid.e m) phi in
  let h := EcefToLla.h p phi N in
  (Lla.Build phi lam h, N).

(** The constants of the notebook and the derived constants. *)
Module Grs80.
Definition a : value := lit 6378137.0.
Definition f : value := lit 0.003352810681183637418.
End Grs80.

Definition grs80 : Ellipsoid.model := deriveEllipsoidModel Grs80.a Grs80.f.


Definition east_point : Ecef.point :=
  Ecef.Build (lit 1e-9) (lit 6378137.0) (lit 0.0).

(** The invariant of the derived constants, as the specification states
    it and as binary64 keeps it. *)
Definition strict_invariant (m : Ellipsoid.model) : Prop :=
  match Ellipsoid.a m, Ellipsoid.b m, Ellipsoid.e m, Ellipsoid.e_prime m with
  | Num a, Num b, Num e, Num e' => 0 < b < a /\ 0 <= e < 1 /\ e < e'
  | _, _, _, _ => False
  end.

Definition invariant (m : Ellipsoid.model) : Prop :=
  match Ellipsoid.a m, Ellipsoid.b m, Ellipsoid.e m, Ellipsoid.e_prime m with
  | Num a, Num b, Num e, Num e' => 0 < b <= a /\ 0 <= e <= 1 /\ e <= e'
  | Num a, Num b, Num e, Inf false => 0 < b <= a /\ 0 <= e <= 1
  | _, _, _, _ => False
  end.

(** A number strictly between -90 and 90; a number between -90 and 90,
    or nan. *)
Definition open_quarter_turn (v : value) : Prop :=
  match v with
  | Num x => -90 < x < 90
  | _ => False
  end.

Definition quarter_turn (v : value) : Prop :=
  match v with
  | Num x => -90 <= x <= 90
  | Inf _ => False
  | NaN => True
  end.

(** The values of the derived constants and of the polar radius of
    curvature, [a / (1 - e**2)**(1/2)]. *)
Definition grs80_b : R := IZR 6825510824501278 * bpow (-30).
Definition grs80_e : R := IZR 5895694052676030 * bpow (-56).
Definition grs80_e_prime : R := IZR 5915527697123784 * bpow (-56).

(** The binary64 numbers nearest [PI / 2] and [1e-9]. *)
Definition half_pi : R := IZR 7074237752028440 * bpow (-52).
Definition nanometre : R := IZR 4835703278458517 * bpow (-82).
End Binary64.

(** * Properties *)

(** ** The partial operations *)

Lemma quot_defined (x y : R) : y <> 0 -> quot x y = Some (x / y).
Proof.
  intros Hy. unfold quot. destruct (Req_dec_T y 0) as [E | _]; [contradiction | reflexivity].
Qed.

Lemma quot_zero (x : R) : quot x 0 = None.
Proof.
  unfold quot. destruct (Req_dec_T 0 0) as [_ | N]; [reflexivity | now elim N].
Qed.

Lemma quot_inv (x y q : R) : quot x y = Some q -> y <> 0 /\ q = x / y.
Proof.
  unfold quot. destruct (Req_dec_T y 0) as [_ | N]; [discriminate |].
  intros [= <-]. now split.
Qed.

Lemma root_defined (x : R) : 0 <= x -> root x = Some (sqrt x).
Proof.
  intros Hx. unfold root. destruct (Rle_dec 0 x) as [_ | N]; [reflexivity | contradiction].
Qed.

Lemma root_negative (x : R) : x < 0 -> root x = None.
Proof.
  intros Hx. unfold root. destruct (Rle_dec 0 x) as [P | _]; [lra | reflexivity].
Qed.

Lemma root_inv (x s : R) : root x = Some s -> 0 <= x /\ s = sqrt x.
Proof.
  unfold root. destruct (Rle_dec 0 x) as [P | _]; [| discriminate].
  intros [= <-]. now split.
Qed.

Lemma bind_inv {A B : Type} (c : option A) (k : A -> option B) (y : B) :
  bind c k = Some y -> exists x, c = Some x /\ k x = Some y.
Proof.
  destruct c as [x |]; simpl; [| discriminate]. intros H. now exists x.
Qed.

(** ** Degrees and radians *)

Lemma radians_degrees (r : R) : radians (degrees r) = r.
Proof.
  unfold radians, degrees. field. exact PI_neq0.
Qed.

Lemma degrees_0 : degrees 0 = 0.
Proof. unfold degrees. apply Rmult_0_l. Qed.

Lemma degrees_increasing (x y : R) : x < y -> degrees x < degrees y.
Proof.
  intros H. unfold degrees. apply Rmult_lt_compat_r; [| exact H].
  apply Rdiv_lt_0_compat; [lra | exact PI_RGT_0].
Qed.

Lemma degrees_half_turn : degrees (PI / 2) = 90.
Proof. unfold degrees. field. exact PI_neq0. Qed.

Lemma degrees_opp (x : R) : degrees (- x) = - degrees x.
Proof. unfold degrees. ring. Qed.

Lemma degrees_atan_bound (x : R) : -90 < degrees (atan x) < 90.
Proof.
  destruct (atan_bound x) as [Hl Hu]. split.
  - replace (-90) with (degrees (- (PI / 2))) by (rewrite degrees_opp, degrees_half_turn; lra).
    apply degrees_increasing. lra.
  - rewrite <- degrees_half_turn. now apply degrees_increasing.
Qed.

Lemma sqrt_1_plus_sqr_pos (x : R) : 0 < sqrt (1 + x²).
Proof.
  apply sqrt_lt_R0. pose proof (Rle_0_sqr x). lra.
Qed.

Lemma sin_deg_atan (x : R) : sin_deg (degrees (atan x)) = x / sqrt (1 + x²).
Proof. unfold sin_deg. rewrite radians_degrees. apply sin_atan. Qed.

Lemma cos_deg_atan (x : R) : cos_deg (degrees (atan x)) = 1 / sqrt (1 + x²).
Proof. unfold cos_deg. rewrite radians_degrees. apply cos_atan. Qed.

Lemma cos_deg_atan_pos (x : R) : 0 < cos_deg (degrees (atan x)).
Proof.
  rewrite cos_deg_atan. apply Rdiv_lt_0_compat; [lra | apply sqrt_1_plus_sqr_pos].
Qed.

Lemma sin_deg_atan_sqr_lt_1 (x : R) : sin_deg (degrees (atan x)) ^ 2 < 1.
Proof.
  unfold sin_deg, cos_deg. rewrite radians_degrees.
  pose proof (sin2_cos2 (atan x)) as H. unfold Rsqr in H.
  assert (0 < cos (atan x)) as Hc.
  { rewrite cos_atan. apply Rdiv_lt_0_compat; [lra | apply sqrt_1_plus_sqr_pos]. }
  nra.
Qed.

(** ** The conversion as a whole: when it is defined and what it returns *)

Section Conversion.
Variable m : Ellipsoid.model.
Variable pt : Ecef.point.

Let a := Ellipsoid.a m.
Let b := Ellipsoid.b m.
Let e := Ellipsoid.e m.
Let e_prime := Ellipsoid.e_prime m.
Let X := Ecef.X pt.
Let Y := Ecef.Y pt.
Let Z := Ecef.Z pt.

(** The intermediate values of the cell, as the script computes them. *)
Let p := sqrt (X ^ 2 + Y ^ 2).
Let theta := degrees (atan (Z * a / (p * b))).
Let phi :=
  degrees (atan ((Z + e_prime ^ 2 * b * (sin_deg theta ^ 3))
                 / phi_denominator m p theta)).
Let N := a / sqrt (1 - e ^ 2 * (sin_deg phi ^ 2)).

Lemma p_sqr_nonneg : 0 <= X ^ 2 + Y ^ 2.
Proof. nra. Qed.

Lemma ecefToLla_inv (lla : Lla.point) (Nv : R) :
  ecefToLla m pt = Some (lla, Nv) ->
  X <> 0 /\ p * b <> 0 /\ phi_denominator m p theta <> 0 /\
  0 <= 1 - e ^ 2 * (sin_deg phi ^ 2) /\
  sqrt (1 - e ^ 2 * (sin_deg phi ^ 2)) <> 0 /\
  Nv = N /\
  lla = Lla.Build phi (degrees (atan (Y / X))) (p / cos_deg phi - N).
Proof.
  unfold ecefToLla, EcefToLla.lam, EcefToLla.p, EcefToLla.theta,
    EcefToLla.phi, EcefToLla.N, EcefToLla.h, ret.
  fold a b e e_prime X Y Z.
  intros H.
  apply bind_inv in H as (l & Hl & H).
  apply bind_inv in Hl as (r & Hr & [= <-]).
  apply quot_inv in Hr as [HX ->].
  apply bind_inv in H as (p0 & Hp & H).
  apply root_inv in Hp as [_ ->]. fold p in H.
  apply bind_inv in H as (th & Hth & H).
  apply bind_inv in Hth as (t & Ht & [= <-]).
  apply quot_inv in Ht as [Hpb ->]. fold theta in H.
  apply bind_inv in H as (ph & Hph & H).
  apply bind_inv in Hph as (u & Hu & [= <-]).
  apply quot_inv in Hu as [Hden ->].
  change (p - e ^ 2 * a * cos_deg theta ^ 3)
    with (phi_denominator m p theta) in H, Hden.
  fold phi in H.
  apply bind_inv in H as (n & Hn & H).
  apply bind_inv in Hn as (s & Hs & Hq).
  apply root_inv in Hs as [Hs ->].
  apply quot_inv in Hq as [Hs0 ->]. fold N in H.
  apply bind_inv in H as (h0 & Hh & [= <- <-]).
  apply bind_inv in Hh as (q & Hq & [= <-]).
  apply quot_inv in Hq as [_ ->].
  repeat split; assumption || reflexivity.
Qed.

Lemma ecefToLla_defined :
  X <> 0 -> b <> 0 -> phi_denominator m p theta <> 0 ->
  0 < 1 - e ^ 2 * (sin_deg phi ^ 2) ->
  ecefToLla m pt =
  Some (Lla.Build phi (degrees (atan (Y / X))) (p / cos_deg phi - N), N).
Proof.
  intros HX Hb Hden Hs.
  assert (0 < p) as Hp.
  { apply sqrt_lt_R0. fold X Y in HX. nra. }
  unfold ecefToLla, EcefToLla.lam, EcefToLla.p, EcefToLla.theta,
    EcefToLla.phi, EcefToLla.N, EcefToLla.h, ret.
  fold a b e e_prime X Y Z.
  rewrite (quot_defined Y X HX). cbn [bind].
  rewrite (root_defined _ p_sqr_nonneg). cbn [bind]. fold p.
  rewrite quot_defined by (apply Rmult_integral_contrapositive_currified; lra).
  cbn [bind]. fold theta.
  change (p - e ^ 2 * a * cos_deg theta ^ 3) with (phi_denominator m p theta).
  rewrite (quot_defined _ _ Hden). cbn [bind]. fold phi.
  rewrite root_defined by lra. cbn [bind].
  rewrite quot_defined by (apply Rgt_not_eq, sqrt_lt_R0; exact Hs).
  cbn [bind]. fold N.
  rewrite quot_defined by (apply Rgt_not_eq, cos_deg_atan_pos).
  reflexivity.
Qed.

(** With a first eccentricity below one the radicand of [N] is positive,
    so the conversion is defined as soon as its two quotients are. *)
Lemma ecefToLla_defined_ecc :
  X <> 0 -> b <> 0 -> phi_denominator m p theta <> 0 -> e ^ 2 < 1 ->
  ecefToLla m pt =
  Some (Lla.Build phi (degrees (atan (Y / X))) (p / cos_deg phi - N), N).
Proof.
  intros HX Hb Hden He. apply ecefToLla_defined; try assumption.
  pose proof (sin_deg_atan_sqr_lt_1
    ((Z + e_prime ^ 2 * b * (sin_deg theta ^ 3)) / phi_denominator m p theta)) as Hs.
  fold phi in Hs.
  assert (0 <= sin_deg phi ^ 2) by nra.
  assert (0 <= e ^ 2) by nra.
  nra.
Qed.
End Conversion.

(** ** Derived constants *)

Section DerivedConstants.
Variables a f : R.
Hypothesis Ha : a <> 0.

Let b := Derived.b a f.

Lemma derived_radicand : a ^ 2 - b ^ 2 = a ^ 2 * (f * (2 - f)).
Proof. unfold b, Derived.b. ring. Qed.

Lemma derived_e_defined :
  0 <= f * (2 - f) -> Derived.e a b = Some (sqrt (a ^ 2 - b ^ 2) / a).
Proof.
  intros Hf. unfold Derived.e.
  rewrite root_defined by (rewrite derived_radicand; nra).
  cbn [bind]. now apply quot_defined.
Qed.

Lemma derived_e_sqr :
  0 <= f * (2 - f) -> (sqrt (a ^ 2 - b ^ 2) / a) ^ 2 = f * (2 - f).
Proof.
  intros Hf.
  assert (0 <= a ^ 2 - b ^ 2) as Hr by (rewrite derived_radicand; nra).
  pose proof (sqrt_sqrt _ Hr) as Hs. rewrite derived_radicand in Hs at 3.
  unfold Rdiv. rewrite Rpow_mult_distr, pow_inv.
  replace (sqrt (a ^ 2 - b ^ 2) ^ 2) with (a ^ 2 * (f * (2 - f))) by (rewrite <- Hs; ring).
  field. exact Ha.
Qed.

Lemma deriveEllipsoidModel_defined :
  0 <= f * (2 - f) -> f * (2 - f) < 1 ->
  let e := sqrt (a ^ 2 - b ^ 2) / a in
  deriveEllipsoidModel a f =
  Some (Ellipsoid.Build a b e (e / sqrt (1 - e ^ 2))).
Proof.
  intros Hf0 Hf1 e. unfold deriveEllipsoidModel. fold b.
  rewrite (derived_e_defined Hf0). cbn [bind]. fold e.
  unfold Derived.e_prime.
  assert (e ^ 2 = f * (2 - f)) as He by (apply derived_e_sqr; exact Hf0).
  rewrite root_defined by lra. cbn [bind].
  rewrite quot_defined by (apply Rgt_not_eq, sqrt_lt_R0; lra).
  reflexivity.
Qed.
End DerivedConstants.



(** ** Range of the two returned angles *)

Lemma lam_inv (X Y l : R) :
  EcefToLla.lam X Y = Some l -> X <> 0 /\ l = degrees (atan (Y / X)).
Proof.
  unfold EcefToLla.lam, ret. intros H.
  apply bind_inv in H as (r & Hr & [= <-]).
  apply quot_inv in Hr as [HX ->]. now split.
Qed.

Lemma lam_defined (X Y : R) :
  X <> 0 -> EcefToLla.lam X Y = Some (degrees (atan (Y / X))).
Proof.
  intros HX. unfold EcefToLla.lam. now rewrite quot_defined.
Qed.

(** With [X < 0 < Y] the quotient [Y / X] is negative, and so is its
    arctangent: the script answers a longitude of the fourth quadrant. *)
Lemma lam_negative_X (X Y : R) :
  X < 0 -> 0 < Y ->
  exists l, EcefToLla.lam X Y = Some l /\ -90 < l < 0.
Proof.
  intros HX HY. exists (degrees (atan (Y / X))). split.
  - apply lam_defined. lra.
  - split; [apply degrees_atan_bound |].
    rewrite <- degrees_0. apply degrees_increasing.
    rewrite <- atan_0. apply atan_increasing.
    apply Ropp_lt_cancel. rewrite Ropp_0, <- Rdiv_opp_r.
    apply Rdiv_lt_0_compat; lra.
Qed.

Lemma degrees_atan_1 : degrees (atan 1) = 45.
Proof. rewrite atan_1. unfold degrees. field. exact PI_neq0. Qed.

(** C2, at the failing input [X = -1], [Y = 1]: the point lies at longitude
    135 degrees, in the second quadrant, and the longitude cell answers
    -45 degrees, the single-argument arctangent of [Y / X]. *)
Theorem lam_second_quadrant_input : EcefToLla.lam (-1) 1 = Some (-45).
Proof.
  rewrite lam_defined by lra. f_equal.
  replace (1 / -1) with (Ropp 1) by lra.
  rewrite atan_opp, degrees_opp, degrees_atan_1. reflexivity.
Qed.

(** Over the reals: whenever the conversion is defined, the longitude and
    the latitude it returns are both strictly between -90 and 90 degrees,
    each being the image in degrees of a single-argument arctangent. *)
Theorem ecefToLla_angles_in_open_quadrants
  (m : Ellipsoid.model) (pt : Ecef.point) (lla : Lla.point) (Nv : R) :
  ecefToLla m pt = Some (lla, Nv) ->
  -90 < Lla.lam lla < 90 /\ -90 < Lla.phi lla < 90.
Proof.
  intros H. apply ecefToLla_inv in H as (_ & _ & _ & _ & _ & _ & ->).
  cbn [Lla.lam Lla.phi]. split; apply degrees_atan_bound.
Qed.

(** ** The polar axis *)

Lemma ecefToLla_X_zero (m : Ellipsoid.model) (Y Z : R) :
  ecefToLla m (Ecef.Build 0 Y Z) = None.
Proof.
  unfold ecefToLla, EcefToLla.lam. cbn [Ecef.X Ecef.Y].
  now rewrite quot_zero.
Qed.

(** Over the reals: at the North Pole [X = Y = 0], [Z = b] the first cell
    divides [Y] by [X = 0]. *)
Theorem ecefToLla_north_pole_undefined (m : Ellipsoid.model) :
  ecefToLla m (Ecef.Build 0 0 (Ellipsoid.b m)) = None.
Proof. apply ecefToLla_X_zero. Qed.

(** The altitude is computed by the one formula [p / cos(phi) - N]. *)
Lemma ecefToLla_altitude_formula
  (m : Ellipsoid.model) (pt : Ecef.point) (lla : Lla.point) (Nv : R) :
  ecefToLla m pt = Some (lla, Nv) ->
  Lla.h lla =
  sqrt (Ecef.X pt ^ 2 + Ecef.Y pt ^ 2) / cos_deg (Lla.phi lla) - Nv.
Proof.
  intros H. apply ecefToLla_inv in H as (_ & _ & _ & _ & _ & -> & ->).
  reflexivity.
Qed.

(** ** Zero and positive altitude offsets *)

(** C8: a zero altitude offset returns the point it was given. *)
Theorem applyAltitudeOffset_zero (pt : Lla.point) :
  applyAltitudeOffset pt 0 = pt.
Proof.
  destruct pt as [phi lam h]. unfold applyAltitudeOffset, h_offset.
  cbn [Lla.phi Lla.lam Lla.h]. now rewrite Rplus_0_r.
Qed.

Lemma applyAltitudeOffset_angles (pt : Lla.point) (dh : R) :
  Lla.phi (applyAltitudeOffset pt dh) = Lla.phi pt /\
  Lla.lam (applyAltitudeOffset pt dh) = Lla.lam pt.
Proof. now split. Qed.


Lemma llaToEcef_defined (pt : Lla.point) (m : Ellipsoid.model) (Nv : R) :
  Ellipsoid.a m <> 0 ->
  llaToEcef pt m Nv =
  Some (Ecef.Build
          (LlaToEcef.X_new Nv (Lla.h pt) (Lla.phi pt) (Lla.lam pt))
          (LlaToEcef.Y_new Nv (Lla.h pt) (Lla.phi pt) (Lla.lam pt))
          ((Ellipsoid.b m ^ 2 / Ellipsoid.a m ^ 2 * Nv + Lla.h pt)
           * sin_deg (Lla.phi pt))).
Proof.
  intros Ha. unfold llaToEcef, LlaToEcef.Z_new.
  rewrite quot_defined; [reflexivity |].
  apply pow_nonzero. exact Ha.
Qed.


(** ** Invariant of the derived constants and the absence of validation *)

(** Over the reals: for [a > 0] and [0 < f < 1] the derived constants
    exist, are the ones of the three formulas, and satisfy [0 < b < a],
    [0 <= e < 1] and [e' > e]. *)
Theorem derived_model_invariant (a f : R) :
  0 < a -> 0 < f < 1 ->
  exists m : Ellipsoid.model,
    deriveEllipsoidModel a f = Some m /\
    Ellipsoid.a m = a /\
    Ellipsoid.b m = a * (1 - f) /\
    Ellipsoid.e m = sqrt (a ^ 2 - Ellipsoid.b m ^ 2) / a /\
    Ellipsoid.e_prime m = Ellipsoid.e m / sqrt (1 - Ellipsoid.e m ^ 2) /\
    0 < Ellipsoid.b m < Ellipsoid.a m /\
    0 <= Ellipsoid.e m < 1 /\
    Ellipsoid.e m < Ellipsoid.e_prime m.
Proof.
  intros Ha [Hf0 Hf1].
  assert (a <> 0) as Hna by lra.
  assert (0 < f * (2 - f)) as Hk0 by nra.
  assert (f * (2 - f) < 1) as Hk1 by nra.
  eexists. split.
  { apply deriveEllipsoidModel_defined; [exact Hna | lra | exact Hk1]. }
  cbn [Ellipsoid.a Ellipsoid.b Ellipsoid.e Ellipsoid.e_prime].
  set (e := sqrt (a ^ 2 - Derived.b a f ^ 2) / a).
  assert (e ^ 2 = f * (2 - f)) as He2
    by (apply derived_e_sqr; [exact Hna | lra]).
  assert (0 < e) as He0.
  { apply Rdiv_lt_0_compat; [| exact Ha].
    apply sqrt_lt_R0. rewrite derived_radicand.
    apply Rmult_lt_0_compat; [nra | exact Hk0]. }
  assert (e < 1) as He1.
  { destruct (Rlt_dec e 1) as [L | G]; [exact L | exfalso; nra]. }
  assert (0 < sqrt (1 - e ^ 2) < 1) as [Hs0 Hs1].
  { split; [apply sqrt_lt_R0; lra |].
    rewrite <- sqrt_1 at 2. apply sqrt_lt_1; lra. }
  repeat split; try reflexivity; unfold Derived.b; try nra.
  apply Rmult_lt_reg_r with (sqrt (1 - e ^ 2)); [exact Hs0 |].
  unfold Rdiv. rewrite Rmult_assoc, Rinv_l by lra. nra.
Qed.



(** ** Soundness of the enclosures *)

Section EnclosureFacts.
Import Enclosure.

Variable u : Z.
Hypothesis u_pos : (0 < u)%Z.

Lemma unit_pos : 0 < IZR u.
Proof. now apply IZR_lt. Qed.

Lemma fdiv_spec (n d : Z) :
  (d <> 0)%Z -> IZR (fdiv n d) <= IZR n / IZR d < IZR (fdiv n d) + 1.
Proof.
  intros Hd. unfold fdiv.
  pose proof (Z.div_mod n d Hd) as E.
  assert (IZR n = IZR d * IZR (n / d) + IZR (n mod d)) as ER
    by (rewrite <- mult_IZR, <- plus_IZR; now f_equal).
  assert (IZR d <> 0) as HdR by (now apply not_0_IZR).
  replace (IZR n / IZR d) with (IZR (n / d) + IZR (n mod d) / IZR d)
    by (rewrite ER; field; exact HdR).
  destruct (Z_lt_le_dec 0 d) as [P | NP].
  - destruct (Z.mod_pos_bound n d P) as [M0 M1].
    apply IZR_le in M0. apply IZR_lt in M1. apply IZR_lt in P.
    assert (0 <= IZR (n mod d) / IZR d < 1) as [? ?]; [| lra].
    split.
    + apply Rmult_le_pos; [lra | apply Rlt_le, Rinv_0_lt_compat; lra].
    + apply Rmult_lt_reg_r with (IZR d); [lra |].
      unfold Rdiv. rewrite Rmult_assoc, Rinv_l by lra. lra.
  - assert (d < 0)%Z as Ng by lia.
    destruct (Z.mod_neg_bound n d Ng) as [M0 M1].
    apply IZR_lt in M0. apply IZR_le in M1. apply IZR_lt in Ng.
    assert (0 < - IZR d) as Hp by lra.
    replace (IZR (n mod d) / IZR d) with (- IZR (n mod d) / - IZR d)
      by (field; exact HdR).
    assert (0 <= - IZR (n mod d) / - IZR d < 1) as [? ?]; [| lra].
    split.
    + apply Rmult_le_pos; [lra | apply Rlt_le, Rinv_0_lt_compat; lra].
    + apply Rmult_lt_reg_r with (- IZR d); [lra |].
      unfold Rdiv. rewrite Rmult_assoc, Rinv_l by lra. lra.
Qed.

Lemma fdiv_le (n d : Z) : (d <> 0)%Z -> IZR (fdiv n d) <= IZR n / IZR d.
Proof. intros Hd. apply (fdiv_spec n d Hd). Qed.

Lemma cdiv_ge (n d : Z) : (d <> 0)%Z -> IZR n / IZR d <= IZR (cdiv n d).
Proof.
  intros Hd. unfold cdiv. rewrite opp_IZR.
  pose proof (fdiv_le (- n) d Hd) as H. unfold fdiv in H.
  rewrite opp_IZR in H.
  replace (IZR n / IZR d) with (- (- IZR n / IZR d))
    by (field; now apply not_0_IZR).
  lra.
Qed.

Lemma of_Z_sound (z : Z) : contains u (of_Z u z) (IZR z).
Proof.
  unfold contains, of_Z. cbn [lo hi]. rewrite mult_IZR. lra.
Qed.

Lemma of_Q_sound (q : Q) : contains u (of_Q u q) (Q2R q).
Proof.
  unfold contains, of_Q, Q2R. cbn [lo hi].
  assert (Zpos (Qden q) <> 0)%Z as Hd by discriminate.
  pose proof (fdiv_le (Qnum q * u) _ Hd) as Hl.
  pose proof (cdiv_ge (Qnum q * u) _ Hd) as Hu.
  rewrite mult_IZR in Hl, Hu.
  replace (IZR (Qnum q) * / IZR (Zpos (Qden q)) * IZR u)
    with (IZR (Qnum q) * IZR u / IZR (Zpos (Qden q)))
    by (field; now apply not_0_IZR).
  lra.
Qed.

Lemma add_sound (i j : itv) (x y : R) :
  contains u i x -> contains u j y -> contains u (add i j) (x + y).
Proof.
  unfold contains, add. cbn [lo hi]. rewrite !plus_IZR. intros [? ?] [? ?].
  rewrite Rmult_plus_distr_r. lra.
Qed.

Lemma sub_sound (i j : itv) (x y : R) :
  contains u i x -> contains u j y -> contains u (sub i j) (x - y).
Proof.
  unfold contains, sub. cbn [lo hi]. rewrite !minus_IZR. intros [? ?] [? ?].
  unfold Rminus. rewrite Rmult_plus_distr_r. lra.
Qed.

(** The product of two bounded reals lies between the least and the
    greatest product of their bounds. *)
Lemma product_lower (l1 h1 l2 h2 x y : R) :
  l1 <= x <= h1 -> l2 <= y <= h2 ->
  l1 * l2 <= x * y \/ l1 * h2 <= x * y \/
  h1 * l2 <= x * y \/ h1 * h2 <= x * y.
Proof.
  intros [Hx1 Hx2] [Hy1 Hy2].
  destruct (Rle_dec 0 y) as [Py | Ny].
  - destruct (Rle_dec 0 l1) as [Pl | Nl].
    + left. apply Rle_trans with (l1 * y); nra.
    + right; left. apply Rle_trans with (l1 * y); nra.
  - destruct (Rle_dec 0 h1) as [Ph | Nh].
    + right; right; left. apply Rle_trans with (h1 * y); nra.
    + right; right; right. apply Rle_trans with (h1 * y); nra.
Qed.

Lemma product_upper (l1 h1 l2 h2 x y : R) :
  l1 <= x <= h1 -> l2 <= y <= h2 ->
  x * y <= l1 * l2 \/ x * y <= l1 * h2 \/
  x * y <= h1 * l2 \/ x * y <= h1 * h2.
Proof.
  intros Hx [Hy1 Hy2].
  destruct (product_lower l1 h1 (- h2) (- l2) x (- y) Hx) as [H | [H | [H | H]]];
    [lra | | | |].
  - right; left. lra.
  - left. lra.
  - right; right; right. lra.
  - right; right; left. lra.
Qed.

Lemma min4_le (a b c d : Z) :
  (min4 a b c d <= a /\ min4 a b c d <= b /\
   min4 a b c d <= c /\ min4 a b c d <= d)%Z.
Proof. unfold min4. lia. Qed.

Lemma max4_ge (a b c d : Z) :
  (a <= max4 a b c d /\ b <= max4 a b c d /\
   c <= max4 a b c d /\ d <= max4 a b c d)%Z.
Proof. unfold max4. lia. Qed.

Lemma mul_sound (i j : itv) (x y : R) :
  contains u i x -> contains u j y -> contains u (mul u i j) (x * y).
Proof.
  unfold contains, mul. cbn [lo hi]. intros Hx Hy.
  set (a := (lo i * lo j)%Z). set (b := (lo i * hi j)%Z).
  set (c := (hi i * lo j)%Z). set (d := (hi i * hi j)%Z).
  assert (u <> 0)%Z as Hu by lia.
  pose proof unit_pos as HU.
  pose proof (fdiv_le (min4 a b c d) u Hu) as Hl.
  pose proof (cdiv_ge (max4 a b c d) u Hu) as Hh.
  destruct (min4_le a b c d) as (Ma & Mb & Mc & Md).
  destruct (max4_ge a b c d) as (Na & Nb & Nc & Nd).
  apply IZR_le in Ma, Mb, Mc, Md, Na, Nb, Nc, Nd.
  unfold a in Ma, Na. unfold b in Mb, Nb. unfold c in Mc, Nc. unfold d in Md, Nd.
  rewrite mult_IZR in Ma, Mb, Mc, Md, Na, Nb, Nc, Nd.
  set (lo4 := IZR (min4 a b c d)) in *. set (hi4 := IZR (max4 a b c d)) in *.
  assert (lo4 <= (x * IZR u) * (y * IZR u)) as Lo.
  { destruct (product_lower _ _ _ _ _ _ Hx Hy) as [H | [H | [H | H]]];
      apply Rle_trans with (2 := H); assumption. }
  assert ((x * IZR u) * (y * IZR u) <= hi4) as Up.
  { destruct (product_upper _ _ _ _ _ _ Hx Hy) as [H | [H | [H | H]]];
      apply Rle_trans with (1 := H); assumption. }
  replace (x * y * IZR u)
    with ((x * IZR u) * (y * IZR u) / IZR u) by (field; lra).
  split.
  - apply Rle_trans with (1 := Hl).
    apply Rmult_le_compat_r; [apply Rlt_le, Rinv_0_lt_compat; lra | exact Lo].
  - apply Rle_trans with (2 := Hh).
    apply Rmult_le_compat_r; [apply Rlt_le, Rinv_0_lt_compat; lra | exact Up].
Qed.

Lemma inv_bounds (l h s x : R) :
  0 < s -> 0 < l -> l <= x <= h -> s / h <= s / x <= s / l.
Proof.
  intros Hs Hl [H1 H2]. unfold Rdiv. split.
  - apply Rmult_le_compat_l; [lra |]. apply Rinv_le_contravar; lra.
  - apply Rmult_le_compat_l; [lra |]. apply Rinv_le_contravar; lra.
Qed.

Lemma inv_sound (i k : itv) (x : R) :
  inv u i = Some k -> contains u i x -> x <> 0 /\ contains u k (/ x).
Proof.
  unfold inv, contains.
  destruct ((0 <? lo i) || (hi i <? 0))%Z eqn:E; [| discriminate].
  intros [= <-] [Hl Hh]. cbn [lo hi].
  pose proof unit_pos as HU.
  assert (0 < IZR u * IZR u) as HUU by (apply Rmult_lt_0_compat; exact HU).
  assert (lo i <= hi i)%Z as Hlh by (apply le_IZR; lra).
  apply Bool.orb_true_iff in E as [P | Ng].
  - apply Z.ltb_lt in P.
    assert (hi i <> 0)%Z as H1 by lia. assert (lo i <> 0)%Z as H2 by lia.
    pose proof (fdiv_le (u * u) _ H1) as Fl.
    pose proof (cdiv_ge (u * u) _ H2) as Fh.
    rewrite mult_IZR in Fl, Fh.
    apply IZR_lt in P.
    assert (0 < x * IZR u) as Hxu by lra.
    assert (0 < x) as Hx.
    { destruct (Rlt_dec 0 x) as [L | G]; [exact L | exfalso].
      assert (x * IZR u <= 0 * IZR u) by (apply Rmult_le_compat_r; lra). lra. }
    split; [lra |].
    replace (/ x * IZR u) with (IZR u * IZR u / (x * IZR u))
      by (field; lra).
    destruct (inv_bounds (IZR (lo i)) (IZR (hi i)) (IZR u * IZR u) (x * IZR u))
      as [B1 B2]; [exact HUU | exact P | lra |]. lra.
  - apply Z.ltb_lt in Ng.
    assert (hi i <> 0)%Z as H1 by lia. assert (lo i <> 0)%Z as H2 by lia.
    pose proof (fdiv_le (u * u) _ H1) as Fl.
    pose proof (cdiv_ge (u * u) _ H2) as Fh.
    rewrite mult_IZR in Fl, Fh.
    apply IZR_lt in Ng.
    assert (x * IZR u < 0) as Hxu by lra.
    assert (x < 0) as Hx.
    { destruct (Rlt_dec x 0) as [L | G]; [exact L | exfalso].
      assert (0 * IZR u <= x * IZR u) by (apply Rmult_le_compat_r; lra). lra. }
    assert (IZR (lo i) < 0) as Hlo by lra.
    split; [lra |].
    replace (/ x * IZR u) with (- (IZR u * IZR u / (- (x * IZR u))))
      by (field; lra).
    replace (IZR u * IZR u / IZR (hi i))
      with (- (IZR u * IZR u / (- IZR (hi i)))) in Fl by (field; lra).
    replace (IZR u * IZR u / IZR (lo i))
      with (- (IZR u * IZR u / (- IZR (lo i)))) in Fh by (field; lra).
    destruct (inv_bounds (- IZR (hi i)) (- IZR (lo i)) (IZR u * IZR u) (- (x * IZR u)))
      as [B1 B2]; [exact HUU | lra | lra |]. lra.
Qed.

Lemma square_le_reg (s t : R) : 0 <= t -> s * s <= t * t -> s <= t.
Proof.
  intros Ht H. destruct (Rle_dec s t) as [L | G]; [exact L | exfalso].
  assert (t < s) as G' by lra.
  assert (t * t < s * s); [| lra].
  apply Rle_lt_trans with (t * s).
  - apply Rmult_le_compat_l; lra.
  - apply Rmult_lt_compat_r; lra.
Qed.

Lemma sqrt_itv_sound (i k : itv) (x : R) :
  sqrt_itv u i = Some k -> contains u i x -> 0 <= x /\ contains u k (sqrt x).
Proof.
  unfold sqrt_itv, contains.
  destruct (0 <=? lo i)%Z eqn:E; [| discriminate].
  intros [= <-] [Hl Hh]. cbn [lo hi].
  apply Z.leb_le in E.
  pose proof unit_pos as HU.
  assert (0 <= IZR (lo i)) as Hl0 by (now apply IZR_le).
  assert (0 <= x) as Hx.
  { destruct (Rle_dec 0 x) as [L | G]; [exact L | exfalso].
    assert (x * IZR u < 0 * IZR u) by (apply Rmult_lt_compat_r; lra). lra. }
  split; [exact Hx |].
  assert (lo i <= hi i)%Z as Hlh by (apply le_IZR; lra).
  assert (0 <= lo i * u)%Z as Zl by (apply Z.mul_nonneg_nonneg; lia).
  assert (0 <= hi i * u)%Z as Zh by (apply Z.mul_nonneg_nonneg; lia).
  destruct (Z.sqrt_spec _ Zl) as [Sl _].
  destruct (Z.sqrt_spec _ Zh) as [_ Sh].
  pose proof (Z.sqrt_nonneg (lo i * u)) as Nl.
  pose proof (Z.sqrt_nonneg (hi i * u)) as Nh.
  unfold Z.succ in Sh.
  apply IZR_le in Sl, Nl, Nh. apply IZR_lt in Sh.
  rewrite !mult_IZR in Sl, Sh. rewrite !plus_IZR in Sh. rewrite plus_IZR.
  set (sl := IZR (Z.sqrt (lo i * u))) in *.
  set (sh := IZR (Z.sqrt (hi i * u))) in *.
  set (s := sqrt x * IZR u).
  assert (0 <= s) as Hs0 by (apply Rmult_le_pos; [apply sqrt_pos | lra]).
  assert (s * s = x * IZR u * IZR u) as Hss.
  { unfold s. replace (sqrt x * IZR u * (sqrt x * IZR u))
      with (sqrt x * sqrt x * IZR u * IZR u) by ring.
    now rewrite sqrt_sqrt. }
  assert (IZR (lo i) * IZR u <= x * IZR u * IZR u) as Bl
    by (apply Rmult_le_compat_r; lra).
  assert (x * IZR u * IZR u <= IZR (hi i) * IZR u) as Bh
    by (apply Rmult_le_compat_r; lra).
  split.
  - apply square_le_reg; [exact Hs0 | lra].
  - apply square_le_reg; [lra | lra].
Qed.

Lemma power_sound (i : itv) (x : R) (n : nat) :
  contains u i x -> contains u (power u i n) (x ^ n).
Proof.
  intros Hx. induction n as [| n IH]; cbn [power pow].
  - apply (of_Z_sound 1).
  - now apply mul_sound.
Qed.

(** An expression that evaluates on intervals enclosing the cells denotes a
    real of the interval. *)
Theorem eval_sound (ienv : list itv) (env : list R) (x : expr) :
  Forall2 (contains u) ienv env ->
  forall i, eval u ienv x = Some i -> contains u i (denote env x).
Proof.
  intros Henv.
  induction x as [z | q | n | x IHx y IHy | x IHx y IHy | x IHx y IHy
                 | x IHx y IHy | x IHx n | x IHx];
    intros i; cbn [eval denote].
  - intros [= <-]. apply of_Z_sound.
  - intros [= <-]. apply of_Q_sound.
  - revert n. induction Henv as [| j r ienv env Hj Henv IH]; intros [| n] H;
      try discriminate.
    + injection H as <-. exact Hj.
    + now apply IH.
  - destruct (eval u ienv x) as [ix |], (eval u ienv y) as [iy |];
      try discriminate.
    intros [= <-]. apply add_sound; auto.
  - destruct (eval u ienv x) as [ix |], (eval u ienv y) as [iy |];
      try discriminate.
    intros [= <-]. apply sub_sound; auto.
  - destruct (eval u ienv x) as [ix |], (eval u ienv y) as [iy |];
      try discriminate.
    intros [= <-]. apply mul_sound; auto.
  - destruct (eval u ienv x) as [ix |], (eval u ienv y) as [iy |];
      try discriminate.
    destruct (inv u iy) as [k |] eqn:Ek; [| discriminate].
    intros [= <-]. unfold Rdiv. apply mul_sound; [auto |].
    apply (inv_sound iy k); auto.
  - destruct (eval u ienv x) as [ix |]; [| discriminate].
    intros [= <-]. apply power_sound; auto.
  - destruct (eval u ienv x) as [ix |]; [| discriminate].
    intros H. apply (sqrt_itv_sound ix i); auto.
Qed.

(** The intervals of a script enclose the reals of its cells. *)
Theorem eval_cells_sound (cells : list expr) :
  forall (ienv : list itv) (env : list R) (ienv' : list itv),
    Forall2 (contains u) ienv env ->
    eval_cells u ienv cells = Some ienv' ->
    Forall2 (contains u) ienv' (run env cells).
Proof.
  induction cells as [| x rest IH]; intros ienv env ienv' Henv;
    cbn [eval_cells run].
  - now intros [= <-].
  - destruct (eval u ienv x) as [i |] eqn:E; [| discriminate].
    intros H. apply (IH (ienv ++ [i])); [| exact H].
    apply Forall2_app; [exact Henv |].
    constructor; [| constructor]. now apply (eval_sound ienv).
Qed.

Lemma inside_sound (i : itv) (l h : Q) (r : R) :
  inside u i l h = true -> contains u i r -> Q2R l <= r <= Q2R h.
Proof.
  unfold inside. intros H [Cl Cu].
  apply Bool.andb_true_iff in H as [Hl Hu].
  apply Z.leb_le in Hl, Hu. apply IZR_le in Hl, Hu.
  rewrite !mult_IZR in Hl, Hu.
  pose proof unit_pos as HU.
  assert (0 < IZR (Zpos (Qden l))) as Dl by (apply IZR_lt; reflexivity).
  assert (0 < IZR (Zpos (Qden h))) as Du by (apply IZR_lt; reflexivity).
  set (dl := IZR (Zpos (Qden l))) in *. set (dh := IZR (Zpos (Qden h))) in *.
  set (U := IZR u) in *.
  assert (0 < U * dl) as Pl by (apply Rmult_lt_0_compat; assumption).
  assert (0 < U * dh) as Ph by (apply Rmult_lt_0_compat; assumption).
  unfold Q2R. fold dl dh. split.
  - apply Rmult_le_reg_r with (U * dl); [exact Pl |].
    replace (IZR (Qnum l) * / dl * (U * dl)) with (IZR (Qnum l) * U)
      by (field; lra).
    apply Rle_trans with (1 := Hl).
    replace (r * (U * dl)) with (r * U * dl) by ring.
    apply Rmult_le_compat_r; lra.
  - apply Rmult_le_reg_r with (U * dh); [exact Ph |].
    replace (IZR (Qnum h) * / dh * (U * dh)) with (IZR (Qnum h) * U)
      by (field; lra).
    apply Rle_trans with (2 := Hu).
    replace (r * (U * dh)) with (r * U * dh) by ring.
    apply Rmult_le_compat_r; lra.
Qed.
End EnclosureFacts.

(** The decimal bounds checked by [encloses] hold of the reals the script
    computes. *)
Theorem encloses_sound (cells : list Enclosure.expr)
  (bounds : list Enclosure.bound) :
  Enclosure.encloses cells bounds = true ->
  Forall (Enclosure.holds cells) bounds.
Proof.
  unfold Enclosure.encloses, Enclosure.encloses_at. intros H.
  apply Bool.andb_true_iff in H as [Hu H]. apply Z.ltb_lt in Hu.
  destruct (Enclosure.eval_cells Enclosure.unit [] cells) as [ienv |] eqn:E;
    [| discriminate].
  pose proof (eval_cells_sound _ Hu cells [] [] ienv (Forall2_nil _) E) as Henv.
  apply Forall_forall. intros b Hb.
  rewrite forallb_forall in H. specialize (H b Hb).
  unfold Enclosure.check in H.
  destruct (Enclosure.eval Enclosure.unit ienv (Enclosure.subject b))
    as [i |] eqn:Eb; [| discriminate].
  apply (inside_sound _ Hu i); [exact H |].
  now apply (eval_sound _ Hu ienv).
Qed.

Lemma encloses_holds (cells : list Enclosure.expr)
  (bounds : list Enclosure.bound) (b : Enclosure.bound) :
  Enclosure.encloses cells bounds = true -> In b bounds ->
  Enclosure.holds cells b.
Proof.
  intros H. apply Forall_forall. now apply encloses_sound.
Qed.

(** ** A run of the script on decimal inputs *)

Lemma Q2R_nonzero (q : Q) : (Qnum q =? 0)%Z = false -> Q2R q <> 0.
Proof.
  intros H. apply Z.eqb_neq in H. unfold Q2R.
  apply Rmult_integral_contrapositive_currified.
  - now apply not_0_IZR.
  - apply Rinv_neq_0_compat, not_0_IZR. discriminate.
Qed.

(** The values of the cells, written out. *)
Ltac expand_cells :=
  cbv [Sym.value Enclosure.denote Enclosure.run nth app Sym.cells
       Sym.a Sym.f Sym.X_original Sym.Y_original Sym.Z_original
       Sym.alt_offset Sym.b Sym.e Sym.e_prime Sym.tan_lam Sym.p
       Sym.tan_theta Sym.root_theta Sym.sin_theta Sym.cos_theta
       Sym.denominator Sym.tan_phi Sym.root_phi Sym.sin_phi Sym.cos_phi
       Sym.N Sym.h Sym.h_offset Sym.root_lam Sym.cos_lam Sym.sin_lam
       Sym.X_new Sym.Y_new Sym.Z_new Sym.X_back Sym.Y_back Sym.Z_back].

Section Run.
Variable i : Sym.inputs.
Variable bounds : list Enclosure.bound.
Hypothesis Hrun : run_encloses i bounds = true.

Let a := Sym.value i Sym.a.
Let f := Sym.value i Sym.f.

Lemma run_holds (b : Enclosure.bound) :
  In b bounds -> Enclosure.holds (Sym.cells i) b.
Proof.
  intros Hb. unfold run_encloses in Hrun.
  apply Bool.andb_true_iff in Hrun as [_ H].
  apply (encloses_holds _ _ b H). apply in_or_app. now right.
Qed.

(** The bound of rank [k], of the value of its subject. *)
Lemma run_bound (k : nat) (x : Enclosure.expr) (l h : Q) :
  nth_error bounds k = Some (Enclosure.Bound x l h) ->
  Q2R l <= Sym.value i x <= Q2R h.
Proof.
  intros Hk. apply nth_error_In in Hk. exact (run_holds _ Hk).
Qed.

Lemma run_guard (k : nat) (x : Enclosure.expr) (l h : Q) :
  nth_error run_guards k = Some (Enclosure.Bound x l h) ->
  Q2R l <= Sym.value i x <= Q2R h.
Proof.
  intros Hk. apply nth_error_In in Hk.
  unfold run_encloses in Hrun.
  apply Bool.andb_true_iff in Hrun as [_ H].
  apply (encloses_holds _ _ (Enclosure.Bound x l h) H).
  apply in_or_app. now left.
Qed.

Lemma run_checks :
  Sym.value i Sym.X_original <> 0 /\ 1 <= a /\ 0 < f < 1 /\
  1 <= Sym.value i Sym.denominator.
Proof.
  pose proof (run_guard 0 Sym.a 1 1000000000 eq_refl) as Ha.
  pose proof (run_guard 1 Sym.f 0.000000001 0.999999999 eq_refl) as Hf.
  pose proof (run_guard 2 Sym.denominator 1 1000000000 eq_refl) as Hd.
  unfold run_encloses in Hrun.
  apply Bool.andb_true_iff in Hrun as [HX _].
  apply Bool.negb_true_iff in HX.
  unfold a, f. repeat split; try lra.
  change (Q2R (Sym.in_X i) <> 0). now apply Q2R_nonzero.
Qed.

Lemma run_b_pos : 0 < Sym.value i Sym.b.
Proof.
  destruct run_checks as (_ & Ha & Hf & _).
  change (0 < a * (1 - f)). apply Rmult_lt_0_compat; lra.
Qed.

Lemma run_e_sqr : Sym.value i Sym.e ^ 2 = f * (2 - f).
Proof.
  destruct run_checks as (_ & Ha & Hf & _).
  change (Sym.value i Sym.e) with (sqrt (a ^ 2 - Derived.b a f ^ 2) / a).
  apply derived_e_sqr; [lra | nra].
Qed.

Lemma run_derive : deriveEllipsoidModel a f = Some (run_model i).
Proof.
  destruct run_checks as (_ & Ha & Hf & _).
  rewrite deriveEllipsoidModel_defined; [reflexivity | lra | nra | nra].
Qed.

Lemma run_denominator_eq (th : R) :
  th = degrees (atan (Sym.value i Sym.tan_theta)) ->
  phi_denominator (run_model i) (Sym.value i Sym.p) th
  = Sym.value i Sym.denominator.
Proof.
  intros ->. unfold phi_denominator. rewrite cos_deg_atan. reflexivity.
Qed.

Lemma run_ecefToLla :
  ecefToLla (run_model i) (run_point i) =
  Some (Lla.Build (degrees (atan (Sym.value i Sym.tan_phi)))
                  (degrees (atan (Sym.value i Sym.tan_lam)))
                  (Sym.value i Sym.h),
        Sym.value i Sym.N).
Proof.
  destruct run_checks as (HX & Ha & Hf & Hden).
  pose proof run_b_pos as Hb. pose proof run_e_sqr as He.
  etransitivity.
  - apply ecefToLla_defined_ecc.
    + exact HX.
    + apply Rgt_not_eq. exact Hb.
    + cbn [run_model run_point Ellipsoid.a Ellipsoid.b Ecef.X Ecef.Y Ecef.Z].
      erewrite run_denominator_eq by reflexivity. lra.
    + cbn [run_model Ellipsoid.e]. rewrite He. nra.
  - cbn [run_model run_point Ellipsoid.a Ellipsoid.b Ellipsoid.e
           Ellipsoid.e_prime Ecef.X Ecef.Y Ecef.Z].
    unfold phi_denominator.
    cbn [Ellipsoid.a Ellipsoid.b Ellipsoid.e Ellipsoid.e_prime].
    rewrite !sin_deg_atan, !cos_deg_atan.
    expand_cells. reflexivity.
Qed.

Lemma run_offsetEcef :
  offsetEcef (run_model i) (run_point i) (Sym.value i Sym.alt_offset) =
  Some (Ecef.Build (Sym.value i Sym.X_new) (Sym.value i Sym.Y_new)
                   (Sym.value i Sym.Z_new)).
Proof.
  destruct run_checks as (HX & Ha & Hf & Hden).
  unfold offsetEcef. rewrite run_ecefToLla. cbn [bind fst snd].
  rewrite llaToEcef_defined by (change (a <> 0); lra).
  unfold applyAltitudeOffset, h_offset, LlaToEcef.X_new, LlaToEcef.Y_new.
  cbn [Lla.phi Lla.lam Lla.h run_model Ellipsoid.a Ellipsoid.b].
  rewrite !sin_deg_atan, !cos_deg_atan.
  expand_cells. reflexivity.
Qed.

End Run.

(** ** The series as expressions *)

Lemma INR_fact_Zfact (n : nat) : INR (fact n) = IZR (Series.Zfact n).
Proof.
  induction n as [| n IH]; [reflexivity |].
  rewrite fact_simpl, mult_INR, IH.
  change (Series.Zfact (S n)) with (Z.of_nat (S n) * Series.Zfact n)%Z.
  now rewrite mult_IZR, <- INR_IZR_INZ.
Qed.

Section SeriesFacts.
Variable env : list R.

Lemma denote_sum (f : nat -> Enclosure.expr) (n : nat) :
  Enclosure.denote env (Series.sum f n)
  = sum_f_R0 (fun i => Enclosure.denote env (f i)) n.
Proof.
  induction n as [| n IH]; [reflexivity |].
  cbn [Series.sum Enclosure.denote sum_f_R0]. now rewrite IH.
Qed.

Lemma denote_sin_approx (a : Enclosure.expr) (n : nat) :
  Enclosure.denote env (Series.sin_approx a n)
  = sin_approx (Enclosure.denote env a) n.
Proof.
  unfold Series.sin_approx, sin_approx. rewrite denote_sum.
  apply sum_eq. intros i _. unfold Series.sin_term, sin_term.
  cbn [Enclosure.denote]. now rewrite INR_fact_Zfact.
Qed.

Lemma denote_cos_approx (a : Enclosure.expr) (n : nat) :
  Enclosure.denote env (Series.cos_approx a n)
  = cos_approx (Enclosure.denote env a) n.
Proof.
  unfold Series.cos_approx, cos_approx. rewrite denote_sum.
  apply sum_eq. intros i _. unfold Series.cos_term, cos_term.
  cbn [Enclosure.denote]. now rewrite INR_fact_Zfact.
Qed.

Lemma denote_pi_approx (n : nat) :
  Enclosure.denote env (Series.pi_approx n)
  = 4 * sum_f_R0 (tg_alt PI_2_3_7_tg) n.
Proof.
  unfold Series.pi_approx. cbn [Enclosure.denote]. rewrite denote_sum.
  f_equal. apply sum_eq. intros i _.
  unfold Series.pi_term, Series.atan_seq, tg_alt, PI_2_3_7_tg, Ratan_seq.
  cbn [Enclosure.denote]. rewrite <- INR_IZR_INZ.
  replace (1 / 3) with (/ 3) by lra. replace (1 / 7) with (/ 7) by lra.
  reflexivity.
Qed.
End SeriesFacts.

Lemma pi_bounds_checked : Enclosure.encloses [] Series.pi_bounds = true.
Proof. vm_compute. reflexivity. Qed.

Lemma PI_decimal_bounds : Q2R Series.pi_lo <= PI <= Q2R Series.pi_hi.
Proof.
  pose proof (encloses_sound _ _ pi_bounds_checked) as H.
  unfold Series.pi_bounds in H.
  apply Forall_cons_iff in H as [[Hl _] H].
  apply Forall_cons_iff in H as [[_ Hh] _].
  cbn [Enclosure.subject Enclosure.lower Enclosure.upper] in Hl, Hh.
  rewrite denote_pi_approx in Hl, Hh.
  destruct (PI_2_3_7_ineq 4) as [L _]. destruct (PI_2_3_7_ineq 5) as [_ U].
  change (S (2 * 4)) with 9%nat in L. change (2 * 5)%nat with 10%nat in U.
  lra.
Qed.

(** ** Enclosing an arctangent in degrees: the tangent test *)

Lemma radians_bound (d : R) : -90 < d < 90 -> - (PI / 2) < radians d < PI / 2.
Proof.
  intros [Hl Hu]. unfold radians. pose proof PI_RGT_0 as HP.
  assert (0 < PI / 180) as Hk by (apply Rdiv_lt_0_compat; lra).
  split.
  - replace (- (PI / 2)) with (-90 * (PI / 180)) by field.
    apply Rmult_lt_compat_r; lra.
  - replace (PI / 2) with (90 * (PI / 180)) by field.
    apply Rmult_lt_compat_r; lra.
Qed.

Lemma degrees_radians (d : R) : degrees (radians d) = d.
Proof. unfold radians, degrees. field. exact PI_neq0. Qed.

Lemma atan_nondecreasing (x y : R) : x <= y -> atan x <= atan y.
Proof.
  intros [H | ->]; [left; now apply atan_increasing | right; reflexivity].
Qed.

Lemma degrees_nondecreasing (x y : R) : x <= y -> degrees x <= degrees y.
Proof.
  intros [H | ->]; [left; now apply degrees_increasing | right; reflexivity].
Qed.

Lemma degrees_atan_ge (d x : R) :
  -90 < d < 90 -> sin_deg d <= x * cos_deg d -> d <= degrees (atan x).
Proof.
  intros Hd H. apply radians_bound in Hd as HL.
  assert (0 < cos_deg d) as Hc by (apply cos_gt_0; lra).
  rewrite <- (degrees_radians d) at 1. apply degrees_nondecreasing.
  rewrite <- (atan_tan (radians d)) by exact HL.
  apply atan_nondecreasing. unfold tan. fold (sin_deg d) (cos_deg d).
  apply Rmult_le_reg_r with (cos_deg d); [exact Hc |].
  unfold Rdiv. rewrite Rmult_assoc, Rinv_l by lra. lra.
Qed.

Lemma degrees_atan_le (d x : R) :
  -90 < d < 90 -> x * cos_deg d <= sin_deg d -> degrees (atan x) <= d.
Proof.
  intros Hd H. apply radians_bound in Hd as HL.
  assert (0 < cos_deg d) as Hc by (apply cos_gt_0; lra).
  rewrite <- (degrees_radians d) at 1. apply degrees_nondecreasing.
  rewrite <- (atan_tan (radians d)) by exact HL.
  apply atan_nondecreasing. unfold tan. fold (sin_deg d) (cos_deg d).
  apply Rmult_le_reg_r with (cos_deg d); [exact Hc |].
  unfold Rdiv. rewrite Rmult_assoc, Rinv_l by lra. lra.
Qed.

Lemma in_first_quadrant_sound (d : Q) :
  Series.in_first_quadrant d = true -> 0 <= Q2R d <= 89.
Proof.
  unfold Series.in_first_quadrant. intros H.
  apply Bool.andb_true_iff in H as [H0 H1].
  apply Qle_bool_iff, Qle_Rle in H0, H1.
  replace (Q2R 0) with 0 in H0 by (unfold Q2R; cbn; lra).
  replace (Q2R 89) with 89 in H1 by (unfold Q2R; cbn; lra).
  now split.
Qed.

Section AngleBounds.
Variable env : list R.
Variable d : Q.
Hypothesis Hd : 0 <= Q2R d <= 89.

Let lo := Enclosure.denote env (Series.radians_lo d).
Let hi := Enclosure.denote env (Series.radians_hi d).

Lemma radians_enclosed : 0 <= lo /\ lo <= radians (Q2R d) <= hi /\ hi <= PI / 2.
Proof.
  destruct PI_decimal_bounds as [Pl Ph].
  assert (0 < Q2R Series.pi_lo) as Hpl by (unfold Series.pi_lo; lra).
  assert (89 * Q2R Series.pi_hi / 180 <= Q2R Series.pi_lo / 2) as Hq
    by (unfold Series.pi_lo, Series.pi_hi; lra).
  assert (Q2R d * Q2R Series.pi_lo <= Q2R d * PI) as M1
    by (apply Rmult_le_compat_l; lra).
  assert (Q2R d * PI <= Q2R d * Q2R Series.pi_hi) as M2
    by (apply Rmult_le_compat_l; lra).
  assert (Q2R d * Q2R Series.pi_hi <= 89 * Q2R Series.pi_hi) as M3
    by (apply Rmult_le_compat_r; lra).
  assert (0 <= Q2R d * Q2R Series.pi_lo) as M0
    by (apply Rmult_le_pos; lra).
  unfold lo, hi, Series.radians_lo, Series.radians_hi, radians.
  cbn [Enclosure.denote]. repeat split; lra.
Qed.

Lemma sin_deg_enclosed :
  Enclosure.denote env (Series.sin_deg_lo d) <= sin_deg (Q2R d)
  <= Enclosure.denote env (Series.sin_deg_hi d).
Proof.
  destruct radians_enclosed as (H0 & [Hl Hh] & H2).
  pose proof PI_RGT_0 as HP. pose proof PI_4 as HP4.
  unfold Series.sin_deg_lo, Series.sin_deg_hi.
  rewrite !denote_sin_approx. fold lo hi. unfold sin_deg.
  destruct (pre_sin_bound lo 2) as [L _]; [lra | lra |].
  destruct (pre_sin_bound hi 2) as [_ U]; [lra | lra |].
  change (2 * 2 + 1)%nat with 5%nat in L.
  change (2 * (2 + 1))%nat with 6%nat in U.
  split.
  - apply Rle_trans with (1 := L). apply sin_incr_1; lra.
  - apply Rle_trans with (2 := U). apply sin_incr_1; lra.
Qed.

Lemma cos_deg_enclosed :
  Enclosure.denote env (Series.cos_deg_lo d) <= cos_deg (Q2R d)
  <= Enclosure.denote env (Series.cos_deg_hi d).
Proof.
  destruct radians_enclosed as (H0 & [Hl Hh] & H2).
  pose proof PI_RGT_0 as HP. pose proof PI_4 as HP4.
  unfold Series.cos_deg_lo, Series.cos_deg_hi.
  rewrite !denote_cos_approx. fold lo hi. unfold cos_deg.
  destruct (pre_cos_bound hi 2) as [L _]; [lra | lra |].
  destruct (pre_cos_bound lo 2) as [_ U]; [lra | lra |].
  change (2 * 2 + 1)%nat with 5%nat in L.
  change (2 * (2 + 1))%nat with 6%nat in U.
  split.
  - apply Rle_trans with (1 := L). apply cos_decr_1; lra.
  - apply Rle_trans with (2 := U). apply cos_decr_1; lra.
Qed.

Lemma above_test_sound (x : Enclosure.expr) :
  0 <= Enclosure.denote env x ->
  0 <= Enclosure.denote env (Series.above_test d x) ->
  Q2R d <= degrees (atan (Enclosure.denote env x)).
Proof.
  intros Hx Ht. unfold Series.above_test in Ht. cbn [Enclosure.denote] in Ht.
  destruct sin_deg_enclosed as [_ Hs]. destruct cos_deg_enclosed as [Hcl _].
  apply degrees_atan_ge; [lra |].
  apply Rle_trans with (1 := Hs).
  apply Rle_trans with
    (Enclosure.denote env x * Enclosure.denote env (Series.cos_deg_lo d));
    [lra |].
  apply Rmult_le_compat_l; lra.
Qed.

Lemma below_test_sound (x : Enclosure.expr) :
  0 <= Enclosure.denote env x ->
  0 <= Enclosure.denote env (Series.below_test d x) ->
  degrees (atan (Enclosure.denote env x)) <= Q2R d.
Proof.
  intros Hx Ht. unfold Series.below_test in Ht. cbn [Enclosure.denote] in Ht.
  destruct sin_deg_enclosed as [Hs _]. destruct cos_deg_enclosed as [_ Hch].
  apply degrees_atan_le; [lra |].
  apply Rle_trans with (2 := Hs).
  apply Rle_trans with
    (Enclosure.denote env x * Enclosure.denote env (Series.cos_deg_hi d));
    [| lra].
  apply Rmult_le_compat_l; lra.
Qed.
End AngleBounds.

(** The three bounds enclose the angle. *)
Lemma degrees_atan_between_sound (env : list R) (x : Enclosure.expr)
  (lo hi : Q) :
  Series.in_first_quadrant lo = true -> Series.in_first_quadrant hi = true ->
  Q2R 0 <= Enclosure.denote env x <= Q2R 1000000 ->
  Q2R 0 <= Enclosure.denote env (Series.above_test lo x) <= Q2R 1000000 ->
  Q2R 0 <= Enclosure.denote env (Series.below_test hi x) <= Q2R 1000000 ->
  Q2R lo <= degrees (atan (Enclosure.denote env x)) <= Q2R hi.
Proof.
  intros Hlo Hhi [Hx _] [Ha _] [Hb _].
  replace (Q2R 0) with 0 in Hx, Ha, Hb by (unfold Q2R; cbn; lra).
  apply in_first_quadrant_sound in Hlo, Hhi.
  split.
  - now apply above_test_sound.
  - now apply below_test_sound.
Qed.

(** ** The notebook's run on the Green Bank Telescope *)

Lemma within_bounds (tol x c : R) :
  c - tol <= x <= c + tol -> within tol x c.
Proof.
  intros [Hl Hu]. unfold within. apply Rabs_le. lra.
Qed.

Lemma gbt_checked : run_encloses gbt_run gbt_bounds = true.
Proof. vm_compute. reflexivity. Qed.

Lemma gbt_enclosures :
  38.43305 <= degrees (atan (Sym.value gbt_run Sym.tan_phi)) <= 38.43320 /\
  -79.83992 <= degrees (atan (Sym.value gbt_run Sym.tan_lam)) <= -79.83976 /\
  823.668052 <= Sym.value gbt_run Sym.h <= 823.668053 /\
  882589.295909 <= Sym.value gbt_run Sym.X_new <= 882589.295910 /\
  -4924872.406553 <= Sym.value gbt_run Sym.Y_new <= -4924872.406552 /\
  3943729.449080 <= Sym.value gbt_run Sym.Z_new <= 3943729.449081 /\
  882589.2889999 <= Sym.value gbt_run Sym.X_back <= 882589.2890001 /\
  -4924872.3680001 <= Sym.value gbt_run Sym.Y_back <= -4924872.3679999 /\
  3943729.4179999 <= Sym.value gbt_run Sym.Z_back <= 3943729.4180001.
Proof.
  pose proof (run_bound gbt_run gbt_bounds gbt_checked) as B.
  assert (38.43305 <= degrees (atan (Sym.value gbt_run Sym.tan_phi))
          <= 38.43320) as Hphi.
  { apply degrees_atan_between_sound; [reflexivity | reflexivity | | |].
    - exact (B 0%nat _ _ _ eq_refl).
    - exact (B 1%nat _ _ _ eq_refl).
    - exact (B 2%nat _ _ _ eq_refl). }
  assert (79.83976 <= degrees (atan (Sym.value gbt_run neg_tan_lam))
          <= 79.83992) as Hlam.
  { apply degrees_atan_between_sound; [reflexivity | reflexivity | | |].
    - exact (B 3%nat _ _ _ eq_refl).
    - exact (B 4%nat _ _ _ eq_refl).
    - exact (B 5%nat _ _ _ eq_refl). }
  change (Sym.value gbt_run neg_tan_lam)
    with (0 - Sym.value gbt_run Sym.tan_lam) in Hlam.
  replace (0 - Sym.value gbt_run Sym.tan_lam)
    with (- Sym.value gbt_run Sym.tan_lam) in Hlam by ring.
  rewrite atan_opp, degrees_opp in Hlam.
  split; [exact Hphi |]. split; [lra |].
  split; [exact (B 6%nat _ _ _ eq_refl) |].
  split; [exact (B 7%nat _ _ _ eq_refl) |].
  split; [exact (B 8%nat _ _ _ eq_refl) |].
  split; [exact (B 9%nat _ _ _ eq_refl) |].
  split; [exact (B 10%nat _ _ _ eq_refl) |].
  split; [exact (B 11%nat _ _ _ eq_refl) |].
  exact (B 12%nat _ _ _ eq_refl).
Qed.

(** C4: on the Green Bank input with the GRS80 constants the conversion
    returns a latitude of 38.43312964 degrees, a longitude of -79.83984263
    degrees and an altitude of 823.66805 m, each within 1e-4. *)
Theorem gbt_known_value :
  exists (m : Ellipsoid.model) (lla : Lla.point) (Nv : R),
    deriveEllipsoidModel 6378137.0 0.0033528106811836376 = Some m /\
    ecefToLla m gbt = Some (lla, Nv) /\
    within 1e-4 (Lla.phi lla) 38.43312964 /\
    within 1e-4 (Lla.lam lla) (-79.83984263) /\
    within 1e-4 (Lla.h lla) 823.66805.
Proof.
  eexists. eexists. eexists.
  split; [exact (run_derive gbt_run gbt_bounds gbt_checked) |].
  split; [exact (run_ecefToLla gbt_run gbt_bounds gbt_checked) |].
  cbn [Lla.phi Lla.lam Lla.h].
  destruct gbt_enclosures as (Hphi & Hlam & Hh & _).
  repeat split; apply within_bounds; lra.
Qed.

(** C5, the claim refuted: with the offset of 0.05 m no component of the
    difference from the original point is anywhere near
    (10.36, -57.83, 46.62). *)
Lemma gbt_offset_difference_is_small :
  exists (m : Ellipsoid.model) (q : Ecef.point),
    deriveEllipsoidModel 6378137.0 0.0033528106811836376 = Some m /\
    offsetEcef m gbt alt_offset = Some q /\
    10 < Rabs (Ecef.X (diff q gbt) - 10.36) /\
    57 < Rabs (Ecef.Y (diff q gbt) - -57.83) /\
    46 < Rabs (Ecef.Z (diff q gbt) - 46.62).
Proof.
  eexists. eexists.
  split; [exact (run_derive gbt_run gbt_bounds gbt_checked) |].
  split; [exact (run_offsetEcef gbt_run gbt_bounds gbt_checked) |].
  destruct gbt_enclosures as (_ & _ & _ & HX & HY & HZ & _).
  unfold diff, gbt, X_original, Y_original, Z_original.
  cbn [Ecef.X Ecef.Y Ecef.Z].
  repeat split.
  - rewrite Rabs_left; lra.
  - rewrite Rabs_right; lra.
  - rewrite Rabs_left; lra.
Qed.

(** C5, as the script has it: with the offset of 0.05 m the point converted
    back is (882589.29591, -4924872.40655, 3943729.44908) within 1e-3 m, and
    its difference from the original point is
    (0.00691, -0.03855, 0.03108) m within 1e-5 m. *)
Theorem gbt_offset_scenario :
  exists (m : Ellipsoid.model) (q : Ecef.point),
    deriveEllipsoidModel 6378137.0 0.0033528106811836376 = Some m /\
    offsetEcef m gbt alt_offset = Some q /\
    within 1e-3 (Ecef.X q) 882589.29591 /\
    within 1e-3 (Ecef.Y q) (-4924872.40655) /\
    within 1e-3 (Ecef.Z q) 3943729.44908 /\
    within 1e-5 (Ecef.X (diff q gbt)) 0.00691 /\
    within 1e-5 (Ecef.Y (diff q gbt)) (-0.03855) /\
    within 1e-5 (Ecef.Z (diff q gbt)) 0.03108.
Proof.
  eexists. eexists.
  split; [exact (run_derive gbt_run gbt_bounds gbt_checked) |].
  split; [exact (run_offsetEcef gbt_run gbt_bounds gbt_checked) |].
  destruct gbt_enclosures as (_ & _ & _ & HX & HY & HZ & _).
  unfold diff, gbt, X_original, Y_original, Z_original.
  cbn [Ecef.X Ecef.Y Ecef.Z].
  repeat split; apply within_bounds; lra.
Qed.
(** ** The round trip *)

Lemma h_offset_0 (h : R) : h_offset h 0 = h.
Proof. unfold h_offset. apply Rplus_0_r. Qed.

Lemma offsetEcef_0 (m : Ellipsoid.model) (pt : Ecef.point) :
  offsetEcef m pt 0 = roundTrip m pt.
Proof.
  unfold offsetEcef, roundTrip.
  destruct (ecefToLla m pt) as [[[phi lam h] Nv] |]; [| reflexivity].
  cbn [bind fst snd]. unfold applyAltitudeOffset.
  cbn [Lla.phi Lla.lam Lla.h]. now rewrite h_offset_0.
Qed.

Lemma sqrt_unique (v w : R) : 0 <= v -> v * v = w -> sqrt w = v.
Proof. intros Hv <-. now apply sqrt_square. Qed.

(** The distance to the polar axis seen from the longitude cell. *)
Lemma sqrt_1_plus_ratio (X Y : R) :
  X <> 0 -> sqrt (1 + (Y / X)²) = sqrt (X ^ 2 + Y ^ 2) / Rabs X.
Proof.
  intros HX.
  assert (0 < Rabs X) as HA by (now apply Rabs_pos_lt).
  assert (0 <= X ^ 2 + Y ^ 2) as Hp by nra.
  apply sqrt_unique.
  - apply Rmult_le_pos; [apply sqrt_pos | apply Rlt_le, Rinv_0_lt_compat, HA].
  - replace (sqrt (X ^ 2 + Y ^ 2) / Rabs X * (sqrt (X ^ 2 + Y ^ 2) / Rabs X))
      with (sqrt (X ^ 2 + Y ^ 2) * sqrt (X ^ 2 + Y ^ 2) / (Rabs X * Rabs X))
      by (field; lra).
    rewrite sqrt_sqrt by exact Hp.
    replace (Rabs X * Rabs X) with (X * X)
      by (rewrite <- Rabs_mult; symmetry; apply Rabs_right; nra).
    unfold Rsqr. field. exact HX.
Qed.

Section RoundTrip.
Variable m : Ellipsoid.model.
Variable pt : Ecef.point.

Let a := Ellipsoid.a m.
Let b := Ellipsoid.b m.
Let e := Ellipsoid.e m.
Let e_prime := Ellipsoid.e_prime m.
Let X := Ecef.X pt.
Let Y := Ecef.Y pt.
Let Z := Ecef.Z pt.
Let p := sqrt (X ^ 2 + Y ^ 2).
Let theta := degrees (atan (Z * a / (p * b))).
Let phi :=
  degrees (atan ((Z + e_prime ^ 2 * b * (sin_deg theta ^ 3))
                 / phi_denominator m p theta)).
Let N := a / sqrt (1 - e ^ 2 * (sin_deg phi ^ 2)).

Hypothesis HX : X <> 0.
Hypothesis Ha : a <> 0.
Hypothesis Hb : b <> 0.
Hypothesis He : e ^ 2 < 1.
Hypothesis Hden : phi_denominator m p theta <> 0.

(** Back in ECEF the distance to the polar axis is the original one, the
    longitude being the one of [atan (Y / X)]. *)
Lemma roundTrip_value :
  roundTrip m pt =
  Some (Ecef.Build
          (p * cos_deg (degrees (atan (Y / X))))
          (p * sin_deg (degrees (atan (Y / X))))
          ((b ^ 2 / a ^ 2 * N + (p / cos_deg phi - N)) * sin_deg phi)).
Proof.
  unfold roundTrip.
  rewrite (ecefToLla_defined_ecc m pt HX Hb Hden He).
  cbn [bind fst snd].
  rewrite (llaToEcef_defined _ _ _ Ha).
  cbn [Lla.phi Lla.lam Lla.h].
  unfold LlaToEcef.X_new, LlaToEcef.Y_new.
  fold a b e e_prime X Y Z. fold p. fold theta. fold phi. fold N.
  assert (cos_deg phi <> 0) as Hc by (apply Rgt_not_eq, cos_deg_atan_pos).
  f_equal. f_equal; field; exact Hc.
Qed.

Lemma roundTrip_X_Y :
  exists q : Ecef.point,
    roundTrip m pt = Some q /\
    Ecef.X q = Rabs X /\
    Ecef.Y q = Y * (Rabs X / X).
Proof.
  eexists. split; [exact roundTrip_value |].
  cbn [Ecef.X Ecef.Y].
  rewrite sin_deg_atan, cos_deg_atan, (sqrt_1_plus_ratio X Y HX). fold p.
  assert (0 < p) as Hp by (apply sqrt_lt_R0; fold X Y in HX; nra).
  assert (0 < Rabs X) as HA by (now apply Rabs_pos_lt).
  split; field; repeat split; lra.
Qed.
End RoundTrip.

(** ** Points of the reference ellipsoid: the closed formulas are exact *)

Section OnEllipsoid.
Variables a b e e_prime p Z : R.
Hypothesis Ha : 0 < a.
Hypothesis Hb : 0 < b.
Hypothesis Hp : 0 < p.
Hypothesis He : e ^ 2 = 1 - b ^ 2 / a ^ 2.
Hypothesis He' : e_prime ^ 2 = (a ^ 2 - b ^ 2) / b ^ 2.
Hypothesis Hon : p ^ 2 / a ^ 2 + Z ^ 2 / b ^ 2 = 1.

Let t := Z * a / (p * b).
Let u := Z * a ^ 2 / (p * b ^ 2).

Lemma on_ellipsoid_Z_sqr : Z ^ 2 = b ^ 2 * (1 - p ^ 2 / a ^ 2).
Proof.
  replace (Z ^ 2) with (b ^ 2 * (Z ^ 2 / b ^ 2)) by (field; lra).
  replace (Z ^ 2 / b ^ 2) with (1 - p ^ 2 / a ^ 2) by lra. reflexivity.
Qed.

Lemma on_ellipsoid_p_le_a : p ^ 2 / a ^ 2 <= 1.
Proof.
  assert (0 <= Z ^ 2 / b ^ 2); [| lra].
  apply Rmult_le_pos; [nra |].
  apply Rlt_le, Rinv_0_lt_compat. nra.
Qed.

Lemma on_ellipsoid_ecc : e ^ 2 < 1.
Proof.
  assert (0 < b ^ 2 / a ^ 2); [| lra].
  apply Rdiv_lt_0_compat; nra.
Qed.

Lemma on_ellipsoid_sqrt_theta : sqrt (1 + t²) = a / p.
Proof.
  apply sqrt_unique.
  - apply Rlt_le, Rdiv_lt_0_compat; assumption.
  - unfold Rsqr, t.
    replace (Z * a / (p * b) * (Z * a / (p * b)))
      with (Z ^ 2 * (a ^ 2 / (p ^ 2 * b ^ 2))) by (field; lra).
    rewrite on_ellipsoid_Z_sqr. field. repeat split; lra.
Qed.

Lemma on_ellipsoid_denominator :
  p - e ^ 2 * a * ((1 / sqrt (1 + t²)) ^ 3)
  = p * (1 - e ^ 2 * (p ^ 2 / a ^ 2)).
Proof.
  rewrite on_ellipsoid_sqrt_theta. field. lra.
Qed.

Lemma on_ellipsoid_denominator_pos :
  0 < p - e ^ 2 * a * ((1 / sqrt (1 + t²)) ^ 3).
Proof.
  rewrite on_ellipsoid_denominator.
  apply Rmult_lt_0_compat; [exact Hp |].
  pose proof on_ellipsoid_p_le_a as H1. pose proof on_ellipsoid_ecc as H2.
  assert (0 <= p ^ 2 / a ^ 2)
    by (apply Rmult_le_pos; [nra | apply Rlt_le, Rinv_0_lt_compat; nra]).
  assert (0 <= e ^ 2) by nra.
  nra.
Qed.

(** The tangent of the latitude is the exact one, [Z a^2 / (p b^2)]. *)
Lemma on_ellipsoid_tan_phi :
  (Z + e_prime ^ 2 * b * ((t / sqrt (1 + t²)) ^ 3))
  / (p - e ^ 2 * a * ((1 / sqrt (1 + t²)) ^ 3)) = u.
Proof.
  pose proof on_ellipsoid_denominator_pos as Hd.
  apply Rmult_eq_reg_r with (p - e ^ 2 * a * ((1 / sqrt (1 + t²)) ^ 3));
    [| lra].
  unfold Rdiv at 1. rewrite Rmult_assoc, Rinv_l, Rmult_1_r by lra.
  rewrite on_ellipsoid_sqrt_theta. unfold t, u.
  replace ((Z * a / (p * b) / (a / p)) ^ 3) with (Z * Z ^ 2 / b ^ 3)
    by (field; repeat split; lra).
  replace ((1 / (a / p)) ^ 3) with (p ^ 3 / a ^ 3) by (field; split; lra).
  rewrite He, He', on_ellipsoid_Z_sqr. field. repeat split; lra.
Qed.

Let v := sqrt (1 + u²).

Lemma on_ellipsoid_v_pos : 0 < v.
Proof. apply sqrt_1_plus_sqr_pos. Qed.

Lemma on_ellipsoid_v_sqr : v * v = 1 + u * u.
Proof.
  unfold v. rewrite sqrt_sqrt; [reflexivity |].
  pose proof (Rle_0_sqr u). unfold Rsqr in *. lra.
Qed.

Lemma on_ellipsoid_sqrt_phi :
  sqrt (1 - e ^ 2 * ((u / v) ^ 2)) = a / (p * v).
Proof.
  pose proof on_ellipsoid_v_pos as Hv. pose proof on_ellipsoid_v_sqr as Hvv.
  apply sqrt_unique.
  - apply Rlt_le, Rdiv_lt_0_compat; [lra | now apply Rmult_lt_0_compat].
  - replace (1 - e ^ 2 * (u / v) ^ 2)
      with ((v * v - e ^ 2 * (u * u)) / (v * v)) by (field; lra).
    rewrite Hvv, He.
    replace (a / (p * v) * (a / (p * v))) with (a ^ 2 / p ^ 2 / (v * v))
      by (field; split; lra).
    rewrite Hvv. f_equal. unfold u.
    replace (Z * a ^ 2 / (p * b ^ 2) * (Z * a ^ 2 / (p * b ^ 2)))
      with (Z ^ 2 * (a ^ 4 / (p ^ 2 * b ^ 4))) by (field; split; lra).
    rewrite on_ellipsoid_Z_sqr. field. repeat split; lra.
Qed.

(** The radius of curvature is the one that puts the altitude at zero. *)
Lemma on_ellipsoid_N : a / sqrt (1 - e ^ 2 * ((u / v) ^ 2)) = p * v.
Proof.
  pose proof on_ellipsoid_v_pos as Hv.
  rewrite on_ellipsoid_sqrt_phi. field. repeat split; lra.
Qed.

Lemma on_ellipsoid_h : p / (1 / v) - a / sqrt (1 - e ^ 2 * ((u / v) ^ 2)) = 0.
Proof.
  pose proof on_ellipsoid_v_pos as Hv.
  rewrite on_ellipsoid_N. field. lra.
Qed.

End OnEllipsoid.

Lemma derived_model_facts (a f : R) (m : Ellipsoid.model) :
  deriveEllipsoidModel a f = Some m -> 0 < a -> 0 < f < 1 ->
  Ellipsoid.a m = a /\ 0 < Ellipsoid.b m /\
  Ellipsoid.e m ^ 2 = 1 - Ellipsoid.b m ^ 2 / Ellipsoid.a m ^ 2 /\
  Ellipsoid.e_prime m ^ 2
  = (Ellipsoid.a m ^ 2 - Ellipsoid.b m ^ 2) / Ellipsoid.b m ^ 2.
Proof.
  intros H Ha [Hf0 Hf1].
  assert (a <> 0) as Hna by lra.
  assert (0 <= f * (2 - f)) as Hk0 by nra.
  assert (f * (2 - f) < 1) as Hk1 by nra.
  rewrite (deriveEllipsoidModel_defined a f Hna Hk0 Hk1) in H.
  set (e := sqrt (a ^ 2 - Derived.b a f ^ 2) / a) in *.
  assert (m = Ellipsoid.Build a (Derived.b a f) e (e / sqrt (1 - e ^ 2)))
    as -> by (injection H as <-; reflexivity).
  cbn [Ellipsoid.a Ellipsoid.b Ellipsoid.e Ellipsoid.e_prime].
  assert (e ^ 2 = f * (2 - f)) as He2 by (apply derived_e_sqr; assumption).
  assert (0 < sqrt (1 - e ^ 2)) as Hs by (apply sqrt_lt_R0; lra).
  assert (sqrt (1 - e ^ 2) * sqrt (1 - e ^ 2) = 1 - e ^ 2) as Hss
    by (apply sqrt_sqrt; lra).
  split; [reflexivity |]. split; [unfold Derived.b; nra |]. split.
  - rewrite He2. unfold Derived.b. field. lra.
  - replace ((e / sqrt (1 - e ^ 2)) ^ 2)
      with (e ^ 2 / (sqrt (1 - e ^ 2) * sqrt (1 - e ^ 2))) by (field; lra).
    rewrite Hss, He2. unfold Derived.b. field. split; lra.
Qed.

Section RoundTripOnEllipsoid.
Variable m : Ellipsoid.model.
Variable pt : Ecef.point.

Let a := Ellipsoid.a m.
Let b := Ellipsoid.b m.
Let e := Ellipsoid.e m.
Let e_prime := Ellipsoid.e_prime m.
Let X := Ecef.X pt.
Let Y := Ecef.Y pt.
Let Z := Ecef.Z pt.
Let p := sqrt (X ^ 2 + Y ^ 2).
Let theta := degrees (atan (Z * a / (p * b))).
Let u := Z * a ^ 2 / (p * b ^ 2).

Hypothesis HX : X <> 0.
Hypothesis Ha : 0 < a.
Hypothesis Hb : 0 < b.
Hypothesis He : e ^ 2 = 1 - b ^ 2 / a ^ 2.
Hypothesis He' : e_prime ^ 2 = (a ^ 2 - b ^ 2) / b ^ 2.
Hypothesis Hon : on_ellipsoid m pt.

Lemma surface_p_pos : 0 < p.
Proof. apply sqrt_lt_R0. fold X Y in HX. nra. Qed.

Lemma surface_relation : p ^ 2 / a ^ 2 + Z ^ 2 / b ^ 2 = 1.
Proof.
  unfold on_ellipsoid in Hon. fold a b X Y Z in Hon.
  replace (p ^ 2) with (X ^ 2 + Y ^ 2); [exact Hon |].
  unfold p. rewrite <- (sqrt_sqrt (X ^ 2 + Y ^ 2)) at 1 by nra. ring.
Qed.

Lemma surface_denominator_pos : 0 < phi_denominator m p theta.
Proof.
  unfold phi_denominator, theta. fold a e. rewrite cos_deg_atan.
  exact (on_ellipsoid_denominator_pos a b e p Z Ha Hb surface_p_pos He
           surface_relation).
Qed.

Lemma surface_tan_phi :
  (Z + e_prime ^ 2 * b * (sin_deg theta ^ 3)) / phi_denominator m p theta = u.
Proof.
  unfold phi_denominator, theta. fold a e.
  rewrite sin_deg_atan, cos_deg_atan.
  exact (on_ellipsoid_tan_phi a b e e_prime p Z Ha Hb surface_p_pos He He'
           surface_relation).
Qed.

Lemma surface_ecc : e ^ 2 < 1.
Proof. exact (on_ellipsoid_ecc a b e Ha Hb He). Qed.

(** On the ellipsoid the conversion returns the exact geodetic latitude,
    of tangent [Z a^2 / (p b^2)], and the altitude zero. *)
Lemma surface_ecefToLla :
  ecefToLla m pt =
  Some (Lla.Build (degrees (atan u)) (degrees (atan (Y / X))) 0,
        p * sqrt (1 + u²)).
Proof.
  rewrite (ecefToLla_defined_ecc m pt HX (Rgt_not_eq _ _ Hb)
             (Rgt_not_eq _ _ surface_denominator_pos) surface_ecc).
  fold a b e e_prime X Y Z. fold p. fold theta.
  rewrite surface_tan_phi.
  rewrite sin_deg_atan, cos_deg_atan. unfold u.
  rewrite (on_ellipsoid_h a b e p Z Ha Hb surface_p_pos He surface_relation).
  rewrite (on_ellipsoid_N a b e p Z Ha Hb surface_p_pos He surface_relation).
  reflexivity.
Qed.

End RoundTripOnEllipsoid.


(** ** The round trip on the scenarios *)






(** ** The theorems at concrete inputs *)

Lemma derived_model_invariant_witness :
  0 < Grs80.a /\ 0 < Grs80.f < 1 /\
  exists m : Ellipsoid.model,
    deriveEllipsoidModel Grs80.a Grs80.f = Some m /\
    Ellipsoid.a m = Grs80.a /\
    Ellipsoid.b m = Grs80.a * (1 - Grs80.f) /\
    Ellipsoid.e m = sqrt (Grs80.a ^ 2 - Ellipsoid.b m ^ 2) / Grs80.a /\
    Ellipsoid.e_prime m = Ellipsoid.e m / sqrt (1 - Ellipsoid.e m ^ 2) /\
    0 < Ellipsoid.b m < Ellipsoid.a m /\
    0 <= Ellipsoid.e m < 1 /\
    Ellipsoid.e m < Ellipsoid.e_prime m.
Proof.
  assert (0 < Grs80.a) as Ha by (unfold Grs80.a; lra).
  assert (0 < Grs80.f < 1) as Hf by (unfold Grs80.f; lra).
  split; [exact Ha |]. split; [exact Hf |].
  exact (derived_model_invariant Grs80.a Grs80.f Ha Hf).
Defined.


Lemma ecefToLla_angles_in_open_quadrants_witness :
  ecefToLla (run_model gbt_run) gbt =
  Some (Lla.Build
          (degrees (atan (Sym.value gbt_run Sym.tan_phi)))
          (degrees (atan (Sym.value gbt_run Sym.tan_lam)))
          (Sym.value gbt_run Sym.h),
        Sym.value gbt_run Sym.N) /\
  -90 < degrees (atan (Sym.value gbt_run Sym.tan_lam)) < 90 /\
  -90 < degrees (atan (Sym.value gbt_run Sym.tan_phi)) < 90.
Proof.
  split; [exact (run_ecefToLla gbt_run gbt_bounds gbt_checked) |].
  exact (ecefToLla_angles_in_open_quadrants (run_model gbt_run) gbt _ _
           (run_ecefToLla gbt_run gbt_bounds gbt_checked)).
Defined.

Lemma gbt_denominator_nonzero :
  phi_denominator (run_model gbt_run)
    (sqrt (Ecef.X gbt ^ 2 + Ecef.Y gbt ^ 2))
    (degrees (atan (Ecef.Z gbt * Ellipsoid.a (run_model gbt_run)
                    / (sqrt (Ecef.X gbt ^ 2 + Ecef.Y gbt ^ 2)
                       * Ellipsoid.b (run_model gbt_run))))) <> 0.
Proof.
  destruct (run_checks gbt_run gbt_bounds gbt_checked) as (_ & _ & _ & Hden).
  rewrite (run_denominator_eq gbt_run) by reflexivity. lra.
Qed.


(** * Further properties of the cells *)

(** ** When the conversion is defined *)

(** With a nonzero semi-minor axis and a first eccentricity below one, the
    conversion is defined exactly when [X] and the latitude denominator are
    not zero. *)
Theorem ecefToLla_defined_iff (m : Ellipsoid.model) (pt : Ecef.point) :
  Ellipsoid.b m <> 0 -> Ellipsoid.e m ^ 2 < 1 ->
  (ecefToLla m pt <> None <->
   Ecef.X pt <> 0 /\
   phi_denominator m (sqrt (Ecef.X pt ^ 2 + Ecef.Y pt ^ 2))
     (degrees (atan (Ecef.Z pt * Ellipsoid.a m
                     / (sqrt (Ecef.X pt ^ 2 + Ecef.Y pt ^ 2) * Ellipsoid.b m))))
   <> 0).
Proof.
  intros Hb He. split.
  - intros H. destruct (ecefToLla m pt) as [[lla Nv] |] eqn:E; [| now elim H].
    apply ecefToLla_inv in E as (HX & _ & Hden & _). now split.
  - intros [HX Hden].
    rewrite (ecefToLla_defined_ecc m pt HX Hb Hden He). discriminate.
Qed.

Lemma ecefToLla_defined_iff_witness :
  Ellipsoid.b (run_model gbt_run) <> 0 /\
  Ellipsoid.e (run_model gbt_run) ^ 2 < 1 /\
  (ecefToLla (run_model gbt_run) gbt <> None <->
   Ecef.X gbt <> 0 /\
   phi_denominator (run_model gbt_run)
     (sqrt (Ecef.X gbt ^ 2 + Ecef.Y gbt ^ 2))
     (degrees (atan (Ecef.Z gbt * Ellipsoid.a (run_model gbt_run)
                     / (sqrt (Ecef.X gbt ^ 2 + Ecef.Y gbt ^ 2)
                        * Ellipsoid.b (run_model gbt_run)))))
   <> 0).
Proof.
  assert (Ellipsoid.b (run_model gbt_run) <> 0) as Hb
    by (apply Rgt_not_eq; exact (run_b_pos gbt_run gbt_bounds gbt_checked)).
  assert (Ellipsoid.e (run_model gbt_run) ^ 2 < 1) as He.
  { cbn [run_model Ellipsoid.e].
    rewrite (run_e_sqr gbt_run gbt_bounds gbt_checked).
    destruct (run_checks gbt_run gbt_bounds gbt_checked) as (_ & _ & Hf & _).
    nra. }
  split; [exact Hb |]. split; [exact He |].
  exact (ecefToLla_defined_iff (run_model gbt_run) gbt Hb He).
Defined.

(** ** The longitude cell *)

(** The longitude cell sees the quotient [Y / X] only: scaling [X] and [Y]
    by the same nonzero factor, negative ones included, changes nothing, so
    a point and its opposite across the polar axis get the same longitude. *)
Theorem lam_scale (X Y k : R) :
  k <> 0 -> EcefToLla.lam (k * X) (k * Y) = EcefToLla.lam X Y.
Proof.
  intros Hk. destruct (Req_dec X 0) as [-> | HX].
  - rewrite Rmult_0_r. unfold EcefToLla.lam. now rewrite !quot_zero.
  - rewrite !lam_defined;
      [| exact HX | now apply Rmult_integral_contrapositive_currified].
    do 3 f_equal. field. now split.
Qed.

Lemma lam_scale_witness :
  -1 <> 0 /\ EcefToLla.lam (-1 * X_original) (-1 * Y_original)
             = EcefToLla.lam X_original Y_original.
Proof.
  assert (-1 <> 0) as Hk by lra.
  split; [exact Hk |]. exact (lam_scale X_original Y_original (-1) Hk).
Defined.

(** ** Symmetry in the equatorial plane *)

Lemma sin_deg_opp (d : R) : sin_deg (- d) = - sin_deg d.
Proof.
  unfold sin_deg, radians. rewrite <- sin_neg. f_equal. ring.
Qed.

Lemma cos_deg_opp (d : R) : cos_deg (- d) = cos_deg d.
Proof.
  unfold cos_deg, radians. rewrite <- cos_neg. f_equal. ring.
Qed.

Lemma sin_deg_0 : sin_deg 0 = 0.
Proof. unfold sin_deg, radians. rewrite Rmult_0_l. exact sin_0. Qed.

Lemma cos_deg_0 : cos_deg 0 = 1.
Proof. unfold cos_deg, radians. rewrite Rmult_0_l. exact cos_0. Qed.

Section Mirror.
Variable m : Ellipsoid.model.
Variable pt : Ecef.point.

Let a := Ellipsoid.a m.
Let b := Ellipsoid.b m.
Let e := Ellipsoid.e m.
Let e_prime := Ellipsoid.e_prime m.
Let X := Ecef.X pt.
Let Y := Ecef.Y pt.
Let Z := Ecef.Z pt.
Let p := sqrt (X ^ 2 + Y ^ 2).
Let theta := degrees (atan (Z * a / (p * b))).
Let tan_phi :=
  (Z + e_prime ^ 2 * b * (sin_deg theta ^ 3)) / phi_denominator m p theta.

Hypothesis Hpb : p * b <> 0.
Hypothesis Hden : phi_denominator m p theta <> 0.

Lemma mirror_theta : degrees (atan (- Z * a / (p * b))) = - theta.
Proof.
  unfold theta. rewrite <- degrees_opp, <- atan_opp. do 2 f_equal.
  field. split; intros E; apply Hpb; rewrite E; ring.
Qed.

Lemma mirror_denominator :
  phi_denominator m p (- theta) = phi_denominator m p theta.
Proof. unfold phi_denominator. now rewrite cos_deg_opp. Qed.

Lemma mirror_tan_phi :
  (- Z + e_prime ^ 2 * b * (sin_deg (- theta) ^ 3))
  / phi_denominator m p (- theta) = - tan_phi.
Proof.
  rewrite mirror_denominator, sin_deg_opp. unfold tan_phi. field. exact Hden.
Qed.
End Mirror.

(** Mirroring the point in the equatorial plane changes the sign of the
    latitude and nothing else: same longitude, same altitude, same radius
    of curvature. *)
Theorem ecefToLla_mirror
  (m : Ellipsoid.model) (pt : Ecef.point) (lla : Lla.point) (Nv : R) :
  ecefToLla m pt = Some (lla, Nv) ->
  ecefToLla m (mirror pt) =
  Some (Lla.Build (- Lla.phi lla) (Lla.lam lla) (Lla.h lla), Nv).
Proof.
  intros H.
  apply ecefToLla_inv in H as (HX & Hpb & Hden & Hs & Hs0 & -> & ->).
  cbn [Lla.phi Lla.lam Lla.h].
  assert (Ellipsoid.b m <> 0) as Hb.
  { intros E. apply Hpb. rewrite E. apply Rmult_0_r. }
  assert (forall x : R, (- x) ^ 2 = x ^ 2) as Hsq by (intros x; ring).
  rewrite ecefToLla_defined; unfold mirror; cbn [Ecef.X Ecef.Y Ecef.Z];
    rewrite ?(mirror_theta m pt Hpb), ?(mirror_tan_phi m pt Hden),
      ?(mirror_denominator m pt), ?atan_opp, ?degrees_opp, ?sin_deg_opp,
      ?cos_deg_opp, ?Hsq.
  - reflexivity.
  - exact HX.
  - exact Hb.
  - exact Hden.
  - destruct Hs as [Hs | Hs]; [exact Hs |].
    exfalso. apply Hs0. rewrite <- Hs. exact sqrt_0.
Qed.

Lemma ecefToLla_mirror_witness :
  ecefToLla (run_model gbt_run) gbt =
  Some (Lla.Build (degrees (atan (Sym.value gbt_run Sym.tan_phi)))
                  (degrees (atan (Sym.value gbt_run Sym.tan_lam)))
                  (Sym.value gbt_run Sym.h),
        Sym.value gbt_run Sym.N) /\
  ecefToLla (run_model gbt_run) (mirror gbt) =
  Some (Lla.Build (- degrees (atan (Sym.value gbt_run Sym.tan_phi)))
                  (degrees (atan (Sym.value gbt_run Sym.tan_lam)))
                  (Sym.value gbt_run Sym.h),
        Sym.value gbt_run Sym.N).
Proof.
  split; [exact (run_ecefToLla gbt_run gbt_bounds gbt_checked) |].
  exact (ecefToLla_mirror (run_model gbt_run) gbt _ _
           (run_ecefToLla gbt_run gbt_bounds gbt_checked)).
Defined.

(** ** The equatorial plane *)

(** On the equatorial plane ([Z = 0]) the latitude is zero, the radius of
    curvature is the semi-major axis and the altitude is the distance to the
    polar axis minus the semi-major axis. *)
Theorem ecefToLla_equator (m : Ellipsoid.model) (X Y : R) :
  X <> 0 -> Ellipsoid.b m <> 0 ->
  sqrt (X ^ 2 + Y ^ 2) - Ellipsoid.e m ^ 2 * Ellipsoid.a m <> 0 ->
  ecefToLla m (Ecef.Build X Y 0) =
  Some (Lla.Build 0 (degrees (atan (Y / X)))
                  (sqrt (X ^ 2 + Y ^ 2) - Ellipsoid.a m),
        Ellipsoid.a m).
Proof.
  intros HX Hb Hden.
  assert (0 < sqrt (X ^ 2 + Y ^ 2)) as Hp by (apply sqrt_lt_R0; nra).
  assert (degrees (atan (0 * Ellipsoid.a m
                         / (sqrt (X ^ 2 + Y ^ 2) * Ellipsoid.b m))) = 0) as Hth.
  { replace (0 * Ellipsoid.a m / (sqrt (X ^ 2 + Y ^ 2) * Ellipsoid.b m))
      with 0 by (field; split; lra).
    now rewrite atan_0, degrees_0. }
  assert (phi_denominator m (sqrt (X ^ 2 + Y ^ 2)) 0
          = sqrt (X ^ 2 + Y ^ 2) - Ellipsoid.e m ^ 2 * Ellipsoid.a m) as Hd.
  { unfold phi_denominator. rewrite cos_deg_0. ring. }
  assert (degrees (atan ((0 + Ellipsoid.e_prime m ^ 2 * Ellipsoid.b m
                              * sin_deg 0 ^ 3)
                         / phi_denominator m (sqrt (X ^ 2 + Y ^ 2)) 0)) = 0)
    as Hphi.
  { rewrite sin_deg_0.
    replace ((0 + Ellipsoid.e_prime m ^ 2 * Ellipsoid.b m * 0 ^ 3)
             / phi_denominator m (sqrt (X ^ 2 + Y ^ 2)) 0)
      with 0 by (field; rewrite Hd; exact Hden).
    now rewrite atan_0, degrees_0. }
  rewrite ecefToLla_defined; cbn [Ecef.X Ecef.Y Ecef.Z];
    rewrite ?Hth, ?Hphi, ?sin_deg_0, ?cos_deg_0.
  - replace (1 - Ellipsoid.e m ^ 2 * 0 ^ 2) with 1 by ring.
    rewrite sqrt_1. f_equal. f_equal; [f_equal |]; field.
  - exact HX.
  - exact Hb.
  - rewrite Hd. exact Hden.
  - lra.
Qed.

Lemma ecefToLla_equator_witness :
  Grs80.a <> 0 /\ Ellipsoid.b (run_model gbt_run) <> 0 /\
  sqrt (Grs80.a ^ 2 + 0 ^ 2)
  - Ellipsoid.e (run_model gbt_run) ^ 2 * Ellipsoid.a (run_model gbt_run)
  <> 0 /\
  ecefToLla (run_model gbt_run) (Ecef.Build Grs80.a 0 0) =
  Some (Lla.Build 0 (degrees (atan (0 / Grs80.a)))
                  (sqrt (Grs80.a ^ 2 + 0 ^ 2)
                   - Ellipsoid.a (run_model gbt_run)),
        Ellipsoid.a (run_model gbt_run)).
Proof.
  assert (Grs80.a <> 0) as HX by (unfold Grs80.a; lra).
  assert (Ellipsoid.b (run_model gbt_run) <> 0) as Hb
    by (apply Rgt_not_eq; exact (run_b_pos gbt_run gbt_bounds gbt_checked)).
  assert (sqrt (Grs80.a ^ 2 + 0 ^ 2)
          - Ellipsoid.e (run_model gbt_run) ^ 2
            * Ellipsoid.a (run_model gbt_run) <> 0) as Hden.
  { cbn [run_model Ellipsoid.e Ellipsoid.a].
    rewrite (run_e_sqr gbt_run gbt_bounds gbt_checked).
    replace (Grs80.a ^ 2 + 0 ^ 2) with (Grs80.a ^ 2) by ring.
    rewrite sqrt_pow2 by (unfold Grs80.a; lra).
    change (Sym.value gbt_run Sym.a) with 6378137.0.
    change (Sym.value gbt_run Sym.f) with 0.0033528106811836376.
    unfold Grs80.a. lra. }
  split; [exact HX |]. split; [exact Hb |]. split; [exact Hden |].
  exact (ecefToLla_equator (run_model gbt_run) Grs80.a 0 HX Hb Hden).
Defined.

(** ** The radius of curvature *)

(** For a positive semi-major axis and a first eccentricity below one, the
    radius of curvature returned by the conversion lies between its
    equatorial value [a] and its polar value [a / sqrt (1 - e^2)]. *)
Theorem N_between_equatorial_and_polar
  (m : Ellipsoid.model) (pt : Ecef.point) (lla : Lla.point) (Nv : R) :
  ecefToLla m pt = Some (lla, Nv) ->
  0 < Ellipsoid.a m -> Ellipsoid.e m ^ 2 < 1 ->
  Ellipsoid.a m <= Nv <= Ellipsoid.a m / sqrt (1 - Ellipsoid.e m ^ 2).
Proof.
  intros H Ha He.
  apply ecefToLla_inv in H as (_ & _ & _ & _ & _ & -> & _).
  set (u := (Ecef.Z pt + _) / _).
  pose proof (sin_deg_atan_sqr_lt_1 u) as Hs1.
  set (s2 := sin_deg (degrees (atan u)) ^ 2) in *.
  assert (0 <= s2) as Hs0 by (unfold s2; nra).
  assert (0 <= Ellipsoid.e m ^ 2) as He0 by nra.
  assert (0 < 1 - Ellipsoid.e m ^ 2 * s2) as Hr by nra.
  assert (0 < sqrt (1 - Ellipsoid.e m ^ 2)) as Hq0 by (apply sqrt_lt_R0; lra).
  assert (sqrt (1 - Ellipsoid.e m ^ 2) <= sqrt (1 - Ellipsoid.e m ^ 2 * s2))
    as Hlo by (apply sqrt_le_1_alt; nra).
  assert (sqrt (1 - Ellipsoid.e m ^ 2 * s2) <= 1) as Hhi
    by (rewrite <- sqrt_1 at 2; apply sqrt_le_1_alt; nra).
  assert (0 < sqrt (1 - Ellipsoid.e m ^ 2 * s2)) as Hq by lra.
  split.
  - apply Rmult_le_reg_r with (sqrt (1 - Ellipsoid.e m ^ 2 * s2)); [exact Hq |].
    unfold Rdiv. rewrite Rmult_assoc, Rinv_l, Rmult_1_r by lra. nra.
  - unfold Rdiv. apply Rmult_le_compat_l; [lra |].
    apply Rinv_le_contravar; assumption.
Qed.

Lemma N_between_equatorial_and_polar_witness :
  ecefToLla (run_model gbt_run) gbt =
  Some (Lla.Build (degrees (atan (Sym.value gbt_run Sym.tan_phi)))
                  (degrees (atan (Sym.value gbt_run Sym.tan_lam)))
                  (Sym.value gbt_run Sym.h),
        Sym.value gbt_run Sym.N) /\
  0 < Ellipsoid.a (run_model gbt_run) /\
  Ellipsoid.e (run_model gbt_run) ^ 2 < 1 /\
  Ellipsoid.a (run_model gbt_run) <= Sym.value gbt_run Sym.N
  <= Ellipsoid.a (run_model gbt_run)
     / sqrt (1 - Ellipsoid.e (run_model gbt_run) ^ 2).
Proof.
  assert (0 < Ellipsoid.a (run_model gbt_run)) as Ha
    by (change (0 < 6378137.0); lra).
  assert (Ellipsoid.e (run_model gbt_run) ^ 2 < 1) as He.
  { cbn [run_model Ellipsoid.e].
    rewrite (run_e_sqr gbt_run gbt_bounds gbt_checked).
    destruct (run_checks gbt_run gbt_bounds gbt_checked) as (_ & _ & Hf & _).
    nra. }
  split; [exact (run_ecefToLla gbt_run gbt_bounds gbt_checked) |].
  split; [exact Ha |]. split; [exact He |].
  exact (N_between_equatorial_and_polar (run_model gbt_run) gbt _ _
           (run_ecefToLla gbt_run gbt_bounds gbt_checked) Ha He).
Defined.

(** ** The second eccentricity *)

(** The two formulas of the second eccentricity given beside its cell
    agree: for [a > 0] and [0 < f < 1] the value computed as
    [e / sqrt (1 - e^2)] is [sqrt (a^2 - b^2) / b]; and the first
    eccentricity squared is [f (2 - f)]. *)
Theorem e_prime_other_formula (a f : R) (m : Ellipsoid.model) :
  deriveEllipsoidModel a f = Some m -> 0 < a -> 0 < f < 1 ->
  Ellipsoid.e_prime m = sqrt (a ^ 2 - Ellipsoid.b m ^ 2) / Ellipsoid.b m /\
  Ellipsoid.e m ^ 2 = f * (2 - f).
Proof.
  intros H Ha [Hf0 Hf1].
  assert (a <> 0) as Hna by lra.
  assert (0 <= f * (2 - f)) as Hk0 by nra.
  assert (f * (2 - f) < 1) as Hk1 by nra.
  rewrite (deriveEllipsoidModel_defined a f Hna Hk0 Hk1) in H.
  set (e := sqrt (a ^ 2 - Derived.b a f ^ 2) / a) in *.
  assert (m = Ellipsoid.Build a (Derived.b a f) e (e / sqrt (1 - e ^ 2)))
    as -> by (injection H as <-; reflexivity).
  cbn [Ellipsoid.a Ellipsoid.b Ellipsoid.e Ellipsoid.e_prime].
  assert (e ^ 2 = f * (2 - f)) as He2 by (apply derived_e_sqr; assumption).
  split; [| exact He2].
  assert (sqrt (1 - e ^ 2) = 1 - f) as Hs.
  { apply sqrt_unique; [lra | rewrite He2; ring]. }
  rewrite Hs. unfold e, Derived.b. field. split; lra.
Qed.

Lemma e_prime_other_formula_witness :
  deriveEllipsoidModel 6378137.0 0.0033528106811836376
  = Some (run_model gbt_run) /\
  0 < 6378137.0 /\ 0 < 0.0033528106811836376 < 1 /\
  Ellipsoid.e_prime (run_model gbt_run)
  = sqrt (6378137.0 ^ 2 - Ellipsoid.b (run_model gbt_run) ^ 2)
    / Ellipsoid.b (run_model gbt_run) /\
  Ellipsoid.e (run_model gbt_run) ^ 2
  = 0.0033528106811836376 * (2 - 0.0033528106811836376).
Proof.
  assert (0 < 6378137.0) as Ha by lra.
  assert (0 < 0.0033528106811836376 < 1) as Hf by lra.
  split; [exact (run_derive gbt_run gbt_bounds gbt_checked) |].
  split; [exact Ha |]. split; [exact Hf |].
  exact (e_prime_other_formula 6378137.0 0.0033528106811836376
           (run_model gbt_run) (run_derive gbt_run gbt_bounds gbt_checked)
           Ha Hf).
Defined.

(** ** The offset through the whole notebook *)

Lemma llaToEcef_offset_diff
  (lla : Lla.point) (m : Ellipsoid.model) (Nv dh : R) :
  Ellipsoid.a m <> 0 ->
  exists q0 q : Ecef.point,
    llaToEcef lla m Nv = Some q0 /\
    llaToEcef (applyAltitudeOffset lla dh) m Nv = Some q /\
    diff q q0 = scale dh (normal lla).
Proof.
  intros Ha. rewrite !(llaToEcef_defined _ _ _ Ha).
  eexists. eexists. split; [reflexivity |]. split; [reflexivity |].
  unfold diff, scale, normal, applyAltitudeOffset, h_offset,
    LlaToEcef.X_new, LlaToEcef.Y_new.
  cbn [Ecef.X Ecef.Y Ecef.Z Lla.phi Lla.lam Lla.h].
  f_equal; ring.
Qed.

Lemma offsetEcef_decompose
  (m : Ellipsoid.model) (pt : Ecef.point) (lla : Lla.point) (Nv dh : R) :
  ecefToLla m pt = Some (lla, Nv) -> Ellipsoid.a m <> 0 ->
  exists q0 q : Ecef.point,
    roundTrip m pt = Some q0 /\
    offsetEcef m pt dh = Some q /\
    diff q q0 = scale dh (normal lla).
Proof.
  intros H Ha. unfold roundTrip, offsetEcef. rewrite H. cbn [bind fst snd].
  exact (llaToEcef_offset_diff lla m Nv dh Ha).
Qed.

(** The point the notebook ends on is the round-trip point moved by the
    offset along the unit normal at the computed latitude and longitude,
    whatever the sign of the offset. *)
Theorem offsetEcef_is_roundTrip_plus_normal
  (m : Ellipsoid.model) (pt : Ecef.point) (lla : Lla.point) (Nv dh : R) :
  ecefToLla m pt = Some (lla, Nv) -> Ellipsoid.a m <> 0 ->
  exists q0 q : Ecef.point,
    roundTrip m pt = Some q0 /\
    offsetEcef m pt dh = Some q /\
    diff q q0 = scale dh (normal lla).
Proof.
  intros H Ha. exact (offsetEcef_decompose m pt lla Nv dh H Ha).
Qed.

Lemma offsetEcef_is_roundTrip_plus_normal_witness :
  ecefToLla (run_model gbt_run) gbt =
  Some (Lla.Build (degrees (atan (Sym.value gbt_run Sym.tan_phi)))
                  (degrees (atan (Sym.value gbt_run Sym.tan_lam)))
                  (Sym.value gbt_run Sym.h),
        Sym.value gbt_run Sym.N) /\
  Ellipsoid.a (run_model gbt_run) <> 0 /\
  exists q0 q : Ecef.point,
    roundTrip (run_model gbt_run) gbt = Some q0 /\
    offsetEcef (run_model gbt_run) gbt alt_offset = Some q /\
    diff q q0
    = scale alt_offset
        (normal (Lla.Build (degrees (atan (Sym.value gbt_run Sym.tan_phi)))
                           (degrees (atan (Sym.value gbt_run Sym.tan_lam)))
                           (Sym.value gbt_run Sym.h))).
Proof.
  assert (Ellipsoid.a (run_model gbt_run) <> 0) as Ha
    by (change (6378137.0 <> 0); lra).
  split; [exact (run_ecefToLla gbt_run gbt_bounds gbt_checked) |].
  split; [exact Ha |].
  exact (offsetEcef_is_roundTrip_plus_normal (run_model gbt_run) gbt _ _
           alt_offset (run_ecefToLla gbt_run gbt_bounds gbt_checked) Ha).
Defined.

(** For constants derived from [a > 0], [0 < f < 1] and a point with
    [X > 0] on which the conversion is defined, the X and Y differences the
    last cell prints are exactly the offset times the X and Y components of
    the unit normal. *)
Theorem offset_difference_X_Y
  (a f : R) (m : Ellipsoid.model) (pt : Ecef.point) (lla : Lla.point)
  (Nv dh : R) :
  deriveEllipsoidModel a f = Some m -> 0 < a -> 0 < f < 1 ->
  0 < Ecef.X pt -> ecefToLla m pt = Some (lla, Nv) ->
  exists q : Ecef.point,
    offsetEcef m pt dh = Some q /\
    Ecef.X (diff q pt) = dh * (cos_deg (Lla.phi lla) * cos_deg (Lla.lam lla)) /\
    Ecef.Y (diff q pt) = dh * (cos_deg (Lla.phi lla) * sin_deg (Lla.lam lla)).
Proof.
  intros Hm Ha Hf HX H.
  destruct (derived_model_facts a f m Hm Ha Hf) as (Ea & Hb & He & He').
  assert (0 < Ellipsoid.a m) as Ha' by lra.
  assert (Ellipsoid.e m ^ 2 < 1) as Hecc
    by exact (on_ellipsoid_ecc _ _ _ Ha' Hb He).
  destruct (offsetEcef_decompose m pt lla Nv dh H
              (Rgt_not_eq _ _ Ha')) as (q0 & q & Hq0 & Hq & Hd).
  pose proof H as H'.
  apply ecefToLla_inv in H' as (HX0 & _ & Hden & _).
  destruct (roundTrip_X_Y m pt HX0 (Rgt_not_eq _ _ Ha') (Rgt_not_eq _ _ Hb)
              Hecc Hden) as (q1 & Hq1 & HqX & HqY).
  rewrite Hq0 in Hq1. injection Hq1 as <-.
  rewrite Rabs_right in HqX, HqY by lra.
  assert (Ecef.Y q0 = Ecef.Y pt) as HqY' by (rewrite HqY; field; lra).
  exists q. split; [exact Hq |].
  apply (f_equal Ecef.X) in Hd as HdX. apply (f_equal Ecef.Y) in Hd as HdY.
  unfold diff, scale, normal in HdX, HdY. cbn [Ecef.X Ecef.Y] in HdX, HdY.
  unfold diff. cbn [Ecef.X Ecef.Y]. split; lra.
Qed.

Lemma offset_difference_X_Y_witness :
  deriveEllipsoidModel 6378137.0 0.0033528106811836376
  = Some (run_model gbt_run) /\
  0 < 6378137.0 /\ 0 < 0.0033528106811836376 < 1 /\ 0 < Ecef.X gbt /\
  ecefToLla (run_model gbt_run) gbt =
  Some (Lla.Build (degrees (atan (Sym.value gbt_run Sym.tan_phi)))
                  (degrees (atan (Sym.value gbt_run Sym.tan_lam)))
                  (Sym.value gbt_run Sym.h),
        Sym.value gbt_run Sym.N) /\
  exists q : Ecef.point,
    offsetEcef (run_model gbt_run) gbt alt_offset = Some q /\
    Ecef.X (diff q gbt)
    = alt_offset * (cos_deg (degrees (atan (Sym.value gbt_run Sym.tan_phi)))
                    * cos_deg (degrees (atan (Sym.value gbt_run Sym.tan_lam)))) /\
    Ecef.Y (diff q gbt)
    = alt_offset * (cos_deg (degrees (atan (Sym.value gbt_run Sym.tan_phi)))
                    * sin_deg (degrees (atan (Sym.value gbt_run Sym.tan_lam)))).
Proof.
  assert (0 < 6378137.0) as Ha by lra.
  assert (0 < 0.0033528106811836376 < 1) as Hf by lra.
  assert (0 < Ecef.X gbt) as HX by (cbn; unfold X_original; lra).
  split; [exact (run_derive gbt_run gbt_bounds gbt_checked) |].
  split; [exact Ha |]. split; [exact Hf |]. split; [exact HX |].
  split; [exact (run_ecefToLla gbt_run gbt_bounds gbt_checked) |].
  exact (offset_difference_X_Y 6378137.0 0.0033528106811836376
           (run_model gbt_run) gbt _ _ alt_offset
           (run_derive gbt_run gbt_bounds gbt_checked) Ha Hf HX
           (run_ecefToLla gbt_run gbt_bounds gbt_checked)).
Defined.

(** ** Points with a negative X *)

(** For a point with [X < 0] on which the conversion is defined, the round
    trip comes back on the other side of the polar axis: it returns [-X]
    and [-Y]. *)
Theorem roundTrip_west (m : Ellipsoid.model) (pt : Ecef.point) :
  Ecef.X pt < 0 -> Ellipsoid.a m <> 0 -> Ellipsoid.b m <> 0 ->
  Ellipsoid.e m ^ 2 < 1 ->
  phi_denominator m (sqrt (Ecef.X pt ^ 2 + Ecef.Y pt ^ 2))
    (degrees (atan (Ecef.Z pt * Ellipsoid.a m
                    / (sqrt (Ecef.X pt ^ 2 + Ecef.Y pt ^ 2) * Ellipsoid.b m))))
  <> 0 ->
  exists q : Ecef.point,
    roundTrip m pt = Some q /\
    Ecef.X q = - Ecef.X pt /\ Ecef.Y q = - Ecef.Y pt.
Proof.
  intros HX Ha Hb He Hden.
  assert (Ecef.X pt <> 0) as HX0 by lra.
  destruct (roundTrip_X_Y m pt HX0 Ha Hb He Hden) as (q & Hq & HqX & HqY).
  exists q. split; [exact Hq |].
  rewrite Rabs_left in HqX, HqY by lra.
  split; [exact HqX |]. rewrite HqY. field. exact HX0.
Qed.

Lemma parkes_checked : run_encloses parkes_run [] = true.
Proof. vm_compute. reflexivity. Qed.

Lemma roundTrip_west_witness :
  Ecef.X (run_point parkes_run) < 0 /\
  Ellipsoid.a (run_model parkes_run) <> 0 /\
  Ellipsoid.b (run_model parkes_run) <> 0 /\
  Ellipsoid.e (run_model parkes_run) ^ 2 < 1 /\
  phi_denominator (run_model parkes_run)
    (sqrt (Ecef.X (run_point parkes_run) ^ 2 + Ecef.Y (run_point parkes_run) ^ 2))
    (degrees (atan (Ecef.Z (run_point parkes_run)
                    * Ellipsoid.a (run_model parkes_run)
                    / (sqrt (Ecef.X (run_point parkes_run) ^ 2
                             + Ecef.Y (run_point parkes_run) ^ 2)
                       * Ellipsoid.b (run_model parkes_run)))))
  <> 0 /\
  exists q : Ecef.point,
    roundTrip (run_model parkes_run) (run_point parkes_run) = Some q /\
    Ecef.X q = - Ecef.X (run_point parkes_run) /\
    Ecef.Y q = - Ecef.Y (run_point parkes_run).
Proof.
  assert (Ecef.X (run_point parkes_run) < 0) as HX
    by (change (-4554231.5 < 0); lra).
  assert (Ellipsoid.a (run_model parkes_run) <> 0) as Ha
    by (change (6378137.0 <> 0); lra).
  assert (Ellipsoid.b (run_model parkes_run) <> 0) as Hb
    by (apply Rgt_not_eq; exact (run_b_pos parkes_run [] parkes_checked)).
  assert (Ellipsoid.e (run_model parkes_run) ^ 2 < 1) as He.
  { cbn [run_model Ellipsoid.e].
    rewrite (run_e_sqr parkes_run [] parkes_checked).
    destruct (run_checks parkes_run [] parkes_checked) as (_ & _ & Hf & _).
    nra. }
  assert (phi_denominator (run_model parkes_run)
    (sqrt (Ecef.X (run_point parkes_run) ^ 2 + Ecef.Y (run_point parkes_run) ^ 2))
    (degrees (atan (Ecef.Z (run_point parkes_run)
                    * Ellipsoid.a (run_model parkes_run)
                    / (sqrt (Ecef.X (run_point parkes_run) ^ 2
                             + Ecef.Y (run_point parkes_run) ^ 2)
                       * Ellipsoid.b (run_model parkes_run)))))
    <> 0) as Hden.
  { destruct (run_checks parkes_run [] parkes_checked) as (_ & _ & _ & Hd).
    rewrite (run_denominator_eq parkes_run) by reflexivity. lra. }
  split; [exact HX |]. split; [exact Ha |]. split; [exact Hb |].
  split; [exact He |]. split; [exact Hden |].
  exact (roundTrip_west (run_model parkes_run) (run_point parkes_run)
           HX Ha Hb He Hden).
Defined.

(** ** Points of the reference ellipsoid *)

(** For constants derived from [a > 0], [0 < f < 1], a point of the reference
    ellipsoid with [X <> 0] converts to the altitude zero and to the exact
    geodetic latitude, the one of tangent [Z a^2 / (p b^2)]. *)
Theorem ecefToLla_on_ellipsoid
  (a f : R) (m : Ellipsoid.model) (pt : Ecef.point) :
  deriveEllipsoidModel a f = Some m -> 0 < a -> 0 < f < 1 ->
  Ecef.X pt <> 0 -> on_ellipsoid m pt ->
  ecefToLla m pt =
  Some (Lla.Build
          (degrees (atan (Ecef.Z pt * Ellipsoid.a m ^ 2
                          / (sqrt (Ecef.X pt ^ 2 + Ecef.Y pt ^ 2)
                             * Ellipsoid.b m ^ 2))))
          (degrees (atan (Ecef.Y pt / Ecef.X pt)))
          0,
        sqrt (Ecef.X pt ^ 2 + Ecef.Y pt ^ 2)
        * sqrt (1 + (Ecef.Z pt * Ellipsoid.a m ^ 2
                     / (sqrt (Ecef.X pt ^ 2 + Ecef.Y pt ^ 2)
                        * Ellipsoid.b m ^ 2))²)).
Proof.
  intros Hm Ha Hf HX Hon.
  destruct (derived_model_facts a f m Hm Ha Hf) as (Ea & Hb & He & He').
  assert (0 < Ellipsoid.a m) as Ha' by lra.
  exact (surface_ecefToLla m pt HX Ha' Hb He He' Hon).
Qed.

Lemma equator_on_ellipsoid :
  on_ellipsoid (run_model gbt_run) (Ecef.Build 6378137.0 0 0).
Proof.
  unfold on_ellipsoid. cbn [Ecef.X Ecef.Y Ecef.Z run_model Ellipsoid.a Ellipsoid.b].
  pose proof (run_b_pos gbt_run gbt_bounds gbt_checked) as Hb.
  change (Sym.value gbt_run Sym.a) with 6378137.0.
  field. split; lra.
Qed.

Lemma ecefToLla_on_ellipsoid_witness :
  deriveEllipsoidModel 6378137.0 0.0033528106811836376
  = Some (run_model gbt_run) /\
  0 < 6378137.0 /\ 0 < 0.0033528106811836376 < 1 /\
  Ecef.X (Ecef.Build 6378137.0 0 0) <> 0 /\
  on_ellipsoid (run_model gbt_run) (Ecef.Build 6378137.0 0 0) /\
  ecefToLla (run_model gbt_run) (Ecef.Build 6378137.0 0 0) =
  Some (Lla.Build
          (degrees (atan (0 * Ellipsoid.a (run_model gbt_run) ^ 2
                          / (sqrt (6378137.0 ^ 2 + 0 ^ 2)
                             * Ellipsoid.b (run_model gbt_run) ^ 2))))
          (degrees (atan (0 / 6378137.0)))
          0,
        sqrt (6378137.0 ^ 2 + 0 ^ 2)
        * sqrt (1 + (0 * Ellipsoid.a (run_model gbt_run) ^ 2
                     / (sqrt (6378137.0 ^ 2 + 0 ^ 2)
                        * Ellipsoid.b (run_model gbt_run) ^ 2))²)).
Proof.
  assert (0 < 6378137.0) as Ha by lra.
  assert (0 < 0.0033528106811836376 < 1) as Hf by lra.
  assert (Ecef.X (Ecef.Build 6378137.0 0 0) <> 0) as HX
    by (cbn [Ecef.X]; lra).
  split; [exact (run_derive gbt_run gbt_bounds gbt_checked) |].
  split; [exact Ha |]. split; [exact Hf |]. split; [exact HX |].
  split; [exact equator_on_ellipsoid |].
  exact (ecefToLla_on_ellipsoid 6378137.0 0.0033528106811836376
           (run_model gbt_run) (Ecef.Build 6378137.0 0 0)
           (run_derive gbt_run gbt_bounds gbt_checked) Ha Hf HX
           equator_on_ellipsoid).
Defined.

(** ** The sign of the latitude *)

Lemma cos_deg_atan_le_1 (x : R) : cos_deg (degrees (atan x)) <= 1.
Proof.
  unfold cos_deg. rewrite radians_degrees. apply COS_bound.
Qed.

Lemma sin_deg_atan_sign (x : R) :
  (0 < x -> 0 < sin_deg (degrees (atan x))) /\
  (x < 0 -> sin_deg (degrees (atan x)) < 0) /\
  (x = 0 -> sin_deg (degrees (atan x)) = 0).
Proof.
  rewrite sin_deg_atan. pose proof (sqrt_1_plus_sqr_pos x) as Hq.
  pose proof (Rinv_0_lt_compat _ Hq) as Hi.
  unfold Rdiv. repeat split; intros H.
  - now apply Rmult_lt_0_compat.
  - replace 0 with (0 * / sqrt (1 + x²)) by ring.
    now apply Rmult_lt_compat_r.
  - rewrite H. ring.
Qed.

Lemma degrees_atan_sign (x : R) :
  (0 < x -> 0 < degrees (atan x)) /\
  (x < 0 -> degrees (atan x) < 0) /\
  (x = 0 -> degrees (atan x) = 0).
Proof.
  repeat split; intros H.
  - rewrite <- degrees_0. apply degrees_increasing.
    rewrite <- atan_0. now apply atan_increasing.
  - rewrite <- degrees_0. apply degrees_increasing.
    rewrite <- atan_0. now apply atan_increasing.
  - now rewrite H, atan_0, degrees_0.
Qed.

(** With positive axes and a first eccentricity below one, a point with
    [X <> 0] farther than [e^2 a] from the polar axis (42.7 km for GRS80)
    has a positive latitude denominator: the conversion is defined there,
    and the latitude it returns has the sign of [Z]. *)
Theorem latitude_has_sign_of_Z (m : Ellipsoid.model) (pt : Ecef.point) :
  0 < Ellipsoid.a m -> 0 < Ellipsoid.b m -> Ellipsoid.e m ^ 2 < 1 ->
  Ecef.X pt <> 0 ->
  Ellipsoid.e m ^ 2 * Ellipsoid.a m < sqrt (Ecef.X pt ^ 2 + Ecef.Y pt ^ 2) ->
  exists (lla : Lla.point) (Nv : R),
    ecefToLla m pt = Some (lla, Nv) /\
    (0 < Ecef.Z pt -> 0 < Lla.phi lla) /\
    (Ecef.Z pt < 0 -> Lla.phi lla < 0) /\
    (Ecef.Z pt = 0 -> Lla.phi lla = 0).
Proof.
  intros Ha Hb He HX Hfar.
  set (p := sqrt (Ecef.X pt ^ 2 + Ecef.Y pt ^ 2)) in *.
  set (t := Ecef.Z pt * Ellipsoid.a m / (p * Ellipsoid.b m)).
  set (theta := degrees (atan t)).
  assert (0 < p) as Hp by (apply sqrt_lt_R0; nra).
  assert (0 <= Ellipsoid.e m ^ 2) as He0 by nra.
  assert (0 <= Ellipsoid.e_prime m ^ 2) as He'0 by nra.
  pose proof (cos_deg_atan_pos t) as Hc0. pose proof (cos_deg_atan_le_1 t) as Hc1.
  fold theta in Hc0, Hc1.
  assert (0 < cos_deg theta ^ 3 <= 1) as [Hc3 Hc3'].
  { split; [apply pow_lt; exact Hc0 |].
    replace 1 with (1 ^ 3) by ring. apply pow_incr. lra. }
  assert (0 < phi_denominator m p theta) as Hden.
  { unfold phi_denominator.
    assert (Ellipsoid.e m ^ 2 * Ellipsoid.a m * cos_deg theta ^ 3
            <= Ellipsoid.e m ^ 2 * Ellipsoid.a m * 1); [| lra].
    apply Rmult_le_compat_l; [| exact Hc3'].
    apply Rmult_le_pos; lra. }
  assert (0 < / (p * Ellipsoid.b m)) as Hpb
    by (apply Rinv_0_lt_compat, Rmult_lt_0_compat; assumption).
  assert (0 < Ellipsoid.a m * / (p * Ellipsoid.b m)) as Hk
    by (apply Rmult_lt_0_compat; assumption).
  assert (t = Ecef.Z pt * (Ellipsoid.a m * / (p * Ellipsoid.b m))) as Et
    by (unfold t, Rdiv; ring).
  destruct (sin_deg_atan_sign t) as (Sp & Sn & Sz). fold theta in Sp, Sn, Sz.
  set (num := Ecef.Z pt + Ellipsoid.e_prime m ^ 2 * Ellipsoid.b m
                          * sin_deg theta ^ 3).
  assert (0 <= Ellipsoid.e_prime m ^ 2 * Ellipsoid.b m) as Hk'
    by (apply Rmult_le_pos; lra).
  destruct (degrees_atan_sign (num / phi_denominator m p theta))
    as (Dp & Dn & Dz).
  pose proof (Rinv_0_lt_compat _ Hden) as Hdi.
  eexists. eexists. split.
  - apply (ecefToLla_defined_ecc m pt HX); [lra | | exact He].
    fold p. fold t. fold theta. lra.
  - cbn [Lla.phi]. fold p. fold t. fold theta. fold num.
    repeat split; intros HZ.
    + apply Dp. apply Rmult_lt_0_compat; [| exact Hdi].
      assert (0 < t) as Ht by (rewrite Et; now apply Rmult_lt_0_compat).
      assert (0 < sin_deg theta ^ 3) by (apply pow_lt; auto).
      unfold num. nra.
    + apply Dn. unfold Rdiv.
      replace 0 with (0 * / phi_denominator m p theta) by ring.
      apply Rmult_lt_compat_r; [exact Hdi |].
      assert (t < 0) as Ht.
      { rewrite Et. replace 0 with (0 * (Ellipsoid.a m * / (p * Ellipsoid.b m)))
          by ring. now apply Rmult_lt_compat_r. }
      assert (sin_deg theta ^ 3 < 0).
      { specialize (Sn Ht).
        replace (sin_deg theta ^ 3)
          with (- ((- sin_deg theta) ^ 3)) by ring.
        assert (0 < (- sin_deg theta) ^ 3) by (apply pow_lt; lra). lra. }
      unfold num. nra.
    + apply Dz. unfold num.
      assert (t = 0) as Ht by (rewrite Et, HZ; ring).
      rewrite (Sz Ht), HZ. unfold Rdiv. ring.
Qed.

Lemma latitude_has_sign_of_Z_witness :
  0 < Ellipsoid.a (run_model gbt_run) /\
  0 < Ellipsoid.b (run_model gbt_run) /\
  Ellipsoid.e (run_model gbt_run) ^ 2 < 1 /\
  Ecef.X gbt <> 0 /\
  Ellipsoid.e (run_model gbt_run) ^ 2 * Ellipsoid.a (run_model gbt_run)
  < sqrt (Ecef.X gbt ^ 2 + Ecef.Y gbt ^ 2) /\
  exists (lla : Lla.point) (Nv : R),
    ecefToLla (run_model gbt_run) gbt = Some (lla, Nv) /\
    (0 < Ecef.Z gbt -> 0 < Lla.phi lla) /\
    (Ecef.Z gbt < 0 -> Lla.phi lla < 0) /\
    (Ecef.Z gbt = 0 -> Lla.phi lla = 0).
Proof.
  assert (0 < Ellipsoid.a (run_model gbt_run)) as Ha
    by (change (0 < 6378137.0); lra).
  pose proof (run_b_pos gbt_run gbt_bounds gbt_checked) as Hb.
  assert (Ellipsoid.e (run_model gbt_run) ^ 2 < 1) as He.
  { cbn [run_model Ellipsoid.e].
    rewrite (run_e_sqr gbt_run gbt_bounds gbt_checked).
    destruct (run_checks gbt_run gbt_bounds gbt_checked) as (_ & _ & Hf & _).
    nra. }
  assert (Ecef.X gbt <> 0) as HX by (cbn; unfold X_original; lra).
  assert (Ellipsoid.e (run_model gbt_run) ^ 2 * Ellipsoid.a (run_model gbt_run)
          < sqrt (Ecef.X gbt ^ 2 + Ecef.Y gbt ^ 2)) as Hfar.
  { cbn [run_model Ellipsoid.e Ellipsoid.a].
    rewrite (run_e_sqr gbt_run gbt_bounds gbt_checked).
    change (Sym.value gbt_run Sym.a) with 6378137.0.
    change (Sym.value gbt_run Sym.f) with 0.0033528106811836376.
    apply Rlt_le_trans with 882589.289; [lra |].
    cbn [gbt Ecef.X Ecef.Y]. unfold X_original.
    rewrite <- (sqrt_pow2 882589.289) at 1 by lra.
    apply sqrt_le_1_alt. nra. }
  split; [exact Ha |]. split; [exact Hb |]. split; [exact He |].
  split; [exact HX |]. split; [exact Hfar |].
  exact (latitude_has_sign_of_Z (run_model gbt_run) gbt Ha Hb He HX Hfar).
Defined.

(** ** From LLA to ECEF and back, at zero altitude *)

Lemma sin_cos_deg_sqr (d : R) : sin_deg d * sin_deg d + cos_deg d * cos_deg d = 1.
Proof.
  unfold sin_deg, cos_deg. pose proof (sin2_cos2 (radians d)) as H.
  unfold Rsqr in H. exact H.
Qed.

Lemma cos_deg_pos (d : R) : -90 < d < 90 -> 0 < cos_deg d.
Proof.
  intros Hd. apply radians_bound in Hd. unfold cos_deg. apply cos_gt_0; lra.
Qed.

Lemma degrees_atan_tan_deg (d : R) :
  -90 < d < 90 -> degrees (atan (sin_deg d / cos_deg d)) = d.
Proof.
  intros Hd. apply radians_bound in Hd as HL.
  change (sin_deg d / cos_deg d) with (tan (radians d)).
  now rewrite atan_tan, degrees_radians.
Qed.

Section ZeroAltitude.
Variable m : Ellipsoid.model.
Variables phi lam : R.

Let a := Ellipsoid.a m.
Let b := Ellipsoid.b m.
Let e := Ellipsoid.e m.
Let N := curvature_radius m phi.

Hypothesis Ha : 0 < a.
Hypothesis Hb : 0 < b.
Hypothesis He : e ^ 2 = 1 - b ^ 2 / a ^ 2.
Hypothesis He' : Ellipsoid.e_prime m ^ 2 = (a ^ 2 - b ^ 2) / b ^ 2.

Let g := sqrt (1 - e ^ 2 * (sin_deg phi ^ 2)).

Lemma zero_altitude_radicand : 0 < 1 - e ^ 2 * (sin_deg phi ^ 2).
Proof.
  pose proof (sin_cos_deg_sqr phi) as H.
  assert (0 < b ^ 2 / a ^ 2) as Hq by (apply Rdiv_lt_0_compat; nra).
  assert (0 <= cos_deg phi * cos_deg phi) by nra.
  assert (0 <= sin_deg phi * sin_deg phi) by nra.
  rewrite He.
  replace (1 - (1 - b ^ 2 / a ^ 2) * sin_deg phi ^ 2)
    with (cos_deg phi * cos_deg phi
          + b ^ 2 / a ^ 2 * (sin_deg phi * sin_deg phi))
    by (replace (cos_deg phi * cos_deg phi)
          with (1 - sin_deg phi * sin_deg phi) by lra; ring).
  destruct (Req_dec (sin_deg phi) 0) as [E | NE].
  - rewrite E in *. nra.
  - assert (0 < sin_deg phi * sin_deg phi) by nra.
    assert (0 < b ^ 2 / a ^ 2 * (sin_deg phi * sin_deg phi))
      by (now apply Rmult_lt_0_compat).
    lra.
Qed.

Lemma zero_altitude_g : 0 < g /\ g * g = 1 - e ^ 2 * (sin_deg phi ^ 2).
Proof.
  pose proof zero_altitude_radicand as H. split.
  - now apply sqrt_lt_R0.
  - apply sqrt_sqrt. lra.
Qed.

Lemma zero_altitude_N : N = a / g /\ 0 < N.
Proof.
  destruct zero_altitude_g as [Hg _].
  split; [reflexivity |]. unfold N, curvature_radius. fold a e g.
  now apply Rdiv_lt_0_compat.
Qed.

Lemma zero_altitude_value :
  llaToEcef (Lla.Build phi lam 0) m N =
  Some (Ecef.Build (N * cos_deg phi * cos_deg lam)
                   (N * cos_deg phi * sin_deg lam)
                   (b ^ 2 / a ^ 2 * N * sin_deg phi)).
Proof.
  rewrite llaToEcef_defined by (fold a; lra).
  unfold LlaToEcef.X_new, LlaToEcef.Y_new. cbn [Lla.phi Lla.lam Lla.h].
  fold a b. f_equal. f_equal; ring.
Qed.

Lemma zero_altitude_on_ellipsoid :
  on_ellipsoid m (Ecef.Build (N * cos_deg phi * cos_deg lam)
                             (N * cos_deg phi * sin_deg lam)
                             (b ^ 2 / a ^ 2 * N * sin_deg phi)).
Proof.
  destruct zero_altitude_g as [Hg Hgg].
  destruct zero_altitude_N as [EN _].
  pose proof (sin_cos_deg_sqr phi) as Hp. pose proof (sin_cos_deg_sqr lam) as Hl.
  unfold on_ellipsoid. cbn [Ecef.X Ecef.Y Ecef.Z]. fold a b. rewrite EN.
  replace (((a / g * cos_deg phi * cos_deg lam) ^ 2
            + (a / g * cos_deg phi * sin_deg lam) ^ 2) / a ^ 2
           + (b ^ 2 / a ^ 2 * (a / g) * sin_deg phi) ^ 2 / b ^ 2)
    with (((sin_deg lam * sin_deg lam + cos_deg lam * cos_deg lam)
           * (cos_deg phi * cos_deg phi)
           + b ^ 2 / a ^ 2 * (sin_deg phi * sin_deg phi)) / (g * g))
    by (field; repeat split; lra).
  rewrite Hl.
  replace (1 * (cos_deg phi * cos_deg phi)
           + b ^ 2 / a ^ 2 * (sin_deg phi * sin_deg phi)) with (g * g).
  - field. lra.
  - rewrite Hgg, He.
    replace (cos_deg phi * cos_deg phi) with (1 - sin_deg phi * sin_deg phi)
      by lra.
    field. lra.
Qed.

Hypothesis Hphi : -90 < phi < 90.
Hypothesis Hlam : -90 < lam < 90.

Lemma zero_altitude_p :
  sqrt ((N * cos_deg phi * cos_deg lam) ^ 2
        + (N * cos_deg phi * sin_deg lam) ^ 2) = N * cos_deg phi.
Proof.
  destruct zero_altitude_N as [_ HN].
  pose proof (cos_deg_pos phi Hphi) as Hc.
  pose proof (sin_cos_deg_sqr lam) as Hl.
  apply sqrt_unique.
  - apply Rlt_le. now apply Rmult_lt_0_compat.
  - replace ((N * cos_deg phi * cos_deg lam) ^ 2
             + (N * cos_deg phi * sin_deg lam) ^ 2)
      with (N * cos_deg phi * (N * cos_deg phi)
            * (sin_deg lam * sin_deg lam + cos_deg lam * cos_deg lam)) by ring.
    rewrite Hl. ring.
Qed.

Lemma zero_altitude_back :
  ecefToLla m (Ecef.Build (N * cos_deg phi * cos_deg lam)
                          (N * cos_deg phi * sin_deg lam)
                          (b ^ 2 / a ^ 2 * N * sin_deg phi))
  = Some (Lla.Build phi lam 0, N).
Proof.
  destruct zero_altitude_N as [_ HN].
  pose proof (cos_deg_pos phi Hphi) as Hcp.
  pose proof (cos_deg_pos lam Hlam) as Hcl.
  pose proof (sin_cos_deg_sqr phi) as Hp.
  assert (0 < N * cos_deg phi) as HNc by (now apply Rmult_lt_0_compat).
  rewrite (surface_ecefToLla m _); cbn [Ecef.X Ecef.Y Ecef.Z]; fold a b e.
  - rewrite zero_altitude_p.
    replace (b ^ 2 / a ^ 2 * N * sin_deg phi * a ^ 2
             / (N * cos_deg phi * b ^ 2))
      with (sin_deg phi / cos_deg phi) by (field; repeat split; lra).
    replace (N * cos_deg phi * sin_deg lam / (N * cos_deg phi * cos_deg lam))
      with (sin_deg lam / cos_deg lam) by (field; repeat split; lra).
    rewrite !degrees_atan_tan_deg by assumption.
    replace (sqrt (1 + (sin_deg phi / cos_deg phi)²)) with (/ cos_deg phi).
    + replace (N * cos_deg phi * / cos_deg phi) with N by (field; lra).
      reflexivity.
    + symmetry. apply sqrt_unique.
      * apply Rlt_le. now apply Rinv_0_lt_compat.
      * unfold Rsqr.
        replace (1 + sin_deg phi / cos_deg phi * (sin_deg phi / cos_deg phi))
          with ((sin_deg phi * sin_deg phi + cos_deg phi * cos_deg phi)
                / (cos_deg phi * cos_deg phi)) by (field; lra).
        rewrite Hp. field. lra.
  - apply Rgt_not_eq. now apply Rmult_lt_0_compat.
  - exact Ha.
  - exact Hb.
  - exact He.
  - exact He'.
  - exact zero_altitude_on_ellipsoid.
Qed.
End ZeroAltitude.

(** For constants derived from [a > 0], [0 < f < 1], the LLA to ECEF cell
    sends every point of altitude zero, with the radius of curvature of its
    latitude, onto the reference ellipsoid. *)
Theorem llaToEcef_zero_altitude_on_ellipsoid
  (a f : R) (m : Ellipsoid.model) (phi lam : R) :
  deriveEllipsoidModel a f = Some m -> 0 < a -> 0 < f < 1 ->
  exists q : Ecef.point,
    llaToEcef (Lla.Build phi lam 0) m (curvature_radius m phi) = Some q /\
    on_ellipsoid m q.
Proof.
  intros Hm Ha Hf.
  destruct (derived_model_facts a f m Hm Ha Hf) as (Ea & Hb & He & He').
  assert (0 < Ellipsoid.a m) as Ha' by lra.
  eexists. split.
  - exact (zero_altitude_value m phi lam Ha').
  - exact (zero_altitude_on_ellipsoid m phi lam Ha' Hb He).
Qed.

Lemma llaToEcef_zero_altitude_on_ellipsoid_witness :
  deriveEllipsoidModel 6378137.0 0.0033528106811836376
  = Some (run_model gbt_run) /\
  0 < 6378137.0 /\ 0 < 0.0033528106811836376 < 1 /\
  exists q : Ecef.point,
    llaToEcef (Lla.Build 38.43 (-79.84) 0) (run_model gbt_run)
      (curvature_radius (run_model gbt_run) 38.43) = Some q /\
    on_ellipsoid (run_model gbt_run) q.
Proof.
  assert (0 < 6378137.0) as Ha by lra.
  assert (0 < 0.0033528106811836376 < 1) as Hf by lra.
  split; [exact (run_derive gbt_run gbt_bounds gbt_checked) |].
  split; [exact Ha |]. split; [exact Hf |].
  exact (llaToEcef_zero_altitude_on_ellipsoid 6378137.0 0.0033528106811836376
           (run_model gbt_run) 38.43 (-79.84)
           (run_derive gbt_run gbt_bounds gbt_checked) Ha Hf).
Defined.

(** The other round trip: for constants derived from [a > 0], [0 < f < 1],
    a point of altitude zero whose latitude and longitude are strictly
    between -90 and 90 degrees, converted to ECEF and back, is returned
    unchanged, with the same radius of curvature. *)
Theorem lla_roundTrip_zero_altitude
  (a f : R) (m : Ellipsoid.model) (phi lam : R) :
  deriveEllipsoidModel a f = Some m -> 0 < a -> 0 < f < 1 ->
  -90 < phi < 90 -> -90 < lam < 90 ->
  exists q : Ecef.point,
    llaToEcef (Lla.Build phi lam 0) m (curvature_radius m phi) = Some q /\
    ecefToLla m q = Some (Lla.Build phi lam 0, curvature_radius m phi).
Proof.
  intros Hm Ha Hf Hphi Hlam.
  destruct (derived_model_facts a f m Hm Ha Hf) as (Ea & Hb & He & He').
  assert (0 < Ellipsoid.a m) as Ha' by lra.
  eexists. split.
  - exact (zero_altitude_value m phi lam Ha').
  - exact (zero_altitude_back m phi lam Ha' Hb He He' Hphi Hlam).
Qed.

Lemma lla_roundTrip_zero_altitude_witness :
  deriveEllipsoidModel 6378137.0 0.0033528106811836376
  = Some (run_model gbt_run) /\
  0 < 6378137.0 /\ 0 < 0.0033528106811836376 < 1 /\
  -90 < 38.43 < 90 /\ -90 < -79.84 < 90 /\
  exists q : Ecef.point,
    llaToEcef (Lla.Build 38.43 (-79.84) 0) (run_model gbt_run)
      (curvature_radius (run_model gbt_run) 38.43) = Some q /\
    ecefToLla (run_model gbt_run) q
    = Some (Lla.Build 38.43 (-79.84) 0,
            curvature_radius (run_model gbt_run) 38.43).
Proof.
  assert (0 < 6378137.0) as Ha by lra.
  assert (0 < 0.0033528106811836376 < 1) as Hf by lra.
  assert (-90 < 38.43 < 90) as Hphi by lra.
  assert (-90 < -79.84 < 90) as Hlam by lra.
  split; [exact (run_derive gbt_run gbt_bounds gbt_checked) |].
  split; [exact Ha |]. split; [exact Hf |]. split; [exact Hphi |].
  split; [exact Hlam |].
  exact (lla_roundTrip_zero_altitude 6378137.0 0.0033528106811836376
           (run_model gbt_run) 38.43 (-79.84)
           (run_derive gbt_run gbt_bounds gbt_checked) Ha Hf Hphi Hlam).
Defined.

(** * The cells in binary64 *)

Local Abbreviation bpow := Binary64.bpow.
Local Abbreviation mag := Binary64.mag.
Local Abbreviation fexp := Binary64.fexp.
Local Abbreviation ulp := Binary64.ulp.
Local Abbreviation rne := Binary64.rne.
Local Abbreviation rnd := Binary64.rnd.
Local Abbreviation F64 := Binary64.F64.
Local Abbreviation omega := Binary64.omega.
Local Abbreviation round := Binary64.round.
Local Abbreviation Num := Binary64.Num.
Local Abbreviation Inf := Binary64.Inf.
Local Abbreviation NaN := Binary64.NaN.
Local Abbreviation half_pi := Binary64.half_pi.
Local Abbreviation nanometre := Binary64.nanometre.

(** ** Powers of two and the binary exponent *)

Lemma bpow_pos (e : Z) : 0 < bpow e.
Proof. apply powerRZ_lt. lra. Qed.

Lemma bpow_add (e1 e2 : Z) : bpow (e1 + e2) = bpow e1 * bpow e2.
Proof. apply powerRZ_add. lra. Qed.

Lemma bpow_0 : bpow 0 = 1.
Proof. reflexivity. Qed.

Lemma bpow_1 : bpow 1 = 2.
Proof. unfold bpow. simpl. lra. Qed.

Lemma bpow_opp (e : Z) : bpow (- e) = / bpow e.
Proof. apply powerRZ_neg'. Qed.

Lemma bpow_succ (e : Z) : bpow (e + 1) = 2 * bpow e.
Proof. rewrite bpow_add, bpow_1. ring. Qed.

Lemma bpow_nonneg (n : Z) : (0 <= n)%Z -> bpow n = IZR (2 ^ n).
Proof.
  intros Hn. unfold bpow.
  rewrite <- (Z2Nat.id n Hn) at 1. rewrite <- pow_powerRZ.
  rewrite <- (Z2Nat.id n Hn) at 2.
  generalize (Z.to_nat n). intros k. induction k as [| k IH].
  - reflexivity.
  - rewrite Nat2Z.inj_succ, Z.pow_succ_r by lia.
    rewrite mult_IZR, <- IH. simpl. ring.
Qed.

Lemma bpow_ge_1 (n : Z) : (0 <= n)%Z -> 1 <= bpow n.
Proof.
  intros Hn. rewrite bpow_nonneg by assumption. apply IZR_le.
  assert (0 < 2 ^ n)%Z by (apply Z.pow_pos_nonneg; lia). lia.
Qed.

Lemma bpow_le (e1 e2 : Z) : (e1 <= e2)%Z -> bpow e1 <= bpow e2.
Proof.
  intros H. replace e2 with (e1 + (e2 - e1))%Z by lia.
  rewrite bpow_add. pose proof (bpow_pos e1).
  pose proof (bpow_ge_1 (e2 - e1) ltac:(lia)). nra.
Qed.

Lemma bpow_lt (e1 e2 : Z) : (e1 < e2)%Z -> bpow e1 < bpow e2.
Proof.
  intros H. replace e2 with (e1 + 1 + (e2 - e1 - 1))%Z by lia.
  rewrite bpow_add, bpow_succ. pose proof (bpow_pos e1).
  pose proof (bpow_ge_1 (e2 - e1 - 1) ltac:(lia)). nra.
Qed.

Lemma bpow_lt_inv (e1 e2 : Z) : bpow e1 < bpow e2 -> (e1 < e2)%Z.
Proof.
  intros H. destruct (Z_lt_le_dec e1 e2) as [L | L]; [exact L |].
  pose proof (bpow_le _ _ L). lra.
Qed.

Lemma bpow_Rpower (e : Z) : bpow e = exp (IZR e * ln 2).
Proof. unfold bpow. rewrite powerRZ_Rpower by lra. reflexivity. Qed.

Lemma ln_2_pos : 0 < ln 2.
Proof. pose proof ln_lt_2. lra. Qed.

Lemma mag_spec (x : R) :
  x <> 0 -> bpow (mag x) <= Rabs x < bpow (mag x + 1).
Proof.
  intros Hx. assert (0 < Rabs x) as Hp by now apply Rabs_pos_lt.
  unfold mag. set (r := ln (Rabs x) / ln 2).
  destruct (Zfloor_bound r) as [L U].
  pose proof ln_2_pos as H2.
  assert (Rabs x = exp (r * ln 2)) as Hr.
  { rewrite <- (exp_ln (Rabs x) Hp) at 1. f_equal. unfold r. field. lra. }
  rewrite !bpow_Rpower, plus_IZR. rewrite Hr. split.
  - destruct L as [L | L].
    + left. apply exp_increasing. nra.
    + right. now rewrite L.
  - apply exp_increasing. nra.
Qed.

Lemma mag_unique (x : R) (k : Z) :
  bpow k <= Rabs x < bpow (k + 1) -> mag x = k.
Proof.
  intros [L U].
  assert (x <> 0) as Hx.
  { intros ->. rewrite Rabs_R0 in L. pose proof (bpow_pos k). lra. }
  destruct (mag_spec x Hx) as [L' U'].
  assert (k < mag x + 1)%Z by (apply bpow_lt_inv; lra).
  assert (mag x < k + 1)%Z by (apply bpow_lt_inv; lra).
  lia.
Qed.

(** ** The nearest integer *)

Lemma rne_cases (r : R) :
  (rne r = Zfloor r /\ r - IZR (Zfloor r) <= 1 / 2) \/
  (rne r = (Zfloor r + 1)%Z /\ 1 / 2 <= r - IZR (Zfloor r)).
Proof.
  unfold rne. cbv zeta.
  destruct (Rlt_dec (r - IZR (Zfloor r)) (1 / 2)) as [H | H].
  - left. split; [reflexivity | lra].
  - destruct (Rlt_dec (1 / 2) (r - IZR (Zfloor r))) as [H' | H'].
    + right. split; [reflexivity | lra].
    + destruct (Z.even (Zfloor r)); [left | right]; split;
        try reflexivity; lra.
Qed.

Lemma rne_half (r : R) : Rabs (IZR (rne r) - r) <= 1 / 2.
Proof.
  destruct (Zfloor_bound r) as [L U].
  destruct (rne_cases r) as [[-> H] | [-> H]].
  - rewrite Rabs_left1 by lra. lra.
  - rewrite plus_IZR. rewrite Rabs_right by lra. lra.
Qed.

Lemma rne_nearest (r : R) (j : Z) :
  Rabs (IZR (rne r) - r) <= Rabs (IZR j - r).
Proof.
  destruct (Zfloor_bound r) as [L U].
  assert (j <= Zfloor r \/ Zfloor r + 1 <= j)%Z as [Hj | Hj] by lia.
  - apply IZR_le in Hj.
    rewrite (Rabs_left1 (IZR j - r)) by lra.
    destruct (rne_cases r) as [[-> H] | [-> H]].
    + rewrite Rabs_left1 by lra. lra.
    + rewrite plus_IZR. rewrite Rabs_right by lra. lra.
  - apply IZR_le in Hj. rewrite plus_IZR in Hj.
    rewrite (Rabs_right (IZR j - r)) by lra.
    destruct (rne_cases r) as [[-> H] | [-> H]].
    + rewrite Rabs_left1 by lra. lra.
    + rewrite plus_IZR. rewrite Rabs_right by lra. lra.
Qed.

Lemma rne_unique (r : R) (n : Z) :
  Rabs (r - IZR n) < 1 / 2 -> rne r = n.
Proof.
  intros H. apply Rabs_def2 in H as [H1 H2].
  destruct (Zfloor_bound r) as [L U].
  destruct (rne_cases r) as [[E H] | [E H]]; rewrite E.
  - assert (n - 1 < Zfloor r < n + 1)%Z; [| lia].
    split; apply lt_IZR; rewrite ?minus_IZR, ?plus_IZR; lra.
  - assert (n - 1 < Zfloor r + 1 < n + 1)%Z; [| lia].
    split; apply lt_IZR; rewrite ?minus_IZR, ?plus_IZR; lra.
Qed.

Lemma rne_IZR (n : Z) : rne (IZR n) = n.
Proof. apply rne_unique. rewrite Rminus_diag, Rabs_R0. lra. Qed.

(** ** Rounding to nearest *)

Lemma rnd_0 : rnd 0 = 0.
Proof.
  unfold rnd. replace (0 / ulp 0) with 0 by (unfold Rdiv; ring).
  rewrite rne_IZR. ring.
Qed.

Lemma F64_0 : F64 0.
Proof. exists 0%Z, 0%Z. repeat split; try lia. simpl. ring. Qed.

Lemma F64_opp (y : R) : F64 y -> F64 (- y).
Proof.
  intros (m & e & -> & Hm & He). exists (- m)%Z, e.
  repeat split; try lia. rewrite opp_IZR. ring.
Qed.

Lemma F64_bpow (e : Z) : (-1074 <= e)%Z -> F64 (bpow e).
Proof.
  intros He. exists 1%Z, e. repeat split; try lia. ring.
Qed.

Lemma F64_Z (n : Z) : (Z.abs n < 2 ^ 53)%Z -> F64 (IZR n).
Proof.
  intros Hn. exists n, 0%Z. repeat split; try lia. rewrite bpow_0. ring.
Qed.

(** A multiple of [bpow e] with a larger mantissa is a float when the
    mantissa is a power of two. *)
Lemma F64_scaled (m e : Z) :
  (Z.abs m <= 2 ^ 53)%Z -> (-1074 <= e)%Z -> F64 (IZR m * bpow e).
Proof.
  intros Hm He.
  destruct (Z.eq_dec (Z.abs m) (2 ^ 53)) as [E | NE].
  - assert (m = 2 ^ 53 \/ m = - 2 ^ 53)%Z as [-> | ->] by lia.
    + exists (2 ^ 52)%Z, (e + 1)%Z. repeat split; try lia.
      rewrite bpow_succ. change (2 ^ 53)%Z with (2 * 2 ^ 52)%Z.
      rewrite mult_IZR. ring.
    + exists (- 2 ^ 52)%Z, (e + 1)%Z. repeat split; try lia.
      rewrite bpow_succ. change (- 2 ^ 53)%Z with (2 * - 2 ^ 52)%Z.
      rewrite mult_IZR. ring.
  - exists m, e. repeat split; try lia.
Qed.

Lemma Rabs_IZR_lt (m n : Z) : (Z.abs m < n)%Z -> Rabs (IZR m) < IZR n.
Proof. intros H. rewrite <- abs_IZR. now apply IZR_lt. Qed.

Lemma rne_bound (r : R) (n : Z) :
  Rabs r < IZR n -> (Z.abs (rne r) <= n)%Z.
Proof.
  intros H. apply Rabs_def2 in H as [H1 H2].
  destruct (Zfloor_bound r) as [L U].
  assert (Zfloor r < n)%Z by (apply lt_IZR; lra).
  assert (- n <= Zfloor r)%Z by (apply Zfloor_lub; rewrite opp_IZR; lra).
  destruct (rne_cases r) as [[-> _] | [-> _]]; lia.
Qed.

Section Rounding.
Variable x : R.
Let E := fexp (mag x).
Let r := x / bpow E.

Lemma rnd_unfold : rnd x = IZR (rne r) * bpow E.
Proof. reflexivity. Qed.

Lemma rnd_scaled : x = r * bpow E.
Proof. unfold r. field. apply Rgt_not_eq, bpow_pos. Qed.

Lemma rnd_error : Rabs (rnd x - x) = Rabs (IZR (rne r) - r) * bpow E.
Proof.
  replace (rnd x - x) with ((IZR (rne r) - r) * bpow E)
    by (rewrite rnd_unfold; unfold r; field; apply Rgt_not_eq, bpow_pos).
  rewrite Rabs_mult.
  rewrite (Rabs_right (bpow E)) by (left; apply bpow_pos). reflexivity.
Qed.

Lemma rnd_half_ulp : Rabs (rnd x - x) <= bpow E / 2.
Proof.
  rewrite rnd_error. pose proof (rne_half r). pose proof (bpow_pos E). nra.
Qed.

Lemma rnd_multiple (j : Z) :
  Rabs (rnd x - x) <= Rabs (IZR j * bpow E - x).
Proof.
  rewrite rnd_error.
  replace (IZR j * bpow E - x) with ((IZR j - r) * bpow E)
    by (unfold r; field; apply Rgt_not_eq, bpow_pos).
  rewrite Rabs_mult.
  rewrite (Rabs_right (bpow E)) by (left; apply bpow_pos).
  pose proof (rne_nearest r j). pose proof (bpow_pos E). nra.
Qed.

Lemma scaled_bound : x <> 0 -> Rabs r < IZR (2 ^ 53).
Proof.
  intros Hx. destruct (mag_spec x Hx) as [_ U].
  unfold r, Rdiv. rewrite Rabs_mult, Rabs_inv.
  rewrite (Rabs_right (bpow E)) by (left; apply bpow_pos).
  apply (Rmult_lt_reg_r (bpow E)); [apply bpow_pos |].
  rewrite Rmult_assoc, Rinv_l, Rmult_1_r by (apply Rgt_not_eq, bpow_pos).
  rewrite <- (bpow_nonneg 53) by lia. rewrite <- bpow_add.
  eapply Rlt_le_trans; [exact U |]. apply bpow_le. unfold E, fexp. lia.
Qed.

Lemma rnd_F : F64 (rnd x).
Proof.
  destruct (Req_dec x 0) as [Hx | Hx].
  - unfold r, E. rewrite Hx, rnd_0. apply F64_0.
  - rewrite rnd_unfold. apply F64_scaled.
    + apply rne_bound. now apply scaled_bound.
    + unfold E, fexp. lia.
Qed.

Lemma rnd_nearest (z : R) : F64 z -> Rabs (rnd x - x) <= Rabs (z - x).
Proof.
  intros (m & e & -> & Hm & He).
  destruct (Z_le_gt_dec E e) as [Le | Gt].
  - replace (IZR m * bpow e) with (IZR (m * 2 ^ (e - E)) * bpow E).
    + apply rnd_multiple.
    + rewrite mult_IZR, <- bpow_nonneg by lia.
      rewrite Rmult_assoc, <- bpow_add. do 2 f_equal. lia.
  - destruct (Req_dec x 0) as [Hx | Hx].
    { unfold r, E. rewrite Hx, rnd_0, Rminus_diag, Rabs_R0. apply Rabs_pos. }
    destruct (mag_spec x Hx) as [L _].
    assert (E = (mag x - 52)%Z) as HE by (unfold E, fexp in *; lia).
    assert (Rabs (IZR m * bpow e) < bpow (mag x)) as Hz.
    { rewrite Rabs_mult, (Rabs_right (bpow e)) by (left; apply bpow_pos).
      apply Rlt_le_trans with (IZR (2 ^ 53) * bpow e).
      - apply Rmult_lt_compat_r; [apply bpow_pos |].
        now apply Rabs_IZR_lt.
      - rewrite <- bpow_nonneg by lia. rewrite <- bpow_add.
        apply bpow_le. lia. }
    assert (bpow (mag x) = IZR (2 ^ 52) * bpow E) as Hk.
    { rewrite <- bpow_nonneg by lia. rewrite <- bpow_add. f_equal. lia. }
    destruct (Rcase_abs x) as [Neg | Pos].
    + pose proof (rnd_multiple (- 2 ^ 52)) as H.
      rewrite opp_IZR, Ropp_mult_distr_l_reverse, <- Hk in H.
      rewrite Rabs_left in L by assumption.
      eapply Rle_trans; [exact H |].
      apply Rabs_def2 in Hz as [Hz1 Hz2].
      rewrite (Rabs_right (- bpow (mag x) - x)) by lra.
      rewrite (Rabs_right (IZR m * bpow e - x)) by lra. lra.
    + pose proof (rnd_multiple (2 ^ 52)) as H.
      rewrite <- Hk in H.
      rewrite Rabs_right in L by assumption.
      eapply Rle_trans; [exact H |].
      apply Rabs_def2 in Hz as [Hz1 Hz2].
      rewrite (Rabs_left1 (bpow (mag x) - x)) by lra.
      rewrite (Rabs_left1 (IZR m * bpow e - x)) by lra. lra.
Qed.
End Rounding.

(** What being nearest gives: fixed points and monotonicity. *)

Lemma rnd_fix (x : R) : F64 x -> rnd x = x.
Proof.
  intros Hx. pose proof (rnd_nearest x x Hx) as H.
  rewrite Rminus_diag, Rabs_R0 in H.
  pose proof (Rabs_pos (rnd x - x)) as P.
  assert (Rabs (rnd x - x) = 0) as Z by lra.
  destruct (Req_dec (rnd x - x) 0) as [E | NE]; [lra |].
  apply Rabs_no_R0 in NE. contradiction.
Qed.

Lemma rnd_idem (x : R) : rnd (rnd x) = rnd x.
Proof. apply rnd_fix, rnd_F. Qed.

Lemma rnd_ge_float (lo x : R) : F64 lo -> lo <= x -> lo <= rnd x.
Proof.
  intros Hlo Hx. destruct (Rle_lt_dec lo (rnd x)) as [H | H]; [exact H |].
  pose proof (rnd_nearest x lo Hlo) as N.
  rewrite (Rabs_left (rnd x - x)), (Rabs_left1 (lo - x)) in N by lra. lra.
Qed.

Lemma rnd_le_float (hi x : R) : F64 hi -> x <= hi -> rnd x <= hi.
Proof.
  intros Hhi Hx. destruct (Rle_lt_dec (rnd x) hi) as [H | H]; [exact H |].
  pose proof (rnd_nearest x hi Hhi) as N.
  rewrite (Rabs_right (rnd x - x)), (Rabs_right (hi - x)) in N by lra. lra.
Qed.

Lemma rnd_le (x y : R) : x <= y -> rnd x <= rnd y.
Proof.
  intros H. destruct (Rle_lt_dec (rnd x) (rnd y)) as [L | L]; [exact L |].
  pose proof (rnd_nearest x (rnd y) (rnd_F y)) as N1.
  pose proof (rnd_nearest y (rnd x) (rnd_F x)) as N2.
  pose proof (rnd_ge_float (rnd y)) as G.
  (* were [rnd y < rnd x], [x] would be at least their midpoint and [y] at
     most *)
  assert ((rnd x + rnd y) / 2 <= x) as Hx.
  { destruct (Rle_lt_dec (rnd x) x) as [C | C]; [lra |].
    destruct (Rle_lt_dec (rnd y) x) as [D | D].
    - rewrite (Rabs_right (rnd x - x)), (Rabs_left1 (rnd y - x)) in N1 by lra.
      lra.
    - rewrite (Rabs_right (rnd x - x)), (Rabs_right (rnd y - x)) in N1 by lra.
      lra. }
  assert (y <= (rnd x + rnd y) / 2) as Hy.
  { destruct (Rle_lt_dec y (rnd y)) as [C | C]; [lra |].
    destruct (Rle_lt_dec y (rnd x)) as [D | D].
    - rewrite (Rabs_left1 (rnd y - y)), (Rabs_right (rnd x - y)) in N2 by lra.
      lra.
    - rewrite (Rabs_left1 (rnd y - y)), (Rabs_left1 (rnd x - y)) in N2 by lra.
      lra. }
  assert (x = y) as -> by lra. lra.
Qed.

Lemma rnd_between (lo hi x : R) :
  F64 lo -> F64 hi -> lo <= x <= hi -> lo <= rnd x <= hi.
Proof.
  intros Hlo Hhi [L U]. split; [now apply rnd_ge_float | now apply rnd_le_float].
Qed.

(** Evaluating a rounding. *)
Lemma rnd_eq (x : R) (k n : Z) :
  bpow k <= Rabs x < bpow (k + 1) ->
  Rabs (x / bpow (fexp k) - IZR n) < 1 / 2 ->
  rnd x = IZR n * bpow (fexp k).
Proof.
  intros Hk Hn. unfold rnd, ulp. rewrite (mag_unique x k Hk).
  now rewrite (rne_unique _ n Hn).
Qed.

Lemma Rabs_le_between (x a : R) : Rabs x <= a -> - a <= x <= a.
Proof. unfold Rabs. destruct (Rcase_abs x); lra. Qed.

Lemma rnd_relative (x : R) :
  x <> 0 -> (-1022 <= mag x)%Z -> Rabs (rnd x - x) <= bpow (-53) * Rabs x.
Proof.
  intros Hx Hm. pose proof (rnd_half_ulp x) as H.
  destruct (mag_spec x Hx) as [L _].
  replace (fexp (mag x)) with (-53 + mag x + 1)%Z in H by (unfold fexp; lia).
  rewrite bpow_succ, bpow_add in H.
  pose proof (bpow_pos (-53)). pose proof (bpow_pos (mag x)). nra.
Qed.

Lemma F64_lt_1 (f : R) : F64 f -> f < 1 -> f <= 1 - bpow (-53).
Proof.
  intros (m & e & -> & Hm & He) H.
  assert (bpow (-53) * IZR (2 ^ 53) = 1) as P.
  { rewrite <- (bpow_nonneg 53) by lia. rewrite <- bpow_add. reflexivity. }
  pose proof (bpow_pos (-53)) as P53.
  destruct (Z_le_gt_dec (-53) e) as [Le | Gt].
  - replace (bpow e) with (IZR (2 ^ (e + 53)) * bpow (-53)) in *.
    2:{ rewrite <- bpow_nonneg by lia. rewrite <- bpow_add. f_equal. lia. }
    rewrite <- Rmult_assoc, <- mult_IZR in *.
    set (j := (m * 2 ^ (e + 53))%Z) in *.
    assert (j < 2 ^ 53)%Z as Hj.
    { apply lt_IZR. apply (Rmult_lt_reg_r (bpow (-53))); [exact P53 |]. lra. }
    assert (IZR j <= IZR (2 ^ 53) - 1) as Hj'
        by (rewrite <- minus_IZR; apply IZR_le; lia).
    nra.
  - assert (Rabs (IZR m * bpow e) < / 2) as Hz.
    { rewrite Rabs_mult, (Rabs_right (bpow e)) by (left; apply bpow_pos).
      apply Rlt_le_trans with (IZR (2 ^ 53) * bpow e).
      - apply Rmult_lt_compat_r; [apply bpow_pos |]. now apply Rabs_IZR_lt.
      - rewrite <- bpow_nonneg by lia. rewrite <- bpow_add.
        replace (/ 2) with (bpow (-1)) by (unfold bpow; simpl; lra).
        apply bpow_le. lia. }
    apply Rabs_def2 in Hz as [Hz _].
    assert (bpow (-53) <= bpow (-1)) by (apply bpow_le; lia).
    replace (bpow (-1)) with (/ 2) in * by (unfold bpow; simpl; lra). lra.
Qed.

Lemma F64_pos_ge (f : R) : F64 f -> 0 < f -> bpow (-1074) <= f.
Proof.
  intros (m & e & -> & Hm & He) H.
  pose proof (bpow_pos e) as Pe.
  assert (0 < IZR m) as Hm0 by nra.
  apply lt_IZR in Hm0. assert (1 <= IZR m) by (apply IZR_le; lia).
  pose proof (bpow_le _ _ He). nra.
Qed.

(** The canonical mantissa of a float in the normal range. *)
Lemma F64_canonical (a : R) :
  F64 a -> a <> 0 -> (-1022 <= mag a)%Z ->
  exists n : Z, a = IZR n * bpow (mag a - 52) /\
                (2 ^ 52 <= Z.abs n < 2 ^ 53)%Z.
Proof.
  intros (m & e & -> & Hm & He) Ha Hk.
  set (a := IZR m * bpow e) in *. set (k := mag a) in *.
  destruct (mag_spec a Ha) as [L U]. fold k in L, U.
  assert (k - 52 <= e)%Z as Hle.
  { destruct (Z_le_gt_dec (k - 52) e) as [Le | Gt]; [exact Le | exfalso].
    assert (Rabs a < bpow k); [| lra].
    unfold a. rewrite Rabs_mult, (Rabs_right (bpow e)) by (left; apply bpow_pos).
    apply Rlt_le_trans with (IZR (2 ^ 53) * bpow e).
    - apply Rmult_lt_compat_r; [apply bpow_pos |]. now apply Rabs_IZR_lt.
    - rewrite <- bpow_nonneg by lia. rewrite <- bpow_add. apply bpow_le. lia. }
  exists (m * 2 ^ (e - (k - 52)))%Z.
  assert (a = IZR (m * 2 ^ (e - (k - 52))) * bpow (k - 52)) as Ea.
  { unfold a. rewrite mult_IZR, <- bpow_nonneg by lia.
    rewrite Rmult_assoc, <- bpow_add. do 2 f_equal. lia. }
  split; [exact Ea |].
  set (n := (m * 2 ^ (e - (k - 52)))%Z) in *.
  rewrite Ea, Rabs_mult, (Rabs_right (bpow (k - 52))) in L, U
    by (left; apply bpow_pos).
  rewrite <- abs_IZR in L, U.
  pose proof (bpow_pos (k - 52)) as P.
  replace (bpow k) with (IZR (2 ^ 52) * bpow (k - 52)) in L.
  2:{ rewrite <- bpow_nonneg by lia. rewrite <- bpow_add. f_equal. lia. }
  replace (bpow (k + 1)) with (IZR (2 ^ 53) * bpow (k - 52)) in U.
  2:{ rewrite <- bpow_nonneg by lia. rewrite <- bpow_add. f_equal. lia. }
  split.
  - apply le_IZR. apply (Rmult_le_reg_r (bpow (k - 52))); [exact P | exact L].
  - apply lt_IZR. apply (Rmult_lt_reg_r (bpow (k - 52))); [exact P | exact U].
Qed.

(** The rounded square root of the rounded square of a float does not
    exceed the float. *)
Lemma rnd_sqrt_square_le (a : R) :
  F64 a -> 0 < a -> (-500 <= mag a <= 500)%Z ->
  rnd (sqrt (rnd (a * a))) <= a.
Proof.
  intros Fa Ha Hk.
  assert (a <> 0) as Ha0 by lra.
  destruct (F64_canonical a Fa Ha0 ltac:(lia)) as (n & Ea & Hn).
  destruct (mag_spec a Ha0) as [L U]. rewrite Rabs_right in L, U by lra.
  set (k := mag a) in *.
  assert (0 < n)%Z as Hn0.
  { apply lt_IZR. pose proof (bpow_pos (k - 52)). nra. }
  pose proof (bpow_pos (k - 52)) as PE.
  assert (bpow (k + 1) = IZR (2 ^ 53) * bpow (k - 52)) as E1.
  { rewrite <- bpow_nonneg by lia. rewrite <- bpow_add. f_equal. lia. }
  assert (IZR n <= IZR (2 ^ 53) - 1) as Hn1
      by (rewrite <- minus_IZR; apply IZR_le; lia).
  (* the rounded square *)
  assert (0 < a * a) as Hsq0 by (apply Rmult_lt_0_compat; lra).
  assert (a * a <> 0) as Hsq by lra.
  assert (bpow (2 * k) <= Rabs (a * a) < bpow (2 * k + 2)) as Hm2.
  { rewrite Rabs_right by lra.
    replace (2 * k)%Z with (k + k)%Z by lia.
    replace (k + k + 2)%Z with ((k + 1) + (k + 1))%Z by lia.
    rewrite (bpow_add k k), (bpow_add (k + 1) (k + 1)).
    pose proof (bpow_pos k). split.
    - apply Rmult_le_compat; lra.
    - apply Rmult_le_0_lt_compat; lra. }
  assert (-1022 <= mag (a * a))%Z as Hmag2.
  { destruct (mag_spec (a * a) Hsq) as [_ U2].
    assert (2 * k < mag (a * a) + 1)%Z by (apply bpow_lt_inv; lra). lia. }
  pose proof (rnd_relative (a * a) Hsq Hmag2) as R.
  rewrite (Rabs_right (a * a)) in R by lra.
  apply Rabs_le_between in R as [_ R].
  set (A := rnd (a * a)) in *.
  assert (0 <= A) as HA.
  { unfold A. apply rnd_ge_float; [apply F64_0 | lra]. }
  pose proof (bpow_pos (-53)) as P53.
  assert (bpow (-53) = 2 * bpow (-54)) as E54
      by (rewrite <- bpow_succ; reflexivity).
  pose proof (bpow_pos (-54)) as P54.
  (* the square root stays below the midpoint above [a] *)
  assert (sqrt A < a + bpow (k - 52) / 2) as Hs.
  { apply Rlt_le_trans with (a * (1 + bpow (-54))).
    - rewrite <- (sqrt_pow2 (a * (1 + bpow (-54))))
        by (apply Rmult_le_pos; lra).
      apply sqrt_lt_1_alt. split; [exact HA |].
      replace ((a * (1 + bpow (-54))) ^ 2)
        with (a * a + bpow (-53) * (a * a)
              + bpow (-54) * bpow (-54) * (a * a)) by (rewrite E54; ring).
      assert (0 < bpow (-54) * bpow (-54) * (a * a))
        by (repeat apply Rmult_lt_0_compat; lra).
      lra.
    - assert (a * bpow (-54) <= bpow (k - 52) / 2); [| lra].
      replace (bpow (k - 52) / 2) with (bpow (k + 1) * bpow (-54)).
      + apply Rmult_le_compat_r; lra.
      + assert (bpow (k - 52) = 2 * (bpow (k + 1) * bpow (-54))) as E2
          by (rewrite <- bpow_add, <- bpow_succ; f_equal; lia).
        lra. }
  set (y := Rmax (sqrt A) a).
  assert (a <= y < a + bpow (k - 52) / 2) as Hy.
  { unfold y. split; [apply Rmax_r |]. apply Rmax_lub_lt; lra. }
  assert (rnd y = a) as Ey.
  { rewrite Ea. replace (k - 52)%Z with (fexp k) by (unfold fexp; lia).
    apply rnd_eq.
    - rewrite Rabs_right by lra. split; [lra |]. rewrite E1. nra.
    - replace (fexp k) with (k - 52)%Z by (unfold fexp; lia).
      replace (y / bpow (k - 52) - IZR n)
        with ((y - a) / bpow (k - 52)) by (rewrite Ea at 1; field; lra).
      rewrite Rabs_right.
      + apply (Rmult_lt_reg_r (bpow (k - 52))); [exact PE |].
        unfold Rdiv. rewrite Rmult_assoc, Rinv_l by lra. lra.
      + apply Rle_ge. apply Rmult_le_pos; [lra |].
        left. now apply Rinv_0_lt_compat. }
  apply Rle_trans with (rnd y); [apply rnd_le, Rmax_l | right; exact Ey].
Qed.

(** ** Nineteen decimal places of [PI] *)

Lemma atan_series_ineq (x : R) (N : nat) :
  0 < x < 1 ->
  sum_f_R0 (tg_alt (Ratan_seq x)) (S (2 * N)) <= atan x
  <= sum_f_R0 (tg_alt (Ratan_seq x)) (2 * N).
Proof.
  intros Hx.
  assert (0 <= x <= 1) as dec by lra.
  pose proof (Ratan_seq_decreasing x dec) as decr.
  pose proof (Ratan_seq_converging x dec) as cv.
  rewrite atan_eq_ps_atan by assumption.
  unfold ps_atan. destruct (Ratan.in_int x) as [h | h]; [| exfalso; apply h; lra].
  destruct (ps_atan_exists_1 x h) as [v Pv].
  exact (alternated_series_ineq _ _ _ decr cv Pv).
Qed.

Lemma denote_atan_sum (env : list R) (x : Enclosure.expr) (n : nat) :
  Enclosure.denote env (PiSeries.atan_sum x n)
  = sum_f_R0 (tg_alt (Ratan_seq (Enclosure.denote env x))) n.
Proof.
  unfold PiSeries.atan_sum. rewrite denote_sum. apply sum_eq. intros i _.
  unfold PiSeries.atan_term, Series.atan_seq, tg_alt, Ratan_seq.
  cbn [Enclosure.denote]. now rewrite <- INR_IZR_INZ.
Qed.

Lemma machin_checked : Enclosure.encloses [] PiSeries.bounds = true.
Proof. vm_compute. reflexivity. Qed.

Lemma PI_machin_bounds : Q2R PiSeries.lo <= PI <= Q2R PiSeries.hi.
Proof.
  pose proof (encloses_sound _ _ machin_checked) as H.
  unfold PiSeries.bounds in H.
  apply Forall_cons_iff in H as [[Hl _] H].
  apply Forall_cons_iff in H as [[_ Hh] _].
  cbn [Enclosure.subject Enclosure.lower Enclosure.upper] in Hl, Hh.
  unfold PiSeries.below, PiSeries.above in Hl, Hh.
  cbn [Enclosure.denote Enclosure.run] in Hl, Hh.
  rewrite !denote_atan_sum in Hl, Hh.
  unfold PiSeries.fifth, PiSeries.part239 in Hl, Hh.
  cbn [Enclosure.denote] in Hl, Hh.
  replace (1 / 5) with (/ 5) in Hl, Hh by lra.
  replace (1 / 239) with (/ 239) in Hl, Hh by lra.
  assert (0 < / 5 < 1) as H5 by lra.
  assert (0 < / 239 < 1) as H239 by lra.
  destruct (atan_series_ineq (/ 5) 6 H5) as [L5 _].
  destruct (atan_series_ineq (/ 5) 6 H5) as [_ U5].
  destruct (atan_series_ineq (/ 239) 1 H239) as [L239 _].
  destruct (atan_series_ineq (/ 239) 2 H239) as [_ U239].
  change (S (2 * 6)) with 13%nat in L5. change (2 * 6)%nat with 12%nat in U5.
  change (S (2 * 1)) with 3%nat in L239. change (2 * 2)%nat with 4%nat in U239.
  pose proof Machin_4_5_239 as M.
  lra.
Qed.

(** Rounding is odd. *)

Lemma mag_opp (x : R) : mag (- x) = mag x.
Proof. unfold Binary64.mag. now rewrite Rabs_Ropp. Qed.

Lemma rne_opp (r : R) : rne (- r) = (- rne r)%Z.
Proof.
  destruct (Zfloor_bound r) as [L U].
  destruct (rne_cases r) as [[E H] | [E H]].
  - destruct H as [H | H].
    + apply rne_unique. rewrite E, opp_IZR.
      replace (- r - - IZR (Zfloor r)) with (- (r - IZR (Zfloor r))) by ring.
      rewrite Rabs_Ropp, Rabs_right by lra. lra.
    + (* a tie, rounded down: the floor is even *)
      assert (Z.even (Zfloor r) = true) as Ev.
      { revert E. unfold Binary64.rne. cbv zeta.
        destruct (Rlt_dec (r - IZR (Zfloor r)) (1 / 2)); [lra |].
        destruct (Rlt_dec (1 / 2) (r - IZR (Zfloor r))); [lra |].
        destruct (Z.even (Zfloor r)); [reflexivity | lia]. }
      assert (Zfloor (- r) = (- Zfloor r - 1)%Z) as Fl.
      { apply Zfloor_eq. rewrite minus_IZR, opp_IZR. lra. }
      rewrite E. unfold Binary64.rne. cbv zeta. rewrite Fl.
      rewrite minus_IZR, opp_IZR.
      destruct (Rlt_dec (- r - (- IZR (Zfloor r) - 1)) (1 / 2)); [lra |].
      destruct (Rlt_dec (1 / 2) (- r - (- IZR (Zfloor r) - 1))); [lra |].
      replace (- Zfloor r - 1)%Z with (- (Zfloor r + 1))%Z by lia.
      rewrite Z.even_opp, Z.even_add, Ev. simpl. lia.
  - destruct H as [H | H].
    + apply rne_unique. rewrite E, opp_IZR, plus_IZR.
      replace (- r - - (IZR (Zfloor r) + 1))
        with (IZR (Zfloor r) + 1 - r) by ring.
      rewrite Rabs_right by lra. lra.
    + (* a tie, rounded up: the floor is odd *)
      assert (Z.even (Zfloor r) = false) as Ev.
      { revert E. unfold Binary64.rne. cbv zeta.
        destruct (Rlt_dec (r - IZR (Zfloor r)) (1 / 2)); [lra |].
        destruct (Rlt_dec (1 / 2) (r - IZR (Zfloor r))); [lra |].
        destruct (Z.even (Zfloor r)); [lia | reflexivity]. }
      assert (Zfloor (- r) = (- Zfloor r - 1)%Z) as Fl.
      { apply Zfloor_eq. rewrite minus_IZR, opp_IZR. lra. }
      rewrite E. unfold Binary64.rne. cbv zeta. rewrite Fl.
      rewrite minus_IZR, opp_IZR.
      destruct (Rlt_dec (- r - (- IZR (Zfloor r) - 1)) (1 / 2)); [lra |].
      destruct (Rlt_dec (1 / 2) (- r - (- IZR (Zfloor r) - 1))); [lra |].
      replace (- Zfloor r - 1)%Z with (- (Zfloor r + 1))%Z by lia.
      rewrite Z.even_opp, Z.even_add, Ev. simpl. lia.
Qed.

Lemma rnd_opp (x : R) : rnd (- x) = - rnd x.
Proof.
  unfold Binary64.rnd, Binary64.ulp. rewrite mag_opp.
  replace (- x / bpow (fexp (mag x))) with (- (x / bpow (fexp (mag x))))
    by (unfold Rdiv; ring).
  rewrite rne_opp, opp_IZR. ring.
Qed.

(** Powers of two as numerals. *)

Lemma bpow_neg (n : Z) : (0 <= n)%Z -> bpow (- n) = / IZR (2 ^ n).
Proof. intros H. now rewrite bpow_opp, bpow_nonneg. Qed.

Ltac bpow_num :=
  repeat match goal with
    | |- context [Binary64.bpow ?e] =>
        let e' := eval vm_compute in e in
        match e' with
        | Z0 => replace (Binary64.bpow e) with 1 by (symmetry; exact bpow_0)
        | Zpos ?p =>
            let v := eval vm_compute in (2 ^ Zpos p)%Z in
            replace (Binary64.bpow e) with (IZR v)
              by (symmetry; exact (bpow_nonneg (Zpos p) ltac:(lia)))
        | Zneg ?p =>
            let v := eval vm_compute in (2 ^ Zpos p)%Z in
            replace (Binary64.bpow e) with (/ IZR v)
              by (symmetry; exact (bpow_neg (Zpos p) ltac:(lia)))
        end
    end.

(** The largest finite number. *)

Lemma omega_ge : bpow 1023 <= omega.
Proof.
  unfold Binary64.omega. replace 1023%Z with (52 + 971)%Z by lia.
  rewrite bpow_add. rewrite (bpow_nonneg 52) by lia.
  apply Rmult_le_compat_r; [left; apply bpow_pos |].
  apply IZR_le. vm_compute. discriminate.
Qed.

Lemma round_num (x lo hi : R) :
  F64 lo -> F64 hi -> - omega <= lo -> hi <= omega -> lo <= x <= hi ->
  round x = Num (rnd x) /\ lo <= rnd x <= hi.
Proof.
  intros Flo Fhi Hlo Hhi Hx.
  pose proof (rnd_between lo hi x Flo Fhi Hx) as B.
  split; [| exact B]. unfold Binary64.round.
  destruct (Rle_dec (Rabs (rnd x)) omega) as [H | H]; [reflexivity |].
  exfalso. apply H. apply Rabs_le. lra.
Qed.

Lemma round_F64 (x : R) : F64 x -> Rabs x <= omega -> round x = Num x.
Proof.
  intros Fx Hx. unfold Binary64.round. rewrite (rnd_fix x Fx).
  destruct (Rle_dec (Rabs x) omega); [reflexivity | contradiction].
Qed.

Lemma round_0 : round 0 = Num 0.
Proof.
  apply round_F64; [apply F64_0 |]. rewrite Rabs_R0.
  pose proof omega_ge. pose proof (bpow_pos 1023). lra.
Qed.

Lemma bpow_le_omega (e : Z) : (e <= 1023)%Z -> bpow e <= omega.
Proof.
  intros H. eapply Rle_trans; [apply bpow_le; exact H | apply omega_ge].
Qed.

(** ** The constants of the angle conversions *)


Lemma PI_bounds : 3.1415926535897932384 <= PI <= 3.1415926535897932386.
Proof. exact PI_machin_bounds. Qed.

Lemma rnd_half_PI : rnd (PI / 2) = half_pi.
Proof.
  pose proof PI_bounds as [L U].
  unfold Binary64.half_pi. change (-52)%Z with (fexp 0).
  apply rnd_eq.
  - rewrite Rabs_right by lra. bpow_num. lra.
  - change (fexp 0) with (-52)%Z. bpow_num.
    apply Rabs_def1; lra.
Qed.

Lemma pi_eq : Binary64.pi = 2 * half_pi.
Proof.
  pose proof PI_bounds as [L U].
  unfold Binary64.pi, half_pi.
  replace (2 * (IZR 7074237752028440 * bpow (-52)))
    with (IZR 7074237752028440 * bpow (fexp 1)).
  - apply rnd_eq.
    + rewrite Rabs_right by lra. bpow_num. lra.
    + change (fexp 1) with (-51)%Z. bpow_num. apply Rabs_def1; lra.
  - change (fexp 1) with (-52 + 1)%Z. rewrite bpow_succ. ring.
Qed.

Lemma half_pi_bounds :
  6.1e-17 <= PI / 2 - half_pi <= 6.2e-17.
Proof.
  pose proof PI_bounds as [L U]. unfold Binary64.half_pi. bpow_num. lra.
Qed.

Lemma rad2deg_eq : Binary64.rad2deg = IZR 8063664102031864 * bpow (-47).
Proof.
  unfold Binary64.rad2deg. rewrite pi_eq. unfold Binary64.half_pi.
  change (-47)%Z with (fexp 5). apply rnd_eq.
  - bpow_num. rewrite Rabs_right by lra. lra.
  - change (fexp 5) with (-47)%Z. bpow_num. apply Rabs_def1; lra.
Qed.


Lemma degrees_half_pi : rnd (half_pi * Binary64.rad2deg) = 90.
Proof.
  rewrite rad2deg_eq. unfold Binary64.half_pi.
  replace 90 with (IZR 6333186975989760 * bpow (fexp 6)).
  - apply rnd_eq.
    + bpow_num. rewrite Rabs_right by lra. lra.
    + change (fexp 6) with (-46)%Z. bpow_num. apply Rabs_def1; lra.
  - change (fexp 6) with (-46)%Z. bpow_num. lra.
Qed.


(** ** The two angles stay within a quarter turn *)

Lemma F64_half_pi : F64 half_pi.
Proof. rewrite <- rnd_half_PI. apply rnd_F. Qed.

Lemma half_pi_range : 1 < half_pi < 2.
Proof. pose proof half_pi_bounds. pose proof PI_bounds. lra. Qed.

Lemma rnd_atan_range (x : R) : - half_pi <= rnd (atan x) <= half_pi.
Proof.
  destruct (atan_bound x) as [L U]. split.
  - rewrite <- rnd_half_PI, <- rnd_opp. apply rnd_le. lra.
  - rewrite <- rnd_half_PI. apply rnd_le. lra.
Qed.

Lemma omega_ge_128 : 128 <= omega.
Proof.
  eapply Rle_trans; [| apply (bpow_le_omega 7); lia]. bpow_num. lra.
Qed.

Lemma omega_ge_2 : 2 <= omega.
Proof.
  eapply Rle_trans; [| apply (bpow_le_omega 1); lia]. rewrite bpow_1. lra.
Qed.

Lemma round_half_pi : round (PI / 2) = Num half_pi.
Proof.
  unfold Binary64.round. rewrite rnd_half_PI.
  destruct (Rle_dec (Rabs half_pi) omega) as [H | H]; [reflexivity |].
  exfalso. apply H. pose proof half_pi_range. pose proof omega_ge_2.
  rewrite Rabs_right; lra.
Qed.

Lemma round_opp_half_pi : round (- (PI / 2)) = Num (- half_pi).
Proof.
  unfold Binary64.round. rewrite rnd_opp, rnd_half_PI, Rabs_Ropp.
  destruct (Rle_dec (Rabs half_pi) omega) as [H | H]; [reflexivity |].
  exfalso. apply H. pose proof half_pi_range. pose proof omega_ge_2.
  rewrite Rabs_right; lra.
Qed.

Lemma arctan_range (v : Binary64.value) :
  Binary64.arctan v = NaN \/
  exists t : R, Binary64.arctan v = Num t /\ - half_pi <= t <= half_pi.
Proof.
  pose proof half_pi_range as Hc. pose proof omega_ge_2 as Ho.
  destruct v as [x | [|] |]; cbn [Binary64.arctan].
  - right. exists (rnd (atan x)). pose proof (rnd_atan_range x) as R.
    split; [| exact R]. unfold Binary64.round.
    destruct (Rle_dec (Rabs (rnd (atan x))) omega) as [H | H];
      [reflexivity |].
    exfalso. apply H. apply Rabs_le. lra.
  - right. exists (- half_pi). split; [apply round_opp_half_pi | lra].
  - right. exists half_pi. split; [apply round_half_pi | lra].
  - now left.
Qed.

Lemma rad2deg_pos : 0 < Binary64.rad2deg.
Proof. rewrite rad2deg_eq. bpow_num. lra. Qed.

Lemma degrees_range (t : R) :
  - half_pi <= t <= half_pi ->
  exists d : R, Binary64.degrees (Num t) = Num d /\ -90 <= d <= 90.
Proof.
  intros Ht. pose proof rad2deg_pos as Hk.
  exists (rnd (t * Binary64.rad2deg)).
  assert (-90 <= rnd (t * Binary64.rad2deg) <= 90) as R.
  { split.
    - replace (-90) with (- rnd (half_pi * Binary64.rad2deg))
        by (rewrite degrees_half_pi; lra).
      rewrite <- rnd_opp. apply rnd_le.
      replace (- (half_pi * Binary64.rad2deg))
        with (- half_pi * Binary64.rad2deg) by ring.
      apply Rmult_le_compat_r; lra.
    - rewrite <- degrees_half_pi. apply rnd_le.
      apply Rmult_le_compat_r; lra. }
  split; [| exact R]. unfold Binary64.degrees, Binary64.mul, Binary64.round.
  destruct (Rle_dec (Rabs (rnd (t * Binary64.rad2deg))) omega) as [H | H];
    [reflexivity |].
  exfalso. apply H. apply Rabs_le.
  pose proof omega_ge_128. lra.
Qed.

Lemma degrees_arctan_quarter_turn (v : Binary64.value) :
  Binary64.quarter_turn (Binary64.degrees (Binary64.arctan v)).
Proof.
  destruct (arctan_range v) as [-> | (t & -> & Ht)].
  - exact I.
  - destruct (degrees_range t Ht) as (d & -> & Hd). exact Hd.
Qed.

Lemma round_finite (x : R) :
  Rabs (rnd x) <= omega -> round x = Num (rnd x).
Proof.
  intros H. unfold Binary64.round.
  destruct (Rle_dec (Rabs (rnd x)) omega); [reflexivity | contradiction].
Qed.

Lemma round_within (x lo hi : R) (e : Z) :
  (e <= 1023)%Z -> - bpow e <= lo -> hi <= bpow e ->
  lo <= rnd x <= hi -> round x = Num (rnd x).
Proof.
  intros He Hlo Hhi H. apply round_finite. apply Rabs_le.
  pose proof (bpow_le_omega e He). lra.
Qed.

Lemma mag_le (x : R) (e : Z) : x <> 0 -> Rabs x <= bpow e -> (mag x <= e)%Z.
Proof.
  intros Hx H. destruct (mag_spec x Hx) as [L _].
  destruct (Z_le_gt_dec (mag x) e) as [C | C]; [exact C | exfalso].
  assert (bpow e < bpow (mag x)) by (apply bpow_lt; lia). lra.
Qed.

Lemma mag_ge (x : R) (e : Z) : bpow e <= Rabs x -> (e <= mag x)%Z.
Proof.
  intros H.
  assert (x <> 0) as Hx.
  { intros ->. rewrite Rabs_R0 in H. pose proof (bpow_pos e). lra. }
  destruct (mag_spec x Hx) as [_ U].
  assert (e < mag x + 1)%Z by (apply bpow_lt_inv; lra). lia.
Qed.

(** ** The derived constants in binary64 *)

Lemma derived_binary64_bounds (a f : R) :
  F64 a -> F64 f -> bpow (-500) <= a <= bpow 500 -> 0 < f < 1 ->
  exists b e : R,
    Binary64.Derived.b (Num a) (Num f) = Num b /\
    Binary64.Derived.e (Num a) (Num b) = Num e /\
    0 < b <= a /\ 0 <= e <= 1 /\
    (Binary64.Derived.e_prime (Num e) = Inf false \/
     exists e' : R, Binary64.Derived.e_prime (Num e) = Num e' /\ e <= e').
Proof.
  intros Fa Ff Ha Hf.
  pose proof (bpow_pos (-500)) as P500.
  assert (0 < a) as Ha0 by lra.
  assert (a <= omega) as Hao
      by (eapply Rle_trans; [apply Ha | apply bpow_le_omega; lia]).
  (* 1 - f *)
  pose proof (F64_lt_1 f Ff ltac:(lra)) as Hf1.
  pose proof (bpow_pos (-53)) as P53.
  set (t := rnd (1 + - f)).
  assert (bpow (-53) <= t <= 1) as Ht.
  { apply rnd_between; [apply F64_bpow; lia | apply (F64_Z 1); lia | lra]. }
  assert (Binary64.sub (Num 1) (Num f) = Num t) as Et.
  { cbn [Binary64.sub Binary64.opp Binary64.add].
    apply (round_within _ (bpow (-53)) 1 0); [lia | | | exact Ht];
      rewrite ?bpow_0; lra. }
  (* b *)
  set (b := rnd (a * t)).
  assert (bpow (-553) <= b <= a) as Hb.
  { apply rnd_between; [apply F64_bpow; lia | exact Fa |]. split.
    - replace (-553)%Z with (-500 + -53)%Z by lia. rewrite bpow_add.
      apply Rmult_le_compat; lra.
    - rewrite <- (Rmult_1_r a) at 2. apply Rmult_le_compat_l; lra. }
  pose proof (bpow_pos (-553)) as P553.
  assert (Binary64.Derived.b (Num a) (Num f) = Num b) as Eb.
  { unfold Binary64.Derived.b. rewrite Et. cbn [Binary64.mul].
    apply (round_within _ (bpow (-553)) a 500); [lia | lra | lra | exact Hb]. }
  exists b.
  (* the squares *)
  assert (bpow (-1000) <= a ^ 2 <= bpow 1000) as Ha2.
  { replace (-1000)%Z with (-500 + -500)%Z by lia.
    replace 1000%Z with (500 + 500)%Z by lia. rewrite !bpow_add.
    replace (a ^ 2) with (a * a) by ring. split; apply Rmult_le_compat; lra. }
  pose proof (bpow_pos (-1000)) as P1000.
  set (A := rnd (a ^ 2)).
  assert (bpow (-1000) <= A <= bpow 1000) as HA
      by (apply rnd_between; [apply F64_bpow; lia | apply F64_bpow; lia | exact Ha2]).
  assert (Binary64.power (Num a) 2 = Num A) as EA.
  { cbn [Binary64.power].
    apply (round_within _ (bpow (-1000)) (bpow 1000) 1000);
      [lia | lra | lra | exact HA]. }
  set (B := rnd (b ^ 2)).
  assert (0 <= b ^ 2 <= a ^ 2) as Hb2.
  { replace (b ^ 2) with (b * b) by ring. replace (a ^ 2) with (a * a) by ring.
    split; [apply Rmult_le_pos; lra | apply Rmult_le_compat; lra]. }
  assert (0 <= B <= A) as HB.
  { split; [apply rnd_ge_float; [apply F64_0 | lra] | apply rnd_le; lra]. }
  assert (Binary64.power (Num b) 2 = Num B) as EB.
  { cbn [Binary64.power].
    apply (round_within _ 0 (bpow 1000) 1000); [lia | | lra |].
    - pose proof (bpow_pos 1000). lra.
    - split; [apply HB | eapply Rle_trans; [apply HB | apply HA]]. }
  (* the difference and its root *)
  set (D := rnd (A + - B)).
  assert (0 <= D <= A) as HD.
  { apply rnd_between; [apply F64_0 | apply rnd_F | lra]. }
  assert (Binary64.sub (Num A) (Num B) = Num D) as ED.
  { cbn [Binary64.sub Binary64.opp Binary64.add].
    apply (round_within _ 0 (bpow 1000) 1000); [lia | | lra |].
    - pose proof (bpow_pos 1000). lra.
    - split; [apply HD | eapply Rle_trans; [apply HD | apply HA]]. }
  set (S := rnd (sqrt D)).
  assert (0 <= S <= a) as HS.
  { split.
    - apply rnd_ge_float; [apply F64_0 | apply sqrt_pos].
    - apply Rle_trans with (rnd (sqrt A)).
      + apply rnd_le, sqrt_le_1_alt. lra.
      + unfold A. replace (a ^ 2) with (a * a) by ring.
        apply rnd_sqrt_square_le; [exact Fa | exact Ha0 |].
        split; [apply mag_ge | apply mag_le]; rewrite ?Rabs_right; lra. }
  assert (Binary64.root (Num D) = Num S) as ES.
  { cbn [Binary64.root]. destruct (Rlt_dec D 0) as [C | _]; [lra |].
    apply (round_within _ 0 a 500); [lia | | lra | exact HS].
    pose proof (bpow_pos 500). lra. }
  (* e *)
  set (e := rnd (S / a)).
  assert (0 <= S / a <= 1) as Hq.
  { split.
    - apply Rmult_le_pos; [lra | left; now apply Rinv_0_lt_compat].
    - apply (Rmult_le_reg_r a); [exact Ha0 |].
      unfold Rdiv. rewrite Rmult_assoc, Rinv_l by lra. lra. }
  assert (0 <= e <= 1) as He
      by (apply rnd_between; [apply F64_0 | apply (F64_Z 1); lia | exact Hq]).
  assert (Binary64.Derived.e (Num a) (Num b) = Num e) as Ee.
  { unfold Binary64.Derived.e. rewrite EA, EB, ED, ES. cbn [Binary64.div].
    destruct (Req_dec_T a 0) as [C | _]; [lra |].
    apply (round_within _ 0 1 0); [lia | | | exact He]; rewrite bpow_0; lra. }
  exists e. split; [exact Eb |]. split; [exact Ee |].
  split; [lra |]. split; [exact He |].
  (* e' *)
  set (E2 := rnd (e ^ 2)).
  assert (0 <= e ^ 2 <= 1) as He2.
  { replace (e ^ 2) with (e * e) by ring. split; [apply Rmult_le_pos; lra |].
    rewrite <- (Rmult_1_r 1). apply Rmult_le_compat; lra. }
  assert (0 <= E2 <= 1) as HE2
      by (apply rnd_between; [apply F64_0 | apply (F64_Z 1); lia | exact He2]).
  assert (Binary64.power (Num e) 2 = Num E2) as EE2.
  { cbn [Binary64.power].
    apply (round_within _ 0 1 0); [lia | | | exact HE2]; rewrite bpow_0; lra. }
  set (Q := rnd (1 + - E2)).
  assert (0 <= Q <= 1) as HQ
      by (apply rnd_between; [apply F64_0 | apply (F64_Z 1); lia | lra]).
  assert (Binary64.sub (Num 1) (Num E2) = Num Q) as EQ.
  { cbn [Binary64.sub Binary64.opp Binary64.add].
    apply (round_within _ 0 1 0); [lia | | | exact HQ]; rewrite bpow_0; lra. }
  set (r := rnd (sqrt Q)).
  assert (0 <= sqrt Q <= 1) as HsQ.
  { split; [apply sqrt_pos |]. rewrite <- sqrt_1. apply sqrt_le_1_alt. lra. }
  assert (0 <= r <= 1) as Hr
      by (apply rnd_between; [apply F64_0 | apply (F64_Z 1); lia | exact HsQ]).
  assert (Binary64.root (Num Q) = Num r) as Er.
  { cbn [Binary64.root]. destruct (Rlt_dec Q 0) as [C | _]; [lra |].
    apply (round_within _ 0 1 0); [lia | | | exact Hr]; rewrite bpow_0; lra. }
  unfold Binary64.Derived.e_prime. rewrite EE2, EQ, Er. cbn [Binary64.div].
  destruct (Req_dec_T r 0) as [R0 | R0].
  - (* the root vanishes: e = 1 and e' is +inf *)
    left. destruct (Req_dec_T e 0) as [E0 | E0].
    + exfalso. unfold r, Q, E2 in R0. rewrite E0 in R0.
      replace (0 ^ 2) with 0 in R0 by ring. rewrite rnd_0 in R0.
      replace (1 + - 0) with 1 in R0 by ring.
      rewrite (rnd_fix 1) in R0 by (apply (F64_Z 1); lia).
      rewrite sqrt_1, (rnd_fix 1) in R0 by (apply (F64_Z 1); lia). lra.
    + unfold Binary64.negative. destruct (Rlt_dec e 0); [lra | reflexivity].
  - right. exists (rnd (e / r)).
    assert (0 < r) as Hr0 by lra.
    assert (Q <> 0) as HQ0.
    { intros C. unfold r in R0. rewrite C, sqrt_0, rnd_0 in R0. lra. }
    assert (E2 < 1) as HE21.
    { destruct (Rlt_le_dec E2 1) as [C | C]; [exact C | exfalso].
      assert (E2 = 1) as E1 by lra. apply HQ0. unfold Q. rewrite E1.
      replace (1 + Ropp 1) with 0 by ring. apply rnd_0. }
    pose proof (F64_lt_1 E2 (rnd_F _) HE21) as HE2'.
    assert (bpow (-53) <= Q) as HQ1
        by (apply rnd_ge_float; [apply F64_bpow; lia | lra]).
    assert (bpow (-27) <= sqrt Q) as HsQ1.
    { rewrite <- (sqrt_pow2 (bpow (-27))) by (left; apply bpow_pos).
      apply sqrt_le_1_alt.
      replace (bpow (-27) ^ 2) with (bpow (-27) * bpow (-27)) by ring.
      rewrite <- bpow_add. eapply Rle_trans; [| exact HQ1].
      apply bpow_le. lia. }
    assert (bpow (-27) <= r) as Hr1
        by (apply rnd_ge_float; [apply F64_bpow; lia | exact HsQ1]).
    pose proof (bpow_pos (-27)) as P27.
    assert (e <= e / r <= bpow 27) as Hq'.
    { split.
      - apply (Rmult_le_reg_r r); [exact Hr0 |].
        unfold Rdiv. rewrite Rmult_assoc, Rinv_l by lra.
        rewrite Rmult_1_r. rewrite <- (Rmult_1_r e) at 2.
        apply Rmult_le_compat_l; lra.
      - apply (Rmult_le_reg_r r); [exact Hr0 |].
        unfold Rdiv. rewrite Rmult_assoc, Rinv_l by lra.
        apply Rle_trans with 1; [lra |].
        replace 1 with (bpow 27 * bpow (-27))
          by (rewrite <- bpow_add; reflexivity).
        apply Rmult_le_compat_l; [left; apply bpow_pos | exact Hr1]. }
    assert (e <= rnd (e / r) <= bpow 27) as He'.
    { apply rnd_between; [apply rnd_F | apply F64_bpow; lia | exact Hq']. }
    split; [| apply He'].
    apply (round_within _ e (bpow 27) 27); [lia | | lra | exact He'].
    pose proof (bpow_pos 27). lra.
Qed.

Lemma F64_int (n : Z) : (Z.abs n <? 2 ^ 53)%Z = true -> F64 (IZR n).
Proof. intros H. apply F64_Z. now apply Z.ltb_lt. Qed.

Lemma F64_dyadic (m e : Z) :
  (Z.abs m <? 2 ^ 53)%Z = true -> (-1074 <=? e)%Z = true ->
  F64 (IZR m * bpow e).
Proof.
  intros Hm He. exists m, e. repeat split.
  - now apply Z.ltb_lt.
  - now apply Z.leb_le.
Qed.

(** Rounding a number known between two numbers of the format that are
    themselves within [2^e]. *)
Lemma round_between (x lo hi : R) (e : Z) :
  F64 lo -> F64 hi -> (e <=? 1023)%Z = true ->
  - bpow e <= lo -> hi <= bpow e -> lo <= x <= hi ->
  round x = Num (rnd x) /\ lo <= rnd x <= hi /\ F64 (rnd x).
Proof.
  intros Flo Fhi He Hlo Hhi Hx. apply Z.leb_le in He.
  pose proof (rnd_between lo hi x Flo Fhi Hx) as B.
  split; [| split; [exact B | apply rnd_F]].
  now apply (round_within x lo hi e).
Qed.

(** ** The constants of the notebook in binary64 *)

Lemma grs80_a : Binary64.Grs80.a = Num 6378137.
Proof.
  unfold Binary64.Grs80.a, Binary64.lit.
  replace 6378137.0 with 6378137 by lra.
  apply round_F64; [now apply (F64_int 6378137) |].
  eapply Rle_trans; [| apply (bpow_le_omega 23); lia].
  rewrite Rabs_right by lra. bpow_num. lra.
Qed.

Lemma sqrt_between (x lo hi : R) :
  0 <= lo -> 0 <= hi -> lo * lo <= x <= hi * hi -> lo <= sqrt x <= hi.
Proof.
  intros Hlo Hhi [L U]. split.
  - rewrite <- (sqrt_square lo Hlo). apply sqrt_le_1_alt. exact L.
  - rewrite <- (sqrt_square hi Hhi). apply sqrt_le_1_alt. exact U.
Qed.

Lemma sq_between (x lo hi : R) :
  0 <= lo -> lo <= x <= hi -> lo * lo <= x ^ 2 <= hi * hi.
Proof.
  intros Hlo [L U]. replace (x ^ 2) with (x * x) by ring.
  split; apply Rmult_le_compat; lra.
Qed.

(** ** Sine, cosine and arctangent next to a quarter turn *)





Lemma rnd_near_1 (x : R) : 1 - bpow (-55) <= x <= 1 -> rnd x = 1.
Proof.
  intros [L U].
  assert (F64 1) as F1 by (apply (F64_Z 1); lia).
  pose proof (rnd_le_float 1 x F1 U) as H.
  destruct H as [H | H]; [exfalso | exact H].
  pose proof (F64_lt_1 (rnd x) (rnd_F x) H) as G.
  pose proof (rnd_nearest x 1 F1) as N.
  assert (bpow (-53) = 4 * bpow (-55)) as E.
  { replace (-53)%Z with (-55 + 1 + 1)%Z by lia. rewrite !bpow_succ. ring. }
  pose proof (bpow_pos (-55)) as P.
  rewrite (Rabs_left (rnd x - x)), (Rabs_right (1 - x)) in N by lra. lra.
Qed.

Lemma atan_le_x (x : R) : 0 < x < 1 -> 0 < atan x <= x.
Proof.
  intros Hx. split.
  - rewrite <- atan_0. apply atan_increasing. lra.
  - destruct (atan_series_ineq x 0 Hx) as [_ U].
    unfold tg_alt, Ratan_seq in U. simpl in U. lra.
Qed.

(** The arctangent of a number from [6e15] on rounds to [half_pi]. *)
Lemma rnd_atan_large (q : R) : 6e15 <= q -> rnd (atan q) = half_pi.
Proof.
  intros Hq. assert (0 < q) as Hq0 by lra.
  pose proof (atan_inv q Hq0) as I.
  assert (0 < / q < 1) as Hi.
  { split; [now apply Rinv_0_lt_compat |].
    rewrite <- Rinv_1. apply Rinv_lt_contravar; lra. }
  pose proof (atan_le_x (/ q) Hi) as [A0 A1].
  assert (/ q <= / 6e15) as Hi' by (apply Rinv_le_contravar; lra).
  pose proof half_pi_bounds as D. pose proof PI_bounds as P.
  unfold Binary64.half_pi in *. change (-52)%Z with (fexp 0).
  apply rnd_eq.
  - rewrite Rabs_right by lra. bpow_num. revert D. bpow_num. lra.
  - change (fexp 0) with (-52)%Z. revert D. bpow_num. intros D.
    apply Rabs_def1; lra.
Qed.


(** ** Operations whose result is exact *)

Lemma round_1 : round 1 = Num 1.
Proof.
  apply round_F64; [apply (F64_Z 1); lia |].
  rewrite Rabs_right by lra. pose proof omega_ge_2. lra.
Qed.

Lemma lit_0 : Binary64.lit 0.0 = Num 0.
Proof. unfold Binary64.lit. replace 0.0 with 0 by lra. apply round_0. Qed.

Lemma mul_0_l (y : R) : Binary64.mul (Num 0) (Num y) = Num 0.
Proof. cbn [Binary64.mul]. rewrite Rmult_0_l. apply round_0. Qed.

Lemma mul_0_r (x : R) : Binary64.mul (Num x) (Num 0) = Num 0.
Proof. cbn [Binary64.mul]. rewrite Rmult_0_r. apply round_0. Qed.

Lemma mul_1_r (x : R) :
  F64 x -> Rabs x <= omega -> Binary64.mul (Num x) (Num 1) = Num x.
Proof.
  intros Fx Hx. cbn [Binary64.mul]. rewrite Rmult_1_r. now apply round_F64.
Qed.

Lemma div_1_r (x : R) :
  F64 x -> Rabs x <= omega -> Binary64.div (Num x) (Num 1) = Num x.
Proof.
  intros Fx Hx. cbn [Binary64.div].
  destruct (Req_dec_T 1 0) as [C | _]; [lra |].
  replace (x / 1) with x by field. now apply round_F64.
Qed.

Lemma div_0_l (y : R) : y <> 0 -> Binary64.div (Num 0) (Num y) = Num 0.
Proof.
  intros Hy. cbn [Binary64.div].
  destruct (Req_dec_T y 0) as [C | _]; [contradiction |].
  replace (0 / y) with 0 by (unfold Rdiv; ring). apply round_0.
Qed.

Lemma add_0_0 : Binary64.add (Num 0) (Num 0) = Num 0.
Proof. cbn [Binary64.add]. rewrite Rplus_0_l. apply round_0. Qed.


Lemma sub_diag (x : R) : Binary64.sub (Num x) (Num x) = Num 0.
Proof.
  cbn [Binary64.sub Binary64.opp Binary64.add].
  rewrite Rplus_opp_r. apply round_0.
Qed.

Lemma power_0 (n : nat) : Binary64.power (Num 0) (S n) = Num 0.
Proof.
  cbn [Binary64.power]. rewrite pow_ne_zero by discriminate. apply round_0.
Qed.

Lemma power_1 (n : nat) : Binary64.power (Num 1) n = Num 1.
Proof. cbn [Binary64.power]. rewrite pow1. apply round_1. Qed.


Lemma root_0 : Binary64.root (Num 0) = Num 0.
Proof.
  cbn [Binary64.root]. destruct (Rlt_dec 0 0) as [C | _]; [lra |].
  rewrite sqrt_0. apply round_0.
Qed.

Lemma root_1 : Binary64.root (Num 1) = Num 1.
Proof.
  cbn [Binary64.root]. destruct (Rlt_dec 1 0) as [C | _]; [lra |].
  rewrite sqrt_1. apply round_1.
Qed.

Lemma arctan_0 : Binary64.arctan (Num 0) = Num 0.
Proof. cbn [Binary64.arctan]. rewrite atan_0. apply round_0. Qed.

Lemma degrees_zero : Binary64.degrees (Num 0) = Num 0.
Proof. apply mul_0_l. Qed.

Lemma sin_deg_zero : Binary64.sin_deg (Num 0) = Num 0.
Proof.
  unfold Binary64.sin_deg, Binary64.radians. rewrite mul_0_l.
  cbn [Binary64.sin]. rewrite sin_0. apply round_0.
Qed.

Lemma cos_deg_zero : Binary64.cos_deg (Num 0) = Num 1.
Proof.
  unfold Binary64.cos_deg, Binary64.radians. rewrite mul_0_l.
  cbn [Binary64.cos]. rewrite cos_0. apply round_1.
Qed.

(** ** A quarter turn and back *)

Lemma degrees_of_half_pi : Binary64.degrees (Num half_pi) = Num 90.
Proof.
  unfold Binary64.degrees. cbn [Binary64.mul].
  rewrite <- degrees_half_pi. apply round_finite.
  rewrite degrees_half_pi, Rabs_right by lra. pose proof omega_ge_128. lra.
Qed.







(** [np.arctan] of a quotient beyond [6e15] and [np.degrees] of it. *)
Lemma degrees_arctan_large (q : R) :
  6e15 <= q -> Binary64.degrees (Binary64.arctan (Num q)) = Num 90.
Proof.
  intros Hq. cbn [Binary64.arctan].
  rewrite <- degrees_of_half_pi. f_equal.
  rewrite <- (rnd_atan_large q Hq). apply round_finite.
  rewrite (rnd_atan_large q Hq).
  pose proof half_pi_range. pose proof omega_ge_2. rewrite Rabs_right; lra.
Qed.


(** ** The values of the derived constants *)

Lemma sqrt_strictly_between (x lo hi : R) :
  0 <= lo -> 0 <= hi -> lo * lo < x < hi * hi -> lo < sqrt x < hi.
Proof.
  intros Hlo Hhi [L U].
  assert (0 <= lo * lo) by (apply Rmult_le_pos; lra). split.
  - rewrite <- (sqrt_square lo Hlo). apply sqrt_lt_1_alt. lra.
  - rewrite <- (sqrt_square hi Hhi). apply sqrt_lt_1_alt. lra.
Qed.

(** A rounding, evaluated and finite. *)
Lemma round_eq (x : R) (k n : Z) :
  (-1074 <=? k)%Z = true -> (k <=? 1022)%Z = true ->
  bpow k <= Rabs x < bpow (k + 1) ->
  Rabs (x / bpow (fexp k) - IZR n) < 1 / 2 ->
  round x = Num (IZR n * bpow (fexp k)).
Proof.
  intros Hk0 Hk Hm Hn. apply Z.leb_le in Hk0, Hk.
  pose proof (rnd_eq x k n Hm Hn) as E. rewrite <- E.
  assert (F64 (bpow (k + 1))) as Fk by (apply F64_bpow; lia).
  assert (- bpow (k + 1) <= x <= bpow (k + 1)) as Hx.
  { destruct Hm as [_ Hm]. apply Rabs_def2 in Hm. lra. }
  apply (round_within x (- bpow (k + 1)) (bpow (k + 1)) (k + 1));
    [lia | lra | lra |].
  apply rnd_between; [now apply F64_opp | exact Fk | exact Hx].
Qed.

Lemma grs80_f_value :
  Binary64.Grs80.f = Num (IZR 7731055070424294 * bpow (-61)).
Proof.
  unfold Binary64.Grs80.f, Binary64.lit.
  change (-61)%Z with (fexp (-9)). apply round_eq; try reflexivity.
  - rewrite Rabs_right by lra. bpow_num. lra.
  - change (fexp (-9)) with (-61)%Z. bpow_num. apply Rabs_def1; lra.
Qed.

Lemma grs80_values :
  Binary64.grs80
  = Binary64.Ellipsoid.Build (Num 6378137) (Num Binary64.grs80_b)
      (Num Binary64.grs80_e) (Num Binary64.grs80_e_prime).
Proof.
  unfold Binary64.grs80, Binary64.deriveEllipsoidModel.
  rewrite grs80_a, grs80_f_value.
  (* b *)
  assert (Binary64.Derived.b (Num 6378137)
            (Num (IZR 7731055070424294 * bpow (-61)))
          = Num Binary64.grs80_b) as Eb.
  { unfold Binary64.Derived.b.
    cbn [Binary64.sub Binary64.opp Binary64.add].
    rewrite (round_eq _ (-1) 8976999820872147); try reflexivity.
    - cbn [Binary64.mul]. unfold Binary64.grs80_b.
      change (-30)%Z with (fexp 22). apply round_eq; try reflexivity.
      + change (fexp (-1)) with (-53)%Z. bpow_num.
        rewrite Rabs_right by lra. lra.
      + change (fexp (-1)) with (-53)%Z. change (fexp 22) with (-30)%Z.
        bpow_num. apply Rabs_def1; lra.
    - bpow_num. rewrite Rabs_right by lra. lra.
    - change (fexp (-1)) with (-53)%Z. bpow_num. apply Rabs_def1; lra. }
  rewrite Eb.
  (* e *)
  assert (Binary64.Derived.e (Num 6378137) (Num Binary64.grs80_b)
          = Num Binary64.grs80_e) as Ee.
  { unfold Binary64.Derived.e. cbn [Binary64.power].
    replace (6378137 ^ 2) with 40680631590769 by lra.
    rewrite (round_F64 40680631590769).
    2:{ apply (F64_int 40680631590769); reflexivity. }
    2:{ eapply Rle_trans; [| apply (bpow_le_omega 46); lia].
        rewrite Rabs_right by lra. bpow_num. lra. }
    rewrite (round_eq (Binary64.grs80_b ^ 2) 45 5172262397866069);
      try reflexivity.
    2:{ unfold Binary64.grs80_b. bpow_num. rewrite Rabs_right by lra. lra. }
    2:{ unfold Binary64.grs80_b. change (fexp 45) with (-7)%Z. bpow_num.
        apply Rabs_def1; lra. }
    cbn [Binary64.sub Binary64.opp Binary64.add].
    rewrite (round_eq _ 37 8923762112604928); try reflexivity.
    2:{ change (fexp 45) with (-7)%Z. bpow_num.
        rewrite Rabs_right by lra. lra. }
    2:{ change (fexp 45) with (-7)%Z. change (fexp 37) with (-15)%Z.
        bpow_num. apply Rabs_def1; lra. }
    cbn [Binary64.root].
    destruct (Rlt_dec (IZR 8923762112604928 * bpow (fexp 37)) 0) as [C | _].
    { revert C. change (fexp 37) with (-15)%Z. bpow_num. lra. }
    assert (IZR 17930767239595857 * bpow (-35)
            < sqrt (IZR 8923762112604928 * bpow (fexp 37))
            < IZR 17930767239595859 * bpow (-35)) as Hs.
    { apply sqrt_strictly_between.
      - bpow_num. lra.
      - bpow_num. lra.
      - change (fexp 37) with (-15)%Z. bpow_num. lra. }
    rewrite (round_eq _ 18 8965383619797929); try reflexivity.
    2:{ revert Hs. bpow_num. intros Hs. rewrite Rabs_right by lra. lra. }
    2:{ revert Hs. change (fexp 18) with (-34)%Z. bpow_num. intros Hs.
        apply Rabs_def1; lra. }
    cbn [Binary64.div]. destruct (Req_dec_T 6378137 0) as [C | _]; [lra |].
    unfold Binary64.grs80_e. change (-56)%Z with (fexp (-4)).
    apply round_eq; try reflexivity.
    - change (fexp 18) with (-34)%Z. bpow_num.
      rewrite Rabs_right by lra. lra.
    - change (fexp 18) with (-34)%Z. change (fexp (-4)) with (-56)%Z.
      bpow_num. apply Rabs_def1; lra. }
  rewrite Ee.
  (* e' *)
  assert (Binary64.Derived.e_prime (Num Binary64.grs80_e)
          = Num Binary64.grs80_e_prime) as Ee'.
  { unfold Binary64.Derived.e_prime. cbn [Binary64.power].
    rewrite (round_eq (Binary64.grs80_e ^ 2) (-8) 7718094688415780);
      try reflexivity.
    2:{ unfold Binary64.grs80_e. bpow_num. rewrite Rabs_right by lra. lra. }
    2:{ unfold Binary64.grs80_e. change (fexp (-8)) with (-60)%Z. bpow_num.
        apply Rabs_def1; lra. }
    cbn [Binary64.sub Binary64.opp Binary64.add].
    rewrite (round_eq _ (-1) 8946901639987744); try reflexivity.
    2:{ change (fexp (-8)) with (-60)%Z. bpow_num.
        rewrite Rabs_right by lra. lra. }
    2:{ change (fexp (-8)) with (-60)%Z. change (fexp (-1)) with (-53)%Z.
        bpow_num. apply Rabs_def1; lra. }
    cbn [Binary64.root].
    destruct (Rlt_dec (IZR 8946901639987744 * bpow (fexp (-1))) 0) as [C | _].
    { revert C. change (fexp (-1)) with (-53)%Z. bpow_num. lra. }
    assert (IZR 17953999641744293 * bpow (-54)
            < sqrt (IZR 8946901639987744 * bpow (fexp (-1)))
            < IZR 17953999641744295 * bpow (-54)) as Hs.
    { apply sqrt_strictly_between.
      - bpow_num. lra.
      - bpow_num. lra.
      - change (fexp (-1)) with (-53)%Z. bpow_num. lra. }
    rewrite (round_eq _ (-1) 8976999820872147); try reflexivity.
    2:{ revert Hs. bpow_num. intros Hs. rewrite Rabs_right by lra. lra. }
    2:{ revert Hs. change (fexp (-1)) with (-53)%Z. bpow_num. intros Hs.
        apply Rabs_def1; lra. }
    cbn [Binary64.div].
    destruct (Req_dec_T (IZR 8976999820872147 * bpow (fexp (-1))) 0)
      as [C | _].
    { revert C. change (fexp (-1)) with (-53)%Z. bpow_num. lra. }
    unfold Binary64.grs80_e_prime, Binary64.grs80_e.
    change (-56)%Z with (fexp (-4)) at 2. apply round_eq; try reflexivity.
    - change (fexp (-1)) with (-53)%Z. bpow_num.
      rewrite Rabs_right by lra. lra.
    - change (fexp (-1)) with (-53)%Z. change (fexp (-4)) with (-56)%Z.
      bpow_num. apply Rabs_def1; lra. }
  now rewrite Ee'.
Qed.

Lemma grs80_value_bounds :
  (F64 Binary64.grs80_b /\ F64 Binary64.grs80_e /\
   F64 Binary64.grs80_e_prime) /\
  6356752.3141 <= Binary64.grs80_b <= 6356752.3142 /\
  0.0818191910 <= Binary64.grs80_e <= 0.0818191911 /\
  0.0820944381 <= Binary64.grs80_e_prime <= 0.0820944382.
Proof.
  split; [repeat split; apply F64_dyadic; reflexivity |].
  unfold Binary64.grs80_b, Binary64.grs80_e, Binary64.grs80_e_prime.
  bpow_num. lra.
Qed.

(** The derived constants of the notebook: all four are numbers, the
    bounds of the specification are strict. *)
Lemma grs80_derived :
  exists b e e' : R,
    Binary64.grs80
    = Binary64.Ellipsoid.Build (Num 6378137) (Num b) (Num e) (Num e') /\
    (F64 b /\ F64 e /\ F64 e') /\
    6353222 <= b <= 6365680 /\
    bpow (-5) <= e <= bpow (-3) /\
    bpow (-5) <= e' <= bpow (-2) /\
    e < e'.
Proof.
  exists Binary64.grs80_b, Binary64.grs80_e, Binary64.grs80_e_prime.
  destruct grs80_value_bounds as (HF & Hb & He & He').
  split; [exact grs80_values |]. split; [exact HF |].
  bpow_num. lra.
Qed.



(** ** A point one nanometre off the plane of the 90 degree meridian *)


Lemma lit_nanometre : Binary64.lit 1e-9 = Num nanometre.
Proof.
  unfold Binary64.lit, Binary64.nanometre.
  assert (rnd 1e-9 = IZR 4835703278458517 * bpow (-82)) as E.
  { change (-82)%Z with (fexp (-30)). apply rnd_eq.
    - rewrite Rabs_right by lra. bpow_num. lra.
    - change (fexp (-30)) with (-82)%Z. bpow_num. apply Rabs_def1; lra. }
  rewrite <- E. apply round_finite. rewrite E.
  eapply Rle_trans; [| apply (bpow_le_omega 0); lia].
  rewrite Rabs_right; bpow_num; lra.
Qed.

Lemma east_quotient :
  Binary64.div (Num 6378137) (Num nanometre) = Num 6378137000000000.
Proof.
  cbn [Binary64.div]. destruct (Req_dec_T nanometre 0) as [C | _].
  { revert C. unfold Binary64.nanometre. bpow_num. lra. }
  assert (rnd (6378137 / nanometre) = 6378137000000000) as E.
  { replace 6378137000000000 with (IZR 6378137000000000 * bpow (fexp 52))
      by (change (fexp 52) with 0%Z; bpow_num; lra).
    unfold Binary64.nanometre. apply rnd_eq.
    - bpow_num. rewrite Rabs_right by lra. lra.
    - change (fexp 52) with 0%Z. bpow_num. apply Rabs_def1; lra. }
  rewrite <- E. apply round_finite. rewrite E.
  eapply Rle_trans; [| apply (bpow_le_omega 53); lia].
  rewrite Rabs_right; bpow_num; lra.
Qed.

Lemma east_lam :
  Binary64.EcefToLla.lam (Num nanometre) (Num 6378137) = Num 90.
Proof.
  unfold Binary64.EcefToLla.lam. rewrite east_quotient.
  apply degrees_arctan_large. lra.
Qed.

Lemma east_p : Binary64.EcefToLla.p (Num nanometre) (Num 6378137) = Num 6378137.
Proof.
  unfold Binary64.EcefToLla.p.
  destruct (round_between (nanometre ^ 2) 0 (bpow (-58)) 0)
    as (E2 & H2 & _); try reflexivity;
    [apply F64_0 | apply F64_bpow; lia | | | |].
  { bpow_num. lra. } { bpow_num. lra. }
  { assert (0 <= nanometre <= bpow (-29)) as H
        by (unfold Binary64.nanometre; bpow_num; lra).
    pose proof (sq_between nanometre 0 (bpow (-29)) ltac:(lra) H) as Q.
    rewrite <- bpow_add in Q. change (-29 + -29)%Z with (-58)%Z in Q. lra. }
  cbn [Binary64.power]. rewrite E2.
  replace (6378137 ^ 2) with 40680631590769 by lra.
  rewrite (round_F64 40680631590769).
  2:{ apply (F64_int 40680631590769); reflexivity. }
  2:{ eapply Rle_trans; [| apply (bpow_le_omega 46); lia].
      rewrite Rabs_right by lra. bpow_num. lra. }
  cbn [Binary64.add].
  set (x2 := rnd (nanometre ^ 2)) in *.
  assert (rnd (x2 + 40680631590769) = 40680631590769) as E.
  { assert (0 <= x2 <= / 288230376151711744) as H2'
        by (revert H2; bpow_num; intros H; exact H).
    replace 40680631590769 with (IZR 5207120843618432 * bpow (fexp 45)) at 2
      by (change (fexp 45) with (-7)%Z; bpow_num; lra).
    apply rnd_eq.
    - bpow_num. rewrite Rabs_right by lra. lra.
    - change (fexp 45) with (-7)%Z. bpow_num. apply Rabs_def1; lra. }
  rewrite (round_finite (x2 + 40680631590769)).
  2:{ rewrite E. eapply Rle_trans; [| apply (bpow_le_omega 46); lia].
      rewrite Rabs_right by lra. bpow_num. lra. }
  rewrite E. cbn [Binary64.root].
  destruct (Rlt_dec 40680631590769 0) as [C | _]; [lra |].
  replace 40680631590769 with (6378137 * 6378137) by lra.
  rewrite sqrt_square by lra.
  apply round_F64; [apply (F64_int 6378137); reflexivity |].
  eapply Rle_trans; [| apply (bpow_le_omega 23); lia].
  rewrite Rabs_right by lra. bpow_num. lra.
Qed.

(** ** Products of the derived constants *)

Lemma b_finite (b : R) (Hb : 6353222 <= b <= 6365680) : Rabs b <= omega.
Proof.
  eapply Rle_trans; [| apply (bpow_le_omega 23); lia].
  rewrite Rabs_right by lra. bpow_num. lra.
Qed.

Lemma grs80_e2 (e : R) (He : bpow (-5) <= e <= bpow (-3)) :
  exists e2 : R, Binary64.power (Num e) 2 = Num e2 /\ F64 e2 /\
                 bpow (-10) <= e2 <= bpow (-6).
Proof.
  pose proof (bpow_pos (-5)) as P5.
  destruct (round_between (e ^ 2) (bpow (-10)) (bpow (-6)) 0)
    as (E & H & Fe2); try reflexivity; try (apply F64_bpow; lia).
  { bpow_num. lra. } { bpow_num. lra. }
  { pose proof (sq_between e (bpow (-5)) (bpow (-3)) ltac:(lra) He) as Q.
    rewrite <- !bpow_add in Q. exact Q. }
  exists (rnd (e ^ 2)). cbn [Binary64.power]. now repeat split.
Qed.

Lemma grs80_e2_a (e : R) (He : bpow (-5) <= e <= bpow (-3)) :
  exists w : R,
    Binary64.mul (Binary64.power (Num e) 2) (Num 6378137) = Num w /\
    F64 w /\ bpow 12 <= w <= bpow 17.
Proof.
  destruct (grs80_e2 e He) as (e2 & -> & Fe2 & H2).
  destruct (round_between (e2 * 6378137) (bpow 12) (bpow 17) 17)
    as (E & H & Fw);
    [apply F64_bpow; lia | apply F64_bpow; lia | reflexivity | | | |].
  { pose proof (bpow_pos 12). pose proof (bpow_pos 17). lra. } { lra. }
  { revert H2. bpow_num. lra. }
  exists (rnd (e2 * 6378137)). cbn [Binary64.mul]. now repeat split.
Qed.

Lemma grs80_e'2_b (b e' : R) (Hb : 6353222 <= b <= 6365680)
  (He' : bpow (-5) <= e' <= bpow (-2)) :
  exists w : R,
    Binary64.mul (Binary64.power (Num e') 2) (Num b) = Num w /\
    F64 w /\ bpow 12 <= w <= bpow 19.
Proof.
  pose proof (bpow_pos (-5)) as P5.
  destruct (round_between (e' ^ 2) (bpow (-10)) (bpow (-4)) 0)
    as (E & H & Fe2);
    [apply F64_bpow; lia | apply F64_bpow; lia | reflexivity | | | |].
  { bpow_num. lra. } { bpow_num. lra. }
  { pose proof (sq_between e' (bpow (-5)) (bpow (-2)) ltac:(lra) He') as Q.
    rewrite <- !bpow_add in Q. exact Q. }
  set (e2 := rnd (e' ^ 2)) in *.
  destruct (round_between (e2 * b) (bpow 12) (bpow 19) 19)
    as (E' & H' & Fw);
    [apply F64_bpow; lia | apply F64_bpow; lia | reflexivity | | | |].
  { pose proof (bpow_pos 12). pose proof (bpow_pos 19). lra. } { lra. }
  { assert (bpow (-10) * 6353222 <= e2 * b <= bpow (-4) * 6365680) as Q.
    { pose proof (bpow_pos (-10)).
      split; apply Rmult_le_compat; lra. }
    revert Q. bpow_num. lra. }
  exists (rnd (e2 * b)). cbn [Binary64.power]. rewrite E.
  cbn [Binary64.mul]. now repeat split.
Qed.

Lemma finite_within (x : R) (e : Z) :
  (e <=? 1023)%Z = true -> - bpow e <= x <= bpow e -> Rabs x <= omega.
Proof.
  intros He H. apply Z.leb_le in He. apply Rabs_le.
  pose proof (bpow_le_omega e He). lra.
Qed.

(** The conversion at the point of the equator one nanometre off the plane
    of the 90 degree meridian. *)
Lemma east_point_result :
  Binary64.ecefToLla Binary64.grs80 Binary64.east_point
  = (Binary64.Lla.Build (Num 0) (Num 90) (Num 0), Num 6378137).
Proof.
  destruct grs80_derived
    as (b & e & e' & -> & (Fb & Fe & Fe') & Hb & He & He' & _).
  unfold Binary64.ecefToLla, Binary64.east_point.
  cbn [Binary64.Ecef.X Binary64.Ecef.Y Binary64.Ecef.Z Binary64.Ellipsoid.a
       Binary64.Ellipsoid.b Binary64.Ellipsoid.e Binary64.Ellipsoid.e_prime].
  rewrite lit_nanometre, lit_0.
  replace (Binary64.lit 6378137.0) with (Num 6378137) by (symmetry; exact grs80_a).
  rewrite east_lam, east_p.
  (* theta *)
  assert (Binary64.EcefToLla.theta (Num 0) (Num 6378137) (Num 6378137) (Num b)
          = Num 0) as Eth.
  { unfold Binary64.EcefToLla.theta. rewrite mul_0_l.
    destruct (round_between (6378137 * b) (bpow 45) (bpow 46) 46)
      as (E & H & _);
      [apply F64_bpow; lia | apply F64_bpow; lia | reflexivity | | | |].
    { pose proof (bpow_pos 45). pose proof (bpow_pos 46). lra. } { lra. }
    { bpow_num. lra. }
    cbn [Binary64.mul]. rewrite E. rewrite div_0_l.
    - rewrite arctan_0. apply degrees_zero.
    - pose proof (bpow_pos 45). lra. }
  rewrite Eth.
  (* phi *)
  destruct (grs80_e2_a e He) as (w & Ew & Fw & Hw).
  destruct (grs80_e'2_b b e' Hb He') as (w1 & Ew1 & Fw1 & Hw1).
  pose proof (bpow_pos 12) as P12.
  assert (Binary64.EcefToLla.phi (Num 0) (Num e') (Num b) (Num 0)
            (Num 6378137) (Num e) (Num 6378137) = Num 0) as Ephi.
  { unfold Binary64.EcefToLla.phi.
    rewrite sin_deg_zero, cos_deg_zero, (power_0 2), power_1, Ew, Ew1.
    rewrite mul_0_r, add_0_0.
    rewrite mul_1_r;
      [| exact Fw | apply (finite_within w 17); [reflexivity | lra]].
    destruct (round_between (6378137 + - w) (bpow 22) (bpow 23) 23)
      as (E & H & _);
      [apply F64_bpow; lia | apply F64_bpow; lia | reflexivity | | | |].
    { pose proof (bpow_pos 22). pose proof (bpow_pos 23). lra. } { lra. }
    { revert Hw. bpow_num. lra. }
    cbn [Binary64.sub Binary64.opp Binary64.add]. rewrite E.
    rewrite div_0_l.
    - rewrite arctan_0. apply degrees_zero.
    - pose proof (bpow_pos 22). lra. }
  rewrite Ephi.
  (* N and h *)
  assert (Binary64.EcefToLla.N (Num 6378137) (Num e) (Num 0) = Num 6378137)
    as EN.
  { unfold Binary64.EcefToLla.N. rewrite sin_deg_zero, (power_0 1).
    destruct (grs80_e2 e He) as (e2 & -> & _ & _). rewrite mul_0_r.
    cbn [Binary64.sub Binary64.opp Binary64.add].
    rewrite Ropp_0, Rplus_0_r, round_1, root_1.
    apply div_1_r; [apply (F64_int 6378137); reflexivity |].
    apply (finite_within _ 23); [reflexivity |]. bpow_num. lra. }
  rewrite EN.
  unfold Binary64.EcefToLla.h. rewrite cos_deg_zero.
  rewrite div_1_r; [| apply (F64_int 6378137); reflexivity |].
  2:{ apply (finite_within _ 23); [reflexivity |]. bpow_num. lra. }
  now rewrite sub_diag.
Qed.


(** ** The invariant of the derived constants in binary64 *)

Lemma derived_invariant (a f : R) :
  F64 a -> F64 f -> bpow (-500) <= a <= bpow 500 -> 0 < f < 1 ->
  Binary64.invariant (Binary64.deriveEllipsoidModel (Num a) (Num f)).
Proof.
  intros Fa Ff Ha Hf.
  destruct (derived_binary64_bounds a f Fa Ff Ha Hf)
    as (b & e & Eb & Ee & Hb & He & [E' | (e' & E' & He')]);
    unfold Binary64.deriveEllipsoidModel, Binary64.invariant;
    rewrite Eb, Ee, E';
    cbn [Binary64.Ellipsoid.a Binary64.Ellipsoid.b Binary64.Ellipsoid.e
         Binary64.Ellipsoid.e_prime]; tauto.
Qed.

Lemma grs80_strict_invariant : Binary64.strict_invariant Binary64.grs80.
Proof.
  destruct grs80_derived as (b & e & e' & -> & _ & Hb & He & He' & Hlt).
  unfold Binary64.strict_invariant.
  cbn [Binary64.Ellipsoid.a Binary64.Ellipsoid.b Binary64.Ellipsoid.e
       Binary64.Ellipsoid.e_prime].
  revert He. bpow_num. lra.
Qed.

(** The flattening [1e-20]: the semi-minor axis rounds to the semi-major
    one and both eccentricities are zero. *)
Lemma tiny_flattening_model :
  exists f : R,
    Binary64.lit 1e-20 = Num f /\ 0 < f < 1 /\
    Binary64.deriveEllipsoidModel Binary64.Grs80.a (Binary64.lit 1e-20)
    = Binary64.Ellipsoid.Build (Num 6378137) (Num 6378137) (Num 0) (Num 0).
Proof.
  destruct (round_between 1e-20 (bpow (-67)) (bpow (-66)) 0)
    as (Ef & Hf & Ff);
    [apply F64_bpow; lia | apply F64_bpow; lia | reflexivity | | | |].
  { bpow_num. lra. } { bpow_num. lra. } { bpow_num. lra. }
  set (f := rnd 1e-20) in *. exists f.
  assert (0 < f < 1) as Hf' by (revert Hf; bpow_num; lra).
  split; [exact Ef |]. split; [exact Hf' |].
  unfold Binary64.lit. rewrite Ef, grs80_a.
  unfold Binary64.deriveEllipsoidModel.
  assert (F64 6378137) as Fa by (apply (F64_int 6378137); reflexivity).
  assert (Rabs 6378137 <= omega) as Ha.
  { apply (finite_within _ 23); [reflexivity |]. bpow_num. lra. }
  assert (Binary64.Derived.b (Num 6378137) (Num f) = Num 6378137) as Eb.
  { unfold Binary64.Derived.b.
    cbn [Binary64.sub Binary64.opp Binary64.add].
    assert (rnd (1 + - f) = 1) as E1.
    { apply rnd_near_1. revert Hf. bpow_num. lra. }
    rewrite (round_finite (1 + - f)) by
      (rewrite E1, Rabs_right by lra; pose proof omega_ge_2; lra).
    rewrite E1. now apply mul_1_r. }
  rewrite Eb.
  assert (Binary64.Derived.e (Num 6378137) (Num 6378137) = Num 0) as Ee.
  { unfold Binary64.Derived.e.
    destruct (round_between (6378137 ^ 2) 40680631590769 40680631590769 46)
      as (EA & _ & _);
      [apply (F64_int 40680631590769); reflexivity
      | apply (F64_int 40680631590769); reflexivity | reflexivity | | | |].
    { bpow_num. lra. } { bpow_num. lra. } { lra. }
    cbn [Binary64.power]. rewrite EA, sub_diag, root_0.
    apply div_0_l. lra. }
  rewrite Ee.
  assert (Binary64.Derived.e_prime (Num 0) = Num 0) as Ee'.
  { unfold Binary64.Derived.e_prime. rewrite (power_0 1).
    cbn [Binary64.sub Binary64.opp Binary64.add].
    rewrite Ropp_0, Rplus_0_r, round_1, root_1. apply div_0_l. lra. }
  now rewrite Ee'.
Qed.

(** C7, the claim refuted: with [a = 6378137.0] and [f = 1e-20], inside the
    domain of the invariant, binary64 gives [b = a] and [e' = e = 0]. *)
Lemma derived_invariant_not_strict :
  exists f : R,
    Binary64.lit 1e-20 = Num f /\ 0 < f < 1 /\
    ~ Binary64.strict_invariant
        (Binary64.deriveEllipsoidModel Binary64.Grs80.a (Binary64.lit 1e-20)).
Proof.
  destruct tiny_flattening_model as (f & Ef & Hf & ->).
  exists f. split; [exact Ef |]. split; [exact Hf |].
  unfold Binary64.strict_invariant.
  cbn [Binary64.Ellipsoid.a Binary64.Ellipsoid.b Binary64.Ellipsoid.e
       Binary64.Ellipsoid.e_prime]. lra.
Qed.

(** C7, as binary64 has it: for a semi-major axis between [2^-500] and
    [2^500] and a flattening strictly between 0 and 1, the derived constants
    are numbers with [0 < b <= a], [0 <= e <= 1] and [e' >= e], [e'] being
    [+inf] when the root under it is zero; for the constants of the
    notebook the bounds are strict, as the specification has them. *)
Theorem derived_model_invariant_binary64 :
  (forall a f : R,
      Binary64.F64 a -> Binary64.F64 f ->
      Binary64.bpow (-500) <= a <= Binary64.bpow 500 -> 0 < f < 1 ->
      Binary64.invariant
        (Binary64.deriveEllipsoidModel (Binary64.Num a) (Binary64.Num f))) /\
  Binary64.strict_invariant Binary64.grs80.
Proof. split; [exact derived_invariant | exact grs80_strict_invariant]. Qed.

Lemma derived_model_invariant_binary64_witness :
  Binary64.F64 6378137 /\
  Binary64.F64 (IZR 7731055070424294 * Binary64.bpow (-61)) /\
  Binary64.bpow (-500) <= 6378137 <= Binary64.bpow 500 /\
  0 < IZR 7731055070424294 * Binary64.bpow (-61) < 1 /\
  Binary64.invariant
    (Binary64.deriveEllipsoidModel
       (Binary64.Num 6378137)
       (Binary64.Num (IZR 7731055070424294 * Binary64.bpow (-61)))).
Proof.
  assert (F64 6378137) as Fa by (apply (F64_int 6378137); reflexivity).
  assert (F64 (IZR 7731055070424294 * bpow (-61))) as Ff
      by (apply F64_dyadic; reflexivity).
  assert (bpow (-500) <= 6378137 <= bpow 500) as Ha.
  { split.
    - apply Rle_trans with (bpow 0); [apply bpow_le; lia | rewrite bpow_0; lra].
    - apply Rle_trans with (bpow 23); [bpow_num; lra | apply bpow_le; lia]. }
  assert (0 < IZR 7731055070424294 * bpow (-61) < 1) as Hf
      by (bpow_num; lra).
  split; [exact Fa |]. split; [exact Ff |]. split; [exact Ha |].
  split; [exact Hf |].
  exact (proj1 derived_model_invariant_binary64 6378137
           (IZR 7731055070424294 * bpow (-61)) Fa Ff Ha Hf).
Defined.

(** ** The two angles in binary64 *)

(** C10, the claim refuted: one nanometre off the plane of the 90 degree
    meridian ([X = 1e-9], [Y = 6378137.0], [Z = 0.0]) every cell returns a
    number, and the longitude is 90 degrees exactly. *)
Lemma longitude_reaches_90 :
  Binary64.ecefToLla Binary64.grs80 Binary64.east_point
  = (Binary64.Lla.Build (Binary64.Num 0) (Binary64.Num 90) (Binary64.Num 0),
     Binary64.Num 6378137) /\
  (exists x : R, Binary64.Ecef.X Binary64.east_point = Binary64.Num x /\ x <> 0) /\
  ~ Binary64.open_quarter_turn
      (Binary64.Lla.lam
         (fst (Binary64.ecefToLla Binary64.grs80 Binary64.east_point))).
Proof.
  split; [exact east_point_result |]. split.
  - exists nanometre. split.
    + unfold Binary64.east_point. cbn [Binary64.Ecef.X]. exact lit_nanometre.
    + unfold Binary64.nanometre. bpow_num. lra.
  - rewrite east_point_result. cbn [fst Binary64.Lla.lam].
    unfold Binary64.open_quarter_turn. lra.
Qed.

(** C10, as binary64 has it: whatever the constants and the point, the
    longitude and the latitude returned are nan or lie between -90 and 90
    degrees, bounds included. *)
Theorem ecefToLla_angles_within_quarter_turn
  (m : Binary64.Ellipsoid.model) (pt : Binary64.Ecef.point) :
  Binary64.quarter_turn (Binary64.Lla.lam (fst (Binary64.ecefToLla m pt))) /\
  Binary64.quarter_turn (Binary64.Lla.phi (fst (Binary64.ecefToLla m pt))).
Proof.
  unfold Binary64.ecefToLla. cbn [fst Binary64.Lla.lam Binary64.Lla.phi].
  split; apply degrees_arctan_quarter_turn.
Qed.

(** ** The North Pole in binary64 *)


